(** * Playlist utilities: a shallow embedding and its verification

    The repository is a set of Python scripts: [m3u_splitter.py] (playlist
    file parser, batch splitter and writer), [spotify_playlist_adder.py]
    (remote track matcher and playlist mutator),
    [spotify_playlist_deduplicator.py] and [spotify_playlist_backup.py].

    Python values are embedded as follows.
    - A [str] is a list of 8-bit characters ([text]): code points below 256.
    - An [int] is a [Z].
    - The track records of the parser are Python dicts with string keys:
      [gmap string pyval].
    - The JSON objects of the remote service are records whose optional
      fields are [option]s: [None] stands for an absent key, or for a null
      where the scripts treat both alike.  The keys that the scripts index
      with [[...]] are taken to be present, and an object that the scripts
      read with [.get] is taken to be a dict.
    - An exception is a [None] result (or a constructor of a result type);
      a [try]/[except Exception] turns it into the handler's value.
    - The remote service [sp] is a record of response functions that see
      the log of the requests issued so far; every function that talks to
      the service threads that log.  A loop that runs until the service
      says so takes fuel.
    - A file is its decoded content; paths are POSIX paths.  Logging, pauses
      ([time.sleep]), directories and the file of failed paths are left
      out. *)

From Stdlib Require Import ZArith Ascii String Decimal DecimalZ.
From stdpp Require Import gmap strings list fin_maps sorting.

Open Scope Z_scope.

(** ** Python strings *)

Abbreviation text := (list ascii).

(** A string literal of the source. *)
Definition txt (s : string) : text := list_ascii_of_string s.

Definition LF : ascii := ascii_of_nat 10.
Definition CR : ascii := ascii_of_nat 13.

(** [str.isspace] on one character, for code points below 256:
    U+0009..U+000D, U+001C..U+001F, U+0020, U+0085, U+00A0. *)
Definition isspace (c : ascii) : bool :=
  let n := nat_of_ascii c in
  ((9 <=? n) && (n <=? 13) || (28 <=? n) && (n <=? 31)
   || (n =? 32) || (n =? 133) || (n =? 160))%nat.

(** Removal of the leading, of the trailing, and of both runs of characters
    that satisfy [sp]. *)
Fixpoint lstrip_with (sp : ascii -> bool) (s : text) : text :=
  match s with
  | [] => []
  | c :: rest => if sp c then lstrip_with sp rest else s
  end.

Definition rstrip_with (sp : ascii -> bool) (s : text) : text :=
  reverse (lstrip_with sp (reverse s)).

Definition strip_with (sp : ascii -> bool) (s : text) : text :=
  rstrip_with sp (lstrip_with sp s).

(** [s.strip()] *)
Definition strip (s : text) : text := strip_with isspace s.

(** [s.startswith(p)] *)
Fixpoint startswith (p s : text) : bool :=
  match p, s with
  | [], _ => true
  | _ :: _, [] => false
  | a :: p', b :: s' => bool_decide (a = b) && startswith p' s'
  end.

(** [s.find(sub)]: the lowest index at which [sub] occurs, [None] for -1. *)
Fixpoint find (sub s : text) : option nat :=
  if startswith sub s then Some 0%nat
  else match s with
       | [] => None
       | _ :: rest => S <$> find sub rest
       end.

(** [sub in s] *)
Definition contains (sub s : text) : bool := bool_decide (is_Some (find sub s)).

(** [s.split(sep, 1)] for a non-empty separator. *)
Definition split1 (sep s : text) : list text :=
  match find sep s with
  | Some i => [take i s; drop (i + length sep) s]
  | None => [s]
  end.

(** [s.rfind(c)] for a one-character [c]: the highest index, [None] for -1. *)
Fixpoint rfind_char (c : ascii) (s : text) : option nat :=
  match s with
  | [] => None
  | a :: rest =>
      match rfind_char c rest with
      | Some i => Some (S i)
      | None => if bool_decide (a = c) then Some 0%nat else None
      end
  end.

(** ** Python integers as text: [str(n)] and [int(s)] *)

Definition digit_char (c : ascii) : option (uint -> uint) :=
  match nat_of_ascii c with
  | 48%nat => Some D0 | 49%nat => Some D1 | 50%nat => Some D2
  | 51%nat => Some D3 | 52%nat => Some D4 | 53%nat => Some D5
  | 54%nat => Some D6 | 55%nat => Some D7 | 56%nat => Some D8
  | 57%nat => Some D9
  | _ => None
  end.

Fixpoint text_of_uint (d : uint) : text :=
  match d with
  | Nil => []
  | D0 d => "0"%char :: text_of_uint d
  | D1 d => "1"%char :: text_of_uint d
  | D2 d => "2"%char :: text_of_uint d
  | D3 d => "3"%char :: text_of_uint d
  | D4 d => "4"%char :: text_of_uint d
  | D5 d => "5"%char :: text_of_uint d
  | D6 d => "6"%char :: text_of_uint d
  | D7 d => "7"%char :: text_of_uint d
  | D8 d => "8"%char :: text_of_uint d
  | D9 d => "9"%char :: text_of_uint d
  end.

(** [str(n)] for an int: decimal digits, a leading minus sign when negative. *)
Definition py_str (n : Z) : text :=
  match Z.to_int n with
  | Pos d => text_of_uint d
  | Neg d => "-"%char :: text_of_uint d
  end.

(** The digit part of an integer literal accepted by [int]: decimal digits,
    single underscores allowed between two digits.  [prev] tells whether the
    previous character was a digit. *)
Fixpoint parse_digits (prev : bool) (s : text) : option uint :=
  match s with
  | [] => if prev then Some Nil else None
  | c :: rest =>
      match digit_char c with
      | Some d => d <$> parse_digits true rest
      | None =>
          if bool_decide (c = "_"%char) && prev then parse_digits false rest
          else None
      end
  end.

(** The whitespace that [int] skips around the literal: of the characters
    below 128 only those of C's [isspace] (U+001C..U+001F are refused), and
    U+0085 and U+00A0. *)
Definition int_isspace (c : ascii) : bool :=
  let n := nat_of_ascii c in
  ((9 <=? n) && (n <=? 13) || (n =? 32) || (n =? 133) || (n =? 160))%nat.

(** [int(s)] in base 10; [None] is [ValueError].  Surrounding whitespace is
    ignored, one sign is allowed.  (The interpreter's cap on the number of
    digits is not modelled.) *)
Definition py_int (s : text) : option Z :=
  match strip_with int_isspace s with
  | c :: rest =>
      if bool_decide (c = "-"%char) then
        d ← parse_digits false rest; Some (Z.of_int (Neg d))
      else if bool_decide (c = "+"%char) then
        d ← parse_digits false rest; Some (Z.of_int (Pos d))
      else d ← parse_digits false (c :: rest); Some (Z.of_int (Pos d))
  | [] => None
  end.

(** ** Python values stored in the track records *)

Inductive pyval :=
  | VStr (s : text)
  | VInt (n : Z).

#[global] Instance pyval_eq_dec : EqDecision pyval.
Proof. solve_decision. Defined.

(** Truthiness: [bool(v)]. *)
Definition truthy (v : pyval) : bool :=
  match v with
  | VStr s => negb (bool_decide (s = []))
  | VInt n => negb (n =? 0)
  end.

(** [f"{v}"] *)
Definition format (v : pyval) : text :=
  match v with
  | VStr s => s
  | VInt n => py_str n
  end.

(** A track record: a dict with string keys. *)
Abbreviation song := (gmap string pyval).

(** ** m3u_splitter.py *)

(** Reading a text file opened with the default [newline=None]: the line
    endings CR LF and CR are translated to LF.  [prev_cr] tells whether the
    previous character was a CR. *)
Fixpoint universal_newlines (prev_cr : bool) (s : text) : text :=
  match s with
  | [] => []
  | c :: rest =>
      if bool_decide (c = CR) then LF :: universal_newlines true rest
      else if bool_decide (c = LF) then
        if prev_cr then universal_newlines false rest
        else LF :: universal_newlines false rest
      else c :: universal_newlines false rest
  end.

(** [for line in f]: the lines of a text, each with its terminating LF (the
    last one may lack it). *)
Fixpoint iter_lines (s : text) : list text :=
  match s with
  | [] => []
  | c :: rest =>
      if bool_decide (c = LF) then [LF] :: iter_lines rest
      else match iter_lines rest with
           | [] => [[c]]
           | l :: ls => (c :: l) :: ls
           end
  end.

(** The lines that [for line in f] yields for a file whose decoded content
    is [content]. *)
Definition file_lines (content : text) : list text :=
  iter_lines (universal_newlines false content).

(** The dict literal built at lines 81-87 and 102-108 of m3u_splitter.py. *)
Definition mk_song (path title artist : text) (duration : Z) (metadata : text)
  : song :=
  <["path" := VStr path]> (<["title" := VStr title]> (<["artist" := VStr artist]>
    (<["duration" := VInt duration]> (<["metadata" := VStr metadata]> ∅)))).

(** Lines 73-78: the artist and the title held by the text after the comma
    of an [#EXTINF:] line. *)
Definition artist_title (title_artist : text) : text * text :=
  if contains (txt " - ") title_artist then
    let parts := split1 (txt " - ") title_artist in
    (strip (default [] (parts !! 0%nat)),
     if bool_decide (1 < length parts)%nat
     then strip (default [] (parts !! 1%nat)) else [])
  else ([], title_artist).

(** The body of the [try] at lines 66-88: the record built from an
    [#EXTINF:] line, [None] when an exception is raised. *)
Definition parse_extinf (line : text) : option song :=
  let metadata := split1 (txt ",") (drop 8 line) in
  duration ← (if bool_decide (0 < length metadata)%nat
              then metadata !! 0%nat ≫= py_int else Some 0);
  let title_artist :=
    if bool_decide (1 < length metadata)%nat
    then default [] (metadata !! 1%nat) else [] in
  let '(artist, title) := artist_title title_artist in
  Some (mk_song [] title artist duration title_artist).

(** The state of the loop of [parse_m3u]. *)
Record parser_state := ParserState {
  songs : list song;
  current_song : option song
}.

(** One iteration of the loop at lines 52-108. *)
Definition parse_line (st : parser_state) (raw : text) : parser_state :=
  let line := strip raw in
  if bool_decide (line = []) then st
  else if bool_decide (line = txt "#EXTM3U") then st
  else if startswith (txt "#EXTINF:") line then
    ParserState (songs st) (parse_extinf line)
  else if negb (startswith (txt "#") line)
          && bool_decide (is_Some (current_song st)) then
    match current_song st with
    | Some cur => ParserState (songs st ++ [<["path" := VStr line]> cur]) None
    | None => st
    end
  else if startswith (txt "#") line then st
  else if negb (startswith (txt "#") line) then
    ParserState (songs st ++ [mk_song line [] [] 0 []]) None
  else st.

(** [parse_m3u], on the decoded content of the file at [file_path]. *)
Definition parse_m3u (content : text) : list song :=
  songs (foldl parse_line (ParserState [] None) (file_lines content)).

(** The text written for one song by the loop body at lines 152-157;
    [None] is the [KeyError] of a missing key. *)
Definition write_song (s : song) : option text :=
  metadata ← s !! "metadata";
  extinf ← (if truthy metadata then
              duration ← s !! "duration";
              Some (txt "#EXTINF:" ++ format duration ++ txt "," ++
                    format metadata ++ [LF])
            else Some []);
  path ← s !! "path";
  Some (extinf ++ format path ++ [LF]).

Fixpoint write_songs (batch : list song) : option text :=
  match batch with
  | [] => Some []
  | s :: rest =>
      t ← write_song s;
      ts ← write_songs rest;
      Some (t ++ ts)
  end.

(** The content of one batch file written by [save_batches] (lines 150-157). *)
Definition write_batch (batch : list song) : option text :=
  body ← write_songs batch;
  Some (txt "#EXTM3U" ++ [LF] ++ body).

(** [len(range(0, stop, step))] for a positive step. *)
Definition range_length (stop step : nat) : nat :=
  if bool_decide (stop = 0%nat) then 0%nat else S ((stop - 1) / step)%nat.

(** [range(0, stop, step)] for a length [stop]: the multiples of [step]
    below [stop]; empty for a negative step; [None] is the [ValueError] of a
    zero step. *)
Definition range_from_zero (stop : nat) (step : Z) : option (list nat) :=
  if bool_decide (step = 0) then None
  else if bool_decide (step < 0) then Some []
  else
    let k := Z.to_nat step in
    Some ((λ j, j * k)%nat <$> seq 0 (range_length stop k)).

(** [l[lo:hi]] for non-negative bounds. *)
Definition slice {A} (l : list A) (lo hi : nat) : list A :=
  drop lo (take hi l).

(** [split_into_batches] (line 123):
    [[songs[i:i + batch_size] for i in range(0, len(songs), batch_size)]]. *)
Definition split_into_batches {A} (songs : list A) (batch_size : Z)
  : option (list (list A)) :=
  match range_from_zero (length songs) batch_size with
  | Some starts =>
      Some ((λ i, slice songs i (i + Z.to_nat batch_size)%nat) <$> starts)
  | None => None
  end.

(** The same comprehension with the literal step 100, as it is written in the
    adder (line 222) and in the deduplicator (line 167). *)
Definition batches_of_100 {A} (l : list A) : list (list A) :=
  default [] (split_into_batches l 100).

(** ** The remote service *)

(** The objects of the remote service.  [None] in a field is a key that is
    absent or null. *)
Record artist := Artist {
  artist_id : option text;
  artist_name : option text;
  artist_uri : option text
}.

Record album := Album {
  album_id : option text;
  album_name : option text;
  album_uri : option text
}.

Record track := Track {
  track_id : option text;
  track_uri : option text;
  track_name : option text;
  track_artists : option (list artist);
  track_album : option album;
  track_duration_ms : option Z;
  track_is_local : option bool;
  track_external_urls : option (gmap string text);
  track_explicit : option bool
}.

Record user_ref := UserRef { user_id : option text }.

(** A playlist item. *)
Record item := Item {
  item_track : option track;
  item_added_at : option text;
  item_added_by : option user_ref
}.

(** One page of a paginated response. *)
Record page := Page {
  page_items : list (option item);
  page_next : option text
}.

(** An entry of a removal call: [{"uri": uri, "positions": [pos]}]. *)
Record removal := Removal {
  removal_uri : text;
  removal_positions : list nat
}.

(** The calls that the scripts issue. *)
Inductive request :=
  | Search (q : text)
  | PlaylistAddItems (playlist_id : text) (items : list text)
  | PlaylistRemoveSpecificOccurrences (playlist_id : text) (items : list removal)
  | PlaylistItems (playlist_id : text) (limit offset : option nat)
  | Next (result : page).

(** The client [sp].  Every method sees the log of the requests issued
    before it.  [None] (or [false]) is a raised exception.  [sp_search]
    answers [sp.search(q=q, type='track', limit=1)] with the ids of
    [results['tracks']['items']]. *)
Record spotify := Spotify {
  sp_search : list request -> text -> option (list text);
  sp_playlist_add_items : list request -> text -> list text -> bool;
  sp_playlist_remove_specific_occurrences_of_items :
    list request -> text -> list removal -> bool;
  sp_playlist_items :
    list request -> text -> option nat -> option nat -> option page;
  sp_next : list request -> page -> option page
}.

(** How a call of a function that may loop for ever or raise ends. *)
Inductive outcome (A : Type) :=
  | Returned (a : A)
  | Raised
  | OutOfFuel.
Arguments Returned {A} a.
Arguments Raised {A}.
Arguments OutOfFuel {A}.

(** Truthiness of an optional string ([None], [''] are false). *)
Definition truthy_text (o : option text) : bool :=
  match o with
  | Some (_ :: _) => true
  | _ => false
  end.

(** ** spotify_playlist_deduplicator.py *)

(** The loop at lines 91-93. *)
Fixpoint get_playlist_tracks_loop (fuel : nat) (sp : spotify)
  (log : list request) (results : page) (tracks : list (option item))
  : outcome (list (option item) * list request) :=
  if truthy_text (page_next results) then
    match fuel with
    | O => OutOfFuel
    | S fuel' =>
        match sp_next sp log results with
        | Some results' =>
            get_playlist_tracks_loop fuel' sp (log ++ [Next results]) results'
              (tracks ++ page_items results')
        | None => Raised
        end
    end
  else Returned (tracks, log).

(** [get_playlist_tracks] (lines 87-96): the tracks and the log of requests. *)
Definition get_playlist_tracks (fuel : nat) (sp : spotify)
  (log : list request) (playlist_id : text)
  : outcome (list (option item) * list request) :=
  match sp_playlist_items sp log playlist_id None None with
  | Some results =>
      get_playlist_tracks_loop fuel sp
        (log ++ [PlaylistItems playlist_id None None]) results
        (page_items results)
  | None => Raised
  end.

(** A value of the dict [track_ids]. *)
Record seen := Seen {
  seen_position : nat;
  seen_name : option text;
  seen_artists : list (option text)
}.

(** One iteration of the loop at lines 111-129. *)
Definition find_duplicates_step
  (acc : gmap (option text) seen * list nat) (entry : nat * option item)
  : gmap (option text) seen * list nat :=
  let '(track_ids, duplicates) := acc in
  let '(position, it) := entry in
  match it ≫= item_track with
  | None => acc
  | Some track =>
      let tid := track_id track in
      if bool_decide (is_Some (track_ids !! tid)) then
        (track_ids, duplicates ++ [position])
      else
        (<[tid := Seen position (track_name track)
                    (artist_name <$> default [] (track_artists track))]>
           track_ids,
         duplicates)
  end.

(** [enumerate(l)] *)
Definition enumerate {A} (l : list A) : list (nat * A) :=
  imap (λ i x, (i, x)) l.

(** [find_duplicates] (lines 108-132). *)
Definition find_duplicates (tracks : list (option item))
  : gmap (option text) seen * list nat :=
  foldl find_duplicates_step (∅, []) (enumerate tracks).

(** [sorted(l, reverse=True)] on positions. *)
Definition sorted_reverse (l : list nat) : list nat :=
  merge_sort (flip Nat.le) l.

(** One iteration of the loop at lines 156-159; [None] is the
    [AttributeError] of [tracks[pos].get] on a [None] item. *)
Definition removal_entry (tracks : list (option item)) (pos : nat)
  : option (list removal) :=
  match tracks !! pos with
  | None => Some []
  | Some None => None
  | Some (Some it) =>
      match item_track it with
      | Some t =>
          match track_uri t with
          | Some (c :: u) => Some [Removal (c :: u) [pos]]
          | _ => Some []
          end
      | None => Some []
      end
  end.

(** The list [tracks_to_remove] (lines 152-159). *)
Fixpoint tracks_to_remove (tracks : list (option item))
  (positions_to_remove : list nat) : option (list removal) :=
  match positions_to_remove with
  | [] => Some []
  | pos :: rest =>
      e ← removal_entry tracks pos;
      es ← tracks_to_remove tracks rest;
      Some (e ++ es)
  end.

(** The loop at lines 170-181: one call per batch, a failed call is logged
    and skipped. *)
Fixpoint remove_batches (sp : spotify) (log : list request)
  (playlist_id : text) (batches : list (list removal)) (removed_count : nat)
  : nat * list request :=
  match batches with
  | [] => (removed_count, log)
  | batch :: rest =>
      let ok :=
        sp_playlist_remove_specific_occurrences_of_items sp log playlist_id batch in
      remove_batches sp
        (log ++ [PlaylistRemoveSpecificOccurrences playlist_id batch])
        playlist_id rest
        (if ok then (removed_count + length batch)%nat else removed_count)
  end.

(** [remove_duplicates] (lines 147-183): the number of removed tracks and the
    log of requests; [None] is an exception that escapes. *)
Definition remove_duplicates (sp : spotify) (log : list request)
  (playlist_id : text) (duplicate_positions : list nat)
  (tracks : list (option item)) : option (nat * list request) :=
  if bool_decide (duplicate_positions = []) then Some (0%nat, log)
  else
    let positions_to_remove := sorted_reverse duplicate_positions in
    to_remove ← tracks_to_remove tracks positions_to_remove;
    if bool_decide (to_remove = []) then Some (0%nat, log)
    else Some (remove_batches sp log playlist_id (batches_of_100 to_remove) 0%nat).

(** ** spotify_playlist_adder.py *)

(** The two fields of [urllib.parse.urlparse(url)] that the script reads. *)
Record parse_result := ParseResult {
  netloc : text;
  path : text
}.

(** [urlparse] belongs to the standard library, not to the repository: the
    functions below take it as the parameter [urlparse]; [None] is the
    [ValueError] that it raises on a malformed URL. *)
Abbreviation url_parser := (text -> option parse_result).

(** [is_spotify_url] (lines 88-89). *)
Definition is_spotify_url (urlparse : url_parser) (url : text) : option bool :=
  parsed ← urlparse url;
  Some (bool_decide (netloc parsed = txt "open.spotify.com")
        && contains (txt "track") (path parsed)).

(** The character class [[a-zA-Z0-9]]. *)
Definition is_alnum (c : ascii) : bool :=
  let n := nat_of_ascii c in
  ((97 <=? n) && (n <=? 122) || (65 <=? n) && (n <=? 90)
   || (48 <=? n) && (n <=? 57))%nat.

(** The longest prefix of [s] whose characters satisfy [p]. *)
Fixpoint take_while (p : ascii -> bool) (s : text) : text :=
  match s with
  | c :: rest => if p c then c :: take_while p rest else []
  | [] => []
  end.

(** [extract_track_id_from_url] (lines 102-105): group 1 of the leftmost
    match of [track/([a-zA-Z0-9]+)] in [url]. *)
Fixpoint extract_track_id_from_url (url : text) : option text :=
  match url with
  | [] => None
  | _ :: rest =>
      if startswith (txt "track/") url then
        match take_while is_alnum (drop 6 url) with
        | [] => extract_track_id_from_url rest
        | id => Some id
        end
      else extract_track_id_from_url rest
  end.

(** [os.path.basename(p)] (posixpath). *)
Definition basename (p : text) : text :=
  match rfind_char "/"%char p with
  | Some i => drop (S i) p
  | None => p
  end.

(** [os.path.splitext(p)] (posixpath): the extension starts at the last dot
    of the last component, unless only dots precede it there. *)
Definition splitext (p : text) : text * text :=
  let sep_index := rfind_char "/"%char p in
  match rfind_char "."%char p with
  | Some dot_index =>
      let filename_index :=
        match sep_index with Some i => S i | None => 0%nat end in
      if bool_decide (filename_index ≤ dot_index)%nat
         && existsb (λ c, negb (bool_decide (c = "."%char)))
              (drop filename_index (take dot_index p))
      then (take dot_index p, drop dot_index p)
      else (p, [])
  | None => (p, [])
  end.

(** [d.get(key)] followed by a truth test. *)
Definition truthy_get (d : song) (key : string) : bool :=
  match d !! key with
  | Some v => truthy v
  | None => false
  end.

(** [extract_search_query_from_song] (lines 118-139); [None] is the
    [TypeError] of a path that is not a string. *)
Definition extract_search_query_from_song (s : song) : option text :=
  if truthy_get s "artist" && truthy_get s "title" then
    title ← s !! "title";
    artist ← s !! "artist";
    Some (txt "track:" ++ format title ++ txt " artist:" ++ format artist)
  else
    match default (VStr []) (s !! "path") with
    | VInt n => if bool_decide (n = 0) then Some [] else None
    | VStr file_path =>
        if bool_decide (file_path = []) then Some []
        else
          let filename := basename file_path in
          let filename_without_ext := (splitext filename).1 in
          let parts := split1 (txt " - ") filename_without_ext in
          match parts with
          | [artist; title] =>
              Some (txt "track:" ++ title ++ txt " artist:" ++ artist)
          | _ => Some filename_without_ext
          end
    end.

(** The variables of the first loop of [process_m3u_batch], with the log of
    the requests issued to the service. *)
Record batch_state := BatchState {
  bs_count : Z;
  bs_track_ids : list text;
  bs_failed_tracks : list song;
  bs_log : list request
}.

(** The [try] at lines 189-217: search for the track; any exception ends in
    the handler, which records the track as failed. *)
Definition search_track (sp : spotify) (st : batch_state) (track : song)
  : batch_state :=
  let failed (log : list request) :=
    BatchState (bs_count st) (bs_track_ids st) (bs_failed_tracks st ++ [track])
      log in
  match extract_search_query_from_song track with
  | None => failed (bs_log st)
  | Some [] => failed (bs_log st)
  | Some query =>
      let log := bs_log st ++ [Search query] in
      match sp_search sp (bs_log st) query with
      | Some (track_id :: _) =>
          BatchState (bs_count st) (bs_track_ids st ++ [track_id])
            (bs_failed_tracks st) log
      | Some [] => failed log
      | None => failed log
      end
  end.

(** One iteration of the loop at lines 169-217; [None] is an exception that
    escapes the function: the [ZeroDivisionError] of [count % rate_limit],
    or what [is_spotify_url] raises (it is called outside the inner [try]). *)
Definition process_track (urlparse : url_parser) (sp : spotify)
  (rate_limit : Z) (st : batch_state) (track : song) : option batch_state :=
  let st := BatchState (bs_count st + 1) (bs_track_ids st)
              (bs_failed_tracks st) (bs_log st) in
  if bool_decide (rate_limit = 0) then None
  else
    match default (VStr []) (track !! "path") with
    | VInt _ => None
    | VStr track_path =>
        match is_spotify_url urlparse track_path with
        | None => None
        | Some true =>
            match extract_track_id_from_url track_path with
            | Some track_id =>
                Some (BatchState (bs_count st) (bs_track_ids st ++ [track_id])
                        (bs_failed_tracks st) (bs_log st))
            | None => Some (search_track sp st track)
            end
        | Some false => Some (search_track sp st track)
        end
    end.

(** The loop at lines 169-217 over the parsed tracks. *)
Fixpoint process_tracks (urlparse : url_parser) (sp : spotify)
  (rate_limit : Z) (st : batch_state) (tracks : list song)
  : option batch_state :=
  match tracks with
  | [] => Some st
  | track :: rest =>
      st' ← process_track urlparse sp rate_limit st track;
      process_tracks urlparse sp rate_limit st' rest
  end.

(** The loop at lines 222-231: one call per batch of 100 identifiers, a
    failed call is logged and skipped. *)
Fixpoint add_batches (sp : spotify) (log : list request) (playlist_id : text)
  (batches : list (list text)) (successful : nat) : nat * list request :=
  match batches with
  | [] => (successful, log)
  | batch :: rest =>
      let ok := sp_playlist_add_items sp log playlist_id batch in
      add_batches sp (log ++ [PlaylistAddItems playlist_id batch]) playlist_id
        rest (if ok then (successful + length batch)%nat else successful)
  end.

(** [process_m3u_batch] (lines 158-234) on the content of the file at
    [file_path]: the returned triple and the log of requests; [None] is an
    exception that escapes.  (The log file, the file of failed paths and the
    pauses are left out.) *)
Definition process_m3u_batch (urlparse : url_parser) (sp : spotify)
  (log : list request) (content : text) (playlist_id : text) (rate_limit : Z)
  : option ((nat * nat * list song) * list request) :=
  let tracks := parse_m3u content in
  st ← process_tracks urlparse sp rate_limit (BatchState 0 [] [] log) tracks;
  let '(successful, log') :=
    add_batches sp (bs_log st) playlist_id (batches_of_100 (bs_track_ids st))
      0%nat in
  Some ((successful, length (bs_failed_tracks st), bs_failed_tracks st), log').

(** ** spotify_playlist_backup.py *)

(** The loop of [fetch_playlist_tracks] (lines 128-134). *)
Fixpoint fetch_playlist_tracks_loop (fuel : nat) (sp : spotify)
  (log : list request) (playlist_id : text) (items : list (option item))
  (limit offset : nat) : outcome (list (option item) * list request) :=
  match fuel with
  | O => OutOfFuel
  | S fuel' =>
      match sp_playlist_items sp log playlist_id (Some limit) (Some offset) with
      | None => Raised
      | Some response =>
          let items := items ++ page_items response in
          let log :=
            log ++ [PlaylistItems playlist_id (Some limit) (Some offset)] in
          if truthy_text (page_next response) then
            fetch_playlist_tracks_loop fuel' sp log playlist_id items limit
              (offset + limit)%nat
          else Returned (items, log)
      end
  end.

(** [fetch_playlist_tracks] (lines 124-136). *)
Definition fetch_playlist_tracks (fuel : nat) (sp : spotify)
  (log : list request) (playlist_id : text)
  : outcome (list (option item) * list request) :=
  fetch_playlist_tracks_loop fuel sp log playlist_id [] 100%nat 0%nat.

(** The dicts [{'id': ..., 'name': ...}] built for artists and albums. *)
Record named_ref := NamedRef {
  ref_id : option text;
  ref_name : option text
}.

(** A normalized track (the dicts at lines 163-177 and 183-200). *)
Record normalized := Normalized {
  n_position : nat;
  n_id : option text;
  n_uri : option text;
  n_name : option text;
  n_artists : list named_ref;
  n_album : option named_ref;
  n_duration_ms : option Z;
  n_is_local : bool;
  n_spotify_url : option text;
  n_added_at : option text;
  n_added_by : option text;
  n_explicit : option bool;
  n_available : bool
}.

(** The body of the loop of [normalize_tracks] (lines 160-201). *)
Definition normalize_item (index : nat) (it : item) : normalized :=
  match item_track it with
  | None =>
      Normalized index None None (Some (txt "Unavailable Track")) [] None None
        false None (item_added_at it) None None false
  | Some track =>
      let artists := default [] (track_artists track) in
      Normalized index (track_id track) (track_uri track) (track_name track)
        ((λ a, NamedRef (artist_id a) (artist_name a)) <$> artists)
        (Some (NamedRef (track_album track ≫= album_id)
                        (track_album track ≫= album_name)))
        (track_duration_ms track)
        (default false (track_is_local track))
        (default ∅ (track_external_urls track) !! "spotify")
        (item_added_at it)
        (item_added_by it ≫= user_id)
        (track_explicit track)
        true
  end.

(** [normalize_tracks] (lines 156-203). *)
Definition normalize_tracks (items : list item) : list normalized :=
  (λ e : nat * item, normalize_item e.1 e.2) <$> enumerate items.

(** ** Vocabulary of the statements *)

(** *** Texts *)

(** A text has no leading (no trailing) character that satisfies [sp]. *)
Definition no_lead (sp : ascii → bool) (s : text) : Prop :=
  match s with
  | c :: _ => sp c = false
  | [] => True
  end.

Definition no_trail (sp : ascii → bool) (s : text) : Prop :=
  no_lead sp (reverse s).

(** A text without line terminators. *)
Definition no_newline (s : text) : Prop :=
  Forall (λ c, c ≠ LF ∧ c ≠ CR) s.

(** The characters of [str(n)]: digits and the minus sign. *)
Definition int_char (c : ascii) : bool :=
  bool_decide (is_Some (digit_char c)) || bool_decide (c = "-"%char).

(** *** The parser and the writer *)

(** A path as the parser stores it: a non-empty stripped line that does not
    start with '#'. *)
Definition good_path (p : text) : Prop :=
  p ≠ [] ∧ no_lead isspace p ∧ no_trail isspace p ∧
  startswith (txt "#") p = false ∧ no_newline p.

(** A metadata string as the parser stores it: the end of a stripped line. *)
Definition good_metadata (md : text) : Prop :=
  no_trail isspace md ∧ no_newline md.

(** The record that the parser builds for the path [p] after an [#EXTINF:]
    line with duration [d] and metadata string [md]. *)
Definition song_of (p : text) (d : Z) (md : text) : song :=
  mk_song p (artist_title md).2 (artist_title md).1 d md.

Definition parsed_song (s : song) : Prop :=
  ∃ p d md, s = song_of p d md ∧ good_path p ∧ good_metadata md.

Definition pending_song (cur : option song) : Prop :=
  match cur with
  | Some c => ∃ d md, c = song_of [] d md ∧ good_metadata md
  | None => True
  end.

(** The invariant of the loop of [parse_m3u]. *)
Definition parser_inv (st : parser_state) : Prop :=
  Forall parsed_song (songs st) ∧ pending_song (current_song st).

(** The five keys of a track record. *)
Definition song_keys : gset string :=
  {["path"; "title"; "artist"; "duration"; "metadata"]}.

(** The [#EXTINF:] line that the writer produces, without its terminator. *)
Definition extinf_text (d : Z) (md : text) : text :=
  txt "#EXTINF:" ++ py_str d ++ txt "," ++ md.

(** The lines that the writer produces for one record. *)
Definition song_lines (p : text) (d : Z) (md : text) : list text :=
  (if bool_decide (md = []) then [] else [extinf_text d md ++ [LF]])
  ++ [p ++ [LF]].

(** A line of a written file: a text without line terminator, and LF. *)
Definition written_line (l : text) : Prop :=
  ∃ body, l = body ++ [LF] ∧ no_newline body.

(** A record that has a duration only together with a metadata string. *)
Definition duration_needs_metadata (s : song) : Prop :=
  s !! "metadata" = Some (VStr []) → s !! "duration" = Some (VInt 0).

(** *** Duplicates *)

(** The track info carried at a position of a playlist, if any. *)
Definition track_at (tracks : list (option item)) (p : nat) : option track :=
  tracks !! p ≫= (λ it, it ≫= item_track).

(** Position [p] repeats the track id of an earlier position. *)
Definition repeats (tracks : list (option item)) (p : nat) : Prop :=
  ∃ t, track_at tracks p = Some t ∧
    ∃ q t', (q < p)%nat ∧ track_at tracks q = Some t' ∧
            track_id t' = track_id t.

(** The invariant of the loop of [find_duplicates]. *)
Definition find_duplicates_inv (tracks : list (option item))
  (acc : gmap (option text) seen * list nat) : Prop :=
  (∀ k, is_Some (acc.1 !! k) ↔
        ∃ q t, track_at tracks q = Some t ∧ track_id t = k) ∧
  (∀ p, p ∈ acc.2 ↔ repeats tracks p) ∧
  StronglySorted lt acc.2.

(** Position [p] is the first occurrence of its track id. *)
Definition first_occurrence (tracks : list (option item)) (p : nat) : Prop :=
  ∃ t, track_at tracks p = Some t ∧
    ∀ q t', (q < p)%nat → track_at tracks q = Some t' →
            track_id t' ≠ track_id t.

(** The removal entries of a position whose item is not [None]. *)
Definition entries_at (tracks : list (option item)) (pos : nat)
  : list removal :=
  default [] (removal_entry tracks pos).

(** *** Pagination *)

(** A finite sequence of response pages: every page but the last names a
    next page, the last one does not. *)
Fixpoint page_chain (pages : list page) : Prop :=
  match pages with
  | [] => False
  | p :: rest =>
      match rest with
      | [] => truthy_text (page_next p) = false
      | _ :: _ => truthy_text (page_next p) = true ∧ page_chain rest
      end
  end.

(** After the requests of [log0], the service answers its next requests with
    the pages of [pages], in order. *)
Definition responds_with (sp : spotify) (log0 : list request)
  (pages : list page) : Prop :=
  ∀ k p log, pages !! k = Some p → length log = (length log0 + k)%nat →
    (∀ pid limit offset, sp_playlist_items sp log pid limit offset = Some p) ∧
    (∀ r, sp_next sp log r = Some p).

(** The requests for [n] pages of [limit] items at offsets 0, [limit],
    [2 * limit], ... *)
Definition offset_requests (playlist_id : text) (limit n : nat)
  : list request :=
  (λ k, PlaylistItems playlist_id (Some limit) (Some (k * limit)%nat))
    <$> seq 0 n.

(** Request number [k] of a log asks for the page at offset [k * limit] (an
    omitted offset is the default 0). *)
Definition asks_offset (limit k : nat) (r : request) : Prop :=
  match r with
  | PlaylistItems _ _ offset => default 0%nat offset = (k * limit)%nat
  | _ => False
  end.

Definition paginates_by_offset (limit : nat) (log : list request) : Prop :=
  ∀ k r, log !! k = Some r → asks_offset limit k r.

(** *** The matcher and the mutator *)

(** The text search query that the matcher builds from a title, an artist
    and a path. *)
Definition search_query (title artist file_path : text) : text :=
  if negb (bool_decide (artist = [])) && negb (bool_decide (title = [])) then
    txt "track:" ++ title ++ txt " artist:" ++ artist
  else if bool_decide (file_path = []) then []
  else
    let stem := (splitext (basename file_path)).1 in
    match split1 (txt " - ") stem with
    | [a; t] => txt "track:" ++ t ++ txt " artist:" ++ a
    | _ => stem
    end.

(** The add calls for a list of batches. *)
Definition add_calls (playlist_id : text) (batches : list (list text))
  : list request :=
  PlaylistAddItems playlist_id <$> batches.

(** Whether the add call for batch number [i] succeeds: the service sees the
    log [log0] followed by the calls for the earlier batches. *)
Definition add_call_ok (sp : spotify) (log0 : list request)
  (playlist_id : text) (batches : list (list text)) (i : nat) : bool :=
  match batches !! i with
  | Some batch =>
      sp_playlist_add_items sp (log0 ++ add_calls playlist_id (take i batches))
        playlist_id batch
  | None => false
  end.

(** The sum of the sizes of the batches whose add call succeeds. *)
Definition added_total (sp : spotify) (log0 : list request)
  (playlist_id : text) (batches : list (list text)) : nat :=
  sum_list ((λ i, if add_call_ok sp log0 playlist_id batches i
                  then length (default [] (batches !! i)) else 0%nat)
              <$> seq 0 (length batches)).

(** ** The standard library URL parser *)

(** A model of [urllib.parse.urlparse] (CPython 3.11), used to run the
    scripts on concrete URLs: the scheme, the network location and the path
    are split as the library does, and an unmatched square bracket in the
    network location raises [ValueError].  The validation of a bracketed
    host and the NFKC check of the network location are left out. *)
Definition c0_control_or_space (c : ascii) : bool := (nat_of_ascii c <=? 32)%nat.

Definition unsafe_url_char (c : ascii) : bool :=
  let n := nat_of_ascii c in ((n =? 9) || (n =? 10) || (n =? 13))%nat.

Definition is_ascii_alpha (c : ascii) : bool :=
  let n := nat_of_ascii c in
  ((97 <=? n) && (n <=? 122) || (65 <=? n) && (n <=? 90))%nat.

Definition scheme_char (c : ascii) : bool :=
  is_alnum c || bool_decide (c = "+"%char) || bool_decide (c = "-"%char)
  || bool_decide (c = "."%char).

Definition to_lower (c : ascii) : ascii :=
  let n := nat_of_ascii c in
  if ((65 <=? n) && (n <=? 90))%nat then ascii_of_nat (n + 32) else c.

(** The index of the first character of [s] that belongs to [delims], the
    length of [s] when there is none. *)
Fixpoint first_delim (delims s : text) : nat :=
  match s with
  | [] => 0%nat
  | c :: rest =>
      if bool_decide (c ∈ delims) then 0%nat else S (first_delim delims rest)
  end.

Definition has_char (c : ascii) (s : text) : bool := bool_decide (c ∈ s).

Definition split_scheme (url : text) : text * text :=
  match find (txt ":") url with
  | Some (S i) =>
      if match url with c :: _ => is_ascii_alpha c | [] => false end
         && forallb scheme_char (take (S i) url)
      then (to_lower <$> take (S i) url, drop (S (S i)) url)
      else ([], url)
  | _ => ([], url)
  end.

(** [urlsplit]: scheme, network location and path. *)
Definition urlsplit_model (url : text) : option (text * text * text) :=
  let url := lstrip_with c0_control_or_space url in
  let url := filter (λ c, unsafe_url_char c = false) url in
  let '(scheme, url) := split_scheme url in
  match
    (if startswith (txt "//") url then
       let rest := drop 2 url in
       let delim := first_delim (txt "/?#") rest in
       let netloc := take delim rest in
       if has_char "["%char netloc && negb (has_char "]"%char netloc)
          || has_char "]"%char netloc && negb (has_char "["%char netloc)
       then None
       else Some (netloc, drop delim rest)
     else Some ([], url))
  with
  | None => None
  | Some (netloc, url) =>
      let url := default [] (split1 (txt "#") url !! 0%nat) in
      let url := default [] (split1 (txt "?") url !! 0%nat) in
      Some (scheme, netloc, url)
  end.

Definition uses_params : list text :=
  txt <$> [""; "ftp"; "hdl"; "prospero"; "http"; "imap"; "https"; "shttp";
           "rtsp"; "rtspu"; "sip"; "sips"; "mms"; "sftp"; "tel"]%string.

(** The path left by [_splitparams]. *)
Definition splitparams_path (url : text) : text :=
  let start := default 0%nat (rfind_char "/"%char url) in
  match find (txt ";") (drop start url) with
  | Some i => take (start + i) url
  | None => url
  end.

Definition urlparse_model : url_parser := λ url,
  match urlsplit_model url with
  | None => None
  | Some (scheme, netloc, url) =>
      Some (ParseResult netloc
              (if bool_decide (scheme ∈ uses_params) && contains (txt ";") url
               then splitparams_path url else url))
  end.

(** ** Concrete inputs *)

Definition demo_playlist : text := txt "#EXTM3U
#EXTINF:12,Artist - Title
a.mp3
https://open.spotify.com/track/4uLU6hMCjMI75M1A2tKUQC?si=1
unknown.mp3
".

(** A playlist whose first path is a URL with an unmatched bracket. *)
Definition bracket_playlist : text := txt "#EXTM3U
http://[
#EXTINF:12,Artist - Title
a.mp3
".

(** A playlist whose only record has a duration and no metadata string. *)
Definition duration_only_playlist : text := txt "#EXTINF:5
a.mp3
".

(** A service that knows one track and refuses the add calls that come after
    an earlier add call. *)
Definition demo_service : spotify :=
  Spotify
    (λ _ q, if bool_decide (q = txt "track:Title artist:Artist")
            then Some [txt "tid1"] else Some [])
    (λ log _ _, forallb (λ r, match r with
                              | PlaylistAddItems _ _ => false
                              | _ => true
                              end) log)
    (λ _ _ _, true)
    (λ _ _ _ _, None)
    (λ _ _, None).

(** The state of the demo run after the first loop. *)
Definition demo_state : batch_state :=
  BatchState 3 [txt "tid1"; txt "4uLU6hMCjMI75M1A2tKUQC"]
    [mk_song (txt "unknown.mp3") [] [] 0 []]
    [Search (txt "track:Title artist:Artist"); Search (txt "unknown")].

(** A playlist with a repeated track, an item without track info and a
    [None] item. *)
Definition demo_track (id : string) : option item :=
  Some (Item (Some (Track (Some (txt id)) (Some (txt "spotify:track:" ++ txt id))
                      (Some (txt "Song")) (Some []) None None None None None))
          None None).

Definition demo_tracks : list (option item) :=
  [demo_track "a"; demo_track "b"; None; demo_track "a";
   Some (Item None None None); demo_track "b"; demo_track "a"].

(** A service with two pages of one item each; the 'next' link of the first
    page names offset 7. *)
Definition two_pages : list page :=
  [Page [None]
     (Some (txt "https://api.spotify.com/v1/playlists/pl/tracks?offset=7&limit=1"));
   Page [Some (Item None None None)] None].

Definition two_page_service : spotify :=
  Spotify (λ _ _, None) (λ _ _ _, true) (λ _ _ _, true)
    (λ log _ _ _, two_pages !! length log)
    (λ log _, two_pages !! length log).


(** ** More of m3u_splitter.py *)

(** [os.path.dirname(p)] (posixpath). *)
Definition dirname (p : text) : text :=
  match rfind_char "/"%char p with
  | Some i =>
      let head := take (S i) p in
      if forallb (λ c, bool_decide (c = "/"%char)) head then head
      else rstrip_with (λ c, bool_decide (c = "/"%char)) head
  | None => []
  end.

(** [os.path.join(a, b)] (posixpath). *)
Definition path_join (a b : text) : text :=
  if startswith (txt "/") b then b
  else if bool_decide (a = []) || bool_decide (last a = Some "/"%char)
       then a ++ b
       else a ++ txt "/" ++ b.

(** The files of the file system: their decoded content, by path. *)
Abbreviation files := (gmap text text).

(** The name of the file of batch number [i] (counted from 0):
    [f"{base_filename}_{i+1}.m3u"] (line 149). *)
Definition batch_file_name (base_filename : text) (i : nat) : text :=
  base_filename ++ txt "_" ++ py_str (Z.of_nat i + 1) ++ txt ".m3u".

(** The loop at lines 148-159, from batch number [i] on. *)
Fixpoint save_batches_loop (output_dir base_filename : text) (i : nat)
  (batches : list (list song)) (fs : files) (saved_files : list text)
  : option (list text * files) :=
  match batches with
  | [] => Some (saved_files, fs)
  | batch :: rest =>
      let file_path :=
        path_join output_dir (batch_file_name base_filename i) in
      content ← write_batch batch;
      save_batches_loop output_dir base_filename (S i) rest
        (<[file_path := content]> fs) (saved_files ++ [file_path])
  end.

(** Lines 138-143: the directory that receives the batch files.  [abspath]
    is [os.path.abspath], which depends on the working directory. *)
Definition batches_dir (abspath : text → text) (input_file_path : text)
  : text :=
  let input_dir := dirname (abspath input_file_path) in
  let input_filename := basename input_file_path in
  let input_name_without_ext := (splitext input_filename).1 in
  path_join input_dir (input_name_without_ext ++ txt "_batches").

(** [save_batches] (lines 125-161): the saved paths, the output directory
    and the files afterwards; [None] is the [KeyError] of a record that
    lacks a key. *)
Definition save_batches (abspath : text → text) (fs : files)
  (batches : list (list song)) (input_file_path base_filename : text)
  : option (list text * text * files) :=
  let output_dir := batches_dir abspath input_file_path in
  r ← save_batches_loop output_dir base_filename 0 batches fs [];
  Some (r.1, output_dir, r.2).

(** The record as the writer keeps it: the duration of a record without
    metadata string is not written. *)
Definition written_song (s : song) : song :=
  if bool_decide (s !! "metadata" = Some (VStr []))
  then <["duration" := VInt 0]> s else s.

(** A line that holds a path: not blank, not starting with '#'. *)
Definition is_path_line (raw : text) : bool :=
  negb (bool_decide (strip raw = []))
  && negb (startswith (txt "#") (strip raw)).

(** The body of [main] (lines 181-199): the file at [m3u_file] is parsed,
    split and saved; [output_dir] is the optional [--output-dir].  The saved
    paths and the files afterwards; [None] is a raised exception (the input
    file does not exist, the batch size is 0). *)
Definition splitter_main (abspath : text → text) (fs : files)
  (m3u_file : text) (batch_size : Z) (base_name : text)
  (output_dir : option text) : option (list text * files) :=
  content ← fs !! m3u_file;
  let songs := parse_m3u content in
  batches ← split_into_batches songs batch_size;
  r ← (if truthy_text output_dir
       then save_batches abspath fs batches (default [] output_dir) base_name
       else save_batches abspath fs batches m3u_file base_name);
  Some (r.1.1, r.2).

(** ** More of spotify_playlist_adder.py *)

(** The text written for one track by the loop body of [create_failed_m3u]
    (lines 258-271); [None] is the [KeyError] of a missing key. *)
Definition failed_track_text (track : song) : option text :=
  extinf ← (if truthy_get track "metadata"
               || truthy_get track "artist" && truthy_get track "title"
            then
              let duration := default (VInt 0) (track !! "duration") in
              let metadata := default (VStr []) (track !! "metadata") in
              metadata ← (if negb (truthy metadata)
                             && truthy_get track "artist"
                             && truthy_get track "title"
                          then
                            artist ← track !! "artist";
                            title ← track !! "title";
                            Some (VStr (format artist ++ txt " - "
                                        ++ format title))
                          else Some metadata);
              Some (txt "#EXTINF:" ++ format duration ++ txt "," ++
                    format metadata ++ [LF])
            else Some []);
  path ← track !! "path";
  Some (extinf ++ format path ++ [LF]).

Fixpoint failed_tracks_text (failed_tracks : list song) : option text :=
  match failed_tracks with
  | [] => Some []
  | track :: rest =>
      t ← failed_track_text track;
      ts ← failed_tracks_text rest;
      Some (t ++ ts)
  end.

(** The content of the file written by [create_failed_m3u] (lines
    256-271). *)
Definition create_failed_m3u (failed_tracks : list song) : option text :=
  body ← failed_tracks_text failed_tracks;
  Some (txt "#EXTM3U" ++ [LF] ++ body).

(** A request is a search. *)
Definition is_search (r : request) : Prop :=
  match r with
  | Search _ => True
  | _ => False
  end.

(** ** More of spotify_playlist_deduplicator.py *)

(** The value that [find_duplicates] stores for the track [t] met at
    position [p] (lines 124-128). *)
Definition seen_at (p : nat) (t : track) : seen :=
  Seen p (track_name t) (artist_name <$> default [] (track_artists t)).

(** Whether an item carries track info (the test at line 113). *)
Definition has_track (it : option item) : bool :=
  bool_decide (is_Some (it ≫= item_track)).

(** The sum of the sizes of the batches whose removal call succeeds, when
    the calls are issued after the log [log]. *)
Fixpoint removed_total (sp : spotify) (log : list request)
  (playlist_id : text) (batches : list (list removal)) : nat :=
  match batches with
  | [] => 0
  | batch :: rest =>
      ((if sp_playlist_remove_specific_occurrences_of_items sp log playlist_id
             batch
        then length batch else 0)
       + removed_total sp
           (log ++ [PlaylistRemoveSpecificOccurrences playlist_id batch])
           playlist_id rest)%nat
  end.

(** ** More of Python strings *)

(** [s.split(sep)] for a non-empty separator; a text of length [n] has at
    most [n] occurrences of the separator. *)
Fixpoint split_loop (fuel : nat) (sep s : text) : list text :=
  match fuel with
  | O => [s]
  | S fuel' =>
      match find sep s with
      | Some i => take i s :: split_loop fuel' sep (drop (i + length sep) s)
      | None => [s]
      end
  end.

Definition split (sep s : text) : list text := split_loop (length s) sep s.

(** [sep.join(parts)] *)
Fixpoint join (sep : text) (parts : list text) : text :=
  match parts with
  | [] => []
  | [p] => p
  | p :: rest => p ++ sep ++ join sep rest
  end.

(** [c.lower()] for a code point below 256: the letters A-Z and the
    uppercase letters of U+00C0..U+00DE (U+00D7 is the multiplication
    sign). *)
Definition lower_char (c : ascii) : ascii :=
  let n := nat_of_ascii c in
  if ((65 <=? n) && (n <=? 90)
      || (192 <=? n) && (n <=? 222) && negb (n =? 215))%nat
  then ascii_of_nat (n + 32) else c.

(** [s.lower()] *)
Definition lower (s : text) : text := lower_char <$> s.

(** [re.sub(r'[...]+', repl, s)] for a character class [cls]: every maximal
    run of characters of the class is replaced by [repl]; [in_run] tells
    whether the previous character belongs to a run. *)
Fixpoint sub_runs (cls : ascii → bool) (repl : text) (in_run : bool)
  (s : text) : text :=
  match s with
  | [] => []
  | c :: rest =>
      if cls c then (if in_run then [] else repl) ++ sub_runs cls repl true rest
      else c :: sub_runs cls repl false rest
  end.

(** ** spotify_playlist_deduplicator.py: the playlist argument *)

(** Lines 198-201 of [main]: the playlist id taken from the command line
    argument; [None] is an [IndexError]. *)
Definition playlist_id_of_argument (playlist_id : text) : option text :=
  if contains (txt "spotify.com/playlist/") playlist_id then
    part ← split (txt "playlist/") playlist_id !! 1%nat;
    split (txt "?") part !! 0%nat
  else Some playlist_id.

(** ** More of spotify_playlist_backup.py *)

(** The character classes [[a-z0-9\-\s_]] and [[\s_]] of [slugify]. *)
Definition slug_char (c : ascii) : bool :=
  let n := nat_of_ascii c in
  ((97 <=? n) && (n <=? 122) || (48 <=? n) && (n <=? 57))%nat
  || bool_decide (c = "-"%char) || isspace c || bool_decide (c = "_"%char).

Definition slug_separator (c : ascii) : bool :=
  isspace c || bool_decide (c = "_"%char).

(** [slugify] (lines 94-99). *)
Definition slugify (value : text) : text :=
  let value := lower (strip value) in
  let value := filter (λ c, slug_char c = true) value in
  let value := sub_runs slug_separator (txt "-") false value in
  let value := take 60 value in
  if bool_decide (value = []) then txt "playlist" else value.

(** [parse_format] (lines 232-243); the value is a string or [None]. *)
Definition parse_format (value : option text) : list text :=
  let value := if truthy_text value then default [] value else txt "both" in
  let normalized := lower value in
  if bool_decide (normalized = txt "both") then [txt "json"; txt "m3u"]
  else if bool_decide (normalized = txt "json")
          || bool_decide (normalized = txt "m3u")
  then [normalized]
  else [txt "json"; txt "m3u"].

(** An entry of the lists [selected_playlists] and [exclude_playlists] of the
    configuration: a dict (of which the scripts read the keys 'id', 'name'
    and 'format', here strings or absent), a string, or another value. *)
Inductive entry :=
  | EntryDict (entry_id entry_name entry_format : option text)
  | EntryStr (value : text)
  | EntryOther.

(** The dict that [resolve_identifier] returns: the keys 'id' and 'name',
    each present or not. *)
Record identifier := Identifier {
  ident_id : option text;
  ident_name : option text
}.

(** [entry.get(key)] if it is true, for the dict comprehension at line 248. *)
Definition truthy_part (o : option text) : option text :=
  if truthy_text o then o else None.

(** [re.fullmatch(r'[A-Za-z0-9]{22}', value)] *)
Definition is_playlist_id (value : text) : bool :=
  bool_decide (length value = 22%nat) && forallb is_alnum value.

(** [resolve_identifier] (lines 246-261); [None] is an [IndexError]. *)
Definition resolve_identifier (e : entry) : option identifier :=
  match e with
  | EntryDict i n _ => Some (Identifier (truthy_part i) (truthy_part n))
  | EntryStr e =>
      let value := strip e in
      if startswith (txt "spotify:playlist:") value then
        i ← last (split (txt ":") value);
        Some (Identifier (Some i) None)
      else if contains (txt "open.spotify.com/playlist/") value then
        part ← split (txt "open.spotify.com/playlist/") value !! 1%nat;
        playlist_id ← split (txt "?") part !! 0%nat;
        Some (Identifier (Some playlist_id) None)
      else if is_playlist_id value then Some (Identifier (Some value) None)
      else Some (Identifier None (Some value))
  | EntryOther => Some (Identifier None None)
  end.

(** A playlist of the current user, as [current_user_playlists] lists it:
    the key 'id' (indexed with [[...]]) and the key 'name'. *)
Record playlist := Playlist {
  pl_id : text;
  pl_name : option text
}.

(** An entry of the list that [determine_playlist_exports] returns. *)
Record export := Export {
  export_id : text;
  export_name : option text;
  export_format : list text
}.

(** The keys of the configuration that [determine_playlist_exports] reads. *)
Record config := Config {
  config_mode : text;
  config_selected_playlists : list entry;
  config_exclude_playlists : list entry;
  config_default_format : option text
}.

Section determine_playlist_exports.
(** [str.casefold] belongs to the standard library and leaves the code
    points below 256 (the sharp s becomes 'ss'): it is a parameter. *)
Variable casefold : text → text.
Variable playlists : list playlist.

(** The dict [by_id] (line 265): a later playlist replaces an earlier one
    with the same id. *)
Definition by_id : gmap text playlist :=
  foldl (λ m playlist, <[pl_id playlist := playlist]> m) ∅ playlists.

(** [(playlist.get('name') or '').casefold()] *)
Definition name_key (playlist : playlist) : text :=
  casefold (if truthy_text (pl_name playlist)
            then default [] (pl_name playlist) else []).

(** The dict [name_map] (lines 266-269). *)
Definition name_map : gmap text (list playlist) :=
  foldl (λ m playlist,
           <[name_key playlist :=
               default [] (m !! name_key playlist) ++ [playlist]]> m)
    ∅ playlists.

(** [find_playlist] (lines 273-291). *)
Definition find_playlist (details : identifier) : option playlist :=
  if truthy_text (ident_id details) then
    by_id !! default [] (ident_id details)
  else if truthy_text (ident_name details) then
    match default []
            (name_map !! casefold (default [] (ident_name details))) with
    | [] => None
    | [playlist] => Some playlist
    | _ :: _ :: _ => None
    end
  else None.

(** [resolve_ids] (lines 293-300). *)
Fixpoint resolve_ids (entries : list entry) : option (list text) :=
  match entries with
  | [] => Some []
  | e :: rest =>
      details ← resolve_identifier e;
      resolved_ids ← resolve_ids rest;
      Some (match find_playlist details with
            | Some playlist => pl_id playlist :: resolved_ids
            | None => resolved_ids
            end)
  end.

(** The body of the loop at lines 317-333 for one selected entry: the
    exports that it appends. *)
Definition selected_export (default_format : option text) (e : entry)
  : option (list export) :=
  details ← resolve_identifier e;
  let '(details, entry_format) :=
    match e with
    | EntryDict _ n f =>
        (if truthy_text n && negb (bool_decide (is_Some (ident_name details)))
         then Identifier (ident_id details) n else details,
         parse_format (if truthy_text f then f else default_format))
    | _ => (details, parse_format default_format)
    end in
  Some (match find_playlist details with
        | Some playlist =>
            [Export (pl_id playlist) (pl_name playlist) entry_format]
        | None => []
        end).

Fixpoint selected_exports (default_format : option text)
  (entries : list entry) : option (list export) :=
  match entries with
  | [] => Some []
  | e :: rest =>
      x ← selected_export default_format e;
      xs ← selected_exports default_format rest;
      Some (x ++ xs)
  end.

(** [determine_playlist_exports] (lines 264-335). *)
Definition determine_playlist_exports (config : config)
  : option (list export) :=
  let default_format := config_default_format config in
  if bool_decide (config_mode config = txt "all") then
    resolved_ids ← resolve_ids (config_exclude_playlists config);
    let excluded_ids : gset text := list_to_set resolved_ids in
    Some ((λ playlist,
             Export (pl_id playlist) (pl_name playlist)
               (parse_format default_format))
            <$> filter (λ playlist, pl_id playlist ∉ excluded_ids) playlists)
  else selected_exports default_format (config_selected_playlists config).
End determine_playlist_exports.

Section write_m3u.
(** [int(duration_ms / 1000)]: the division is a floating point division,
    which is no part of this embedding; the conversion is a parameter, and
    [None] is the [OverflowError] of a quotient that no float holds. *)
Variable int_div_1000 : Z → option Z.

(** The two lines that [write_m3u] appends for a track (lines 213-225);
    [None] is an exception: the [TypeError] of [', '.join] on a name that
    is [None]. *)
Definition m3u_name (track : normalized) : text :=
  if truthy_text (n_name track) then default [] (n_name track)
  else txt "Unknown Title".

Definition m3u_artists (track : normalized) : option text :=
  names ← mapM ref_name (n_artists track);
  Some (join (txt ", ") names).

Definition m3u_duration (track : normalized) : option Z :=
  match n_duration_ms track with
  | Some duration_ms =>
      if duration_ms =? 0 then Some (-1) else int_div_1000 duration_ms
  | None => Some (-1)
  end.

Definition m3u_metadata (artists name : text) : text :=
  if negb (bool_decide (artists = [])) then artists ++ txt " - " ++ name
  else name.

Definition m3u_location (track : normalized) : text :=
  if truthy_text (n_spotify_url track) then default [] (n_spotify_url track)
  else if truthy_text (n_uri track) then default [] (n_uri track)
  else m3u_name track.

Definition m3u_lines (track : normalized) : option (list text) :=
  artists ← m3u_artists track;
  duration_seconds ← m3u_duration track;
  Some [txt "#EXTINF:" ++ py_str duration_seconds ++ txt "," ++
        m3u_metadata artists (m3u_name track);
        m3u_location track].

Fixpoint m3u_all_lines (tracks : list normalized) : option (list text) :=
  match tracks with
  | [] => Some []
  | track :: rest =>
      l ← m3u_lines track;
      ls ← m3u_all_lines rest;
      Some (l ++ ls)
  end.

(** The content of the file written by [write_m3u] (lines 211-229). *)
Definition write_m3u (tracks : list normalized) : option text :=
  lines ← m3u_all_lines tracks;
  Some (join [LF] (txt "#EXTM3U" :: lines) ++ [LF]).
End write_m3u.

(** The calls of [fetch_all_playlists] and [fetch_liked_songs], and the
    part of the client that answers them; every method sees the log of the
    calls issued before it, and [None] is a raised exception. *)
Inductive library_request :=
  | CurrentUserPlaylists (limit offset : nat)
  | CurrentUserSavedTracks (limit offset : nat).

(** One page of playlists. *)
Record playlist_page := PlaylistPage {
  playlist_page_items : list playlist;
  playlist_page_next : option text
}.

Record library := Library {
  sp_current_user_playlists :
    list library_request → nat → nat → option playlist_page;
  sp_current_user_saved_tracks :
    list library_request → nat → nat → option page
}.

(** The loop of [fetch_all_playlists] (lines 111-117). *)
Fixpoint fetch_all_playlists_loop (fuel : nat) (sp : library)
  (log : list library_request) (playlists : list playlist)
  (limit offset : nat) : outcome (list playlist * list library_request) :=
  match fuel with
  | O => OutOfFuel
  | S fuel' =>
      match sp_current_user_playlists sp log limit offset with
      | None => Raised
      | Some response =>
          let playlists := playlists ++ playlist_page_items response in
          let log := log ++ [CurrentUserPlaylists limit offset] in
          if truthy_text (playlist_page_next response) then
            fetch_all_playlists_loop fuel' sp log playlists limit
              (offset + limit)%nat
          else Returned (playlists, log)
      end
  end.

(** [fetch_all_playlists] (lines 106-120). *)
Definition fetch_all_playlists (fuel : nat) (sp : library)
  (log : list library_request)
  : outcome (list playlist * list library_request) :=
  fetch_all_playlists_loop fuel sp log [] 50%nat 0%nat.

(** The loop of [fetch_liked_songs] (lines 144-150). *)
Fixpoint fetch_liked_songs_loop (fuel : nat) (sp : library)
  (log : list library_request) (items : list (option item))
  (limit offset : nat) : outcome (list (option item) * list library_request) :=
  match fuel with
  | O => OutOfFuel
  | S fuel' =>
      match sp_current_user_saved_tracks sp log limit offset with
      | None => Raised
      | Some response =>
          let items := items ++ page_items response in
          let log := log ++ [CurrentUserSavedTracks limit offset] in
          if truthy_text (page_next response) then
            fetch_liked_songs_loop fuel' sp log items limit
              (offset + limit)%nat
          else Returned (items, log)
      end
  end.

(** [fetch_liked_songs] (lines 139-153). *)
Definition fetch_liked_songs (fuel : nat) (sp : library)
  (log : list library_request)
  : outcome (list (option item) * list library_request) :=
  fetch_liked_songs_loop fuel sp log [] 50%nat 0%nat.

(** *** Vocabulary *)

(** The part of [s] before the first occurrence of [sep]; all of [s] when
    there is none. *)
Definition before (sep s : text) : text :=
  match find sep s with
  | Some i => take i s
  | None => s
  end.

(** A character of a slug: a lowercase letter, a digit or a hyphen. *)
Definition slug_safe (c : ascii) : bool :=
  let n := nat_of_ascii c in
  ((97 <=? n) && (n <=? 122) || (48 <=? n) && (n <=? 57))%nat
  || bool_decide (c = "-"%char).

(** An entry of the list [entries] resolves to a playlist with the id
    [i]. *)
Definition resolves_to (casefold : text → text) (playlists : list playlist)
  (entries : list entry) (i : text) : Prop :=
  ∃ e details playlist,
    e ∈ entries ∧ resolve_identifier e = Some details ∧
    find_playlist casefold playlists details = Some playlist ∧
    pl_id playlist = i.

(** The formats that an export can name. *)
Definition export_formats : list (list text) :=
  [[txt "json"; txt "m3u"]; [txt "json"]; [txt "m3u"]].

(** The record that the parser of m3u_splitter.py builds from the two lines
    that [write_m3u] writes for a track. *)
Definition m3u_song (int_div_1000 : Z → option Z) (track : normalized)
  : option song :=
  artists ← m3u_artists track;
  duration_seconds ← m3u_duration int_div_1000 track;
  Some (song_of (m3u_location track) duration_seconds
          (m3u_metadata artists (m3u_name track))).

(** The texts that [write_m3u] writes for a track can be read back: the
    location is a path line and the metadata has no line terminator and no
    trailing whitespace. *)
Definition m3u_clean (track : normalized) : Prop :=
  good_path (m3u_location track) ∧
  ∀ artists, m3u_artists track = Some artists →
             good_metadata (m3u_metadata artists (m3u_name track)).

(** The calls [call limit 0], [call limit limit], [call limit (2 * limit)],
    ... for [n] pages. *)
Definition offset_calls {R} (call : nat → nat → R) (limit n : nat) : list R :=
  (λ k, call limit (k * limit)%nat) <$> seq 0 n.

(** The pages that the service hands out, one after the other: page number
    [k] is the answer to the call at offset [k * limit] after the calls for
    the pages before it; every page but the last names a next page. *)
Definition serves {R P} (answer : list R → nat → nat → option P)
  (next : P → option text) (call : nat → nat → R) (log0 : list R)
  (limit : nat) (pages : list P) : Prop :=
  pages ≠ [] ∧
  ∀ k p, pages !! k = Some p →
    answer (log0 ++ offset_calls call limit k) limit (k * limit)%nat = Some p ∧
    truthy_text (next p) = negb (bool_decide (S k = length pages)).

(** *** Concrete inputs *)

Definition demo_playlists : list playlist :=
  [Playlist (txt "p1") (Some (txt "Road Trip"));
   Playlist (txt "p2") (Some (txt "Chill"));
   Playlist (txt "p3") (Some (txt "chill"))].

(** 'road trip' names the first playlist; 'Chill' is ambiguous. *)
Definition demo_config : config :=
  Config (txt "all") [] [EntryStr (txt " road trip "); EntryStr (txt "Chill")]
    (Some (txt "M3U")).

Definition demo_normalized : list normalized :=
  [Normalized 0 (Some (txt "4uLU6hMCjMI75M1A2tKUQC"))
     (Some (txt "spotify:track:4uLU6hMCjMI75M1A2tKUQC")) (Some (txt "Song"))
     [NamedRef None (Some (txt "A")); NamedRef None (Some (txt "B"))]
     None (Some 215999) false
     (Some (txt "https://open.spotify.com/track/4uLU6hMCjMI75M1A2tKUQC"))
     None None None true;
   Normalized 1 None None (Some (txt "Unavailable Track")) [] None None false
     None None None None false].

(** A library whose playlists come in two pages, and whose liked songs
    come in the pages [two_pages]. *)
Definition demo_playlist_pages : list playlist_page :=
  [PlaylistPage [Playlist (txt "p1") (Some (txt "Road Trip"));
                 Playlist (txt "p2") (Some (txt "Chill"))]
     (Some (txt "https://api.spotify.com/v1/me/playlists?offset=50&limit=50"));
   PlaylistPage [Playlist (txt "p3") (Some (txt "chill"))] None].

Definition demo_library : library :=
  Library (λ log _ _, demo_playlist_pages !! length log)
    (λ log _ _, two_pages !! length log).

(** [int(duration_ms / 1000)] on the durations of the demo: below 2^53 the
    float quotient truncates to the integer quotient. *)
Definition demo_int_div_1000 (duration_ms : Z) : option Z :=
  Some (Z.quot duration_ms 1000).

Definition demo_backup_m3u : text := txt "#EXTM3U
#EXTINF:215,A, B - Song
https://open.spotify.com/track/4uLU6hMCjMI75M1A2tKUQC
#EXTINF:-1,Unavailable Track
Unavailable Track
".
(** * Verification *)

(** ** Python strings: stripping, searching, integers *)

Section strings.
Implicit Types (s t : text) (c : ascii) (sp : ascii → bool).

Lemma startswith_spec (p s : text) :
  startswith p s = true ↔ ∃ rest, s = p ++ rest.
Proof.
  revert s. induction p as [|a p IH]; intros s; simpl.
  - split; [by exists s|done].
  - destruct s as [|b s]; simpl.
    + split; [done|]. by intros (rest & ?).
    + rewrite andb_true_iff, bool_decide_eq_true, IH. split.
      * intros [-> (rest & ->)]. by exists rest.
      * intros (rest & [= -> ->]). split; [done|]. by exists rest.
Qed.

Lemma find_spec (sep s : text) i :
  find sep s = Some i → s = take i s ++ sep ++ drop (i + length sep) s.
Proof.
  revert i. induction s as [|c s IH]; intros i; simpl.
  - destruct (startswith sep []) eqn:Hsw; [|done].
    intros [= <-]. apply startswith_spec in Hsw as (rest & Hrest).
    symmetry in Hrest. apply app_eq_nil in Hrest as [-> ->]. done.
  - destruct (startswith sep (c :: s)) eqn:Hsw.
    + intros [= <-]. apply startswith_spec in Hsw as (rest & ->).
      simpl. by rewrite drop_app_length.
    + destruct (find sep s) as [j|]; [|done]. simpl. intros [= <-].
      simpl. f_equal. by apply IH.
Qed.

Lemma split1_two (sep s a b : text) :
  split1 sep s = [a; b] ↔
  ∃ i, find sep s = Some i ∧ a = take i s ∧ b = drop (i + length sep) s.
Proof.
  unfold split1. destruct (find sep s) as [i|]; split.
  - intros [= <- <-]. by exists i.
  - intros (j & [= <-] & -> & ->). done.
  - done.
  - by intros (j & ? & _).
Qed.

Lemma lstrip_with_no_lead sp s : no_lead sp (lstrip_with sp s).
Proof.
  induction s as [|c s IH]; simpl; [done|].
  destruct (sp c) eqn:Hc; [done|]. by simpl.
Qed.

Lemma lstrip_with_id sp s : no_lead sp s → lstrip_with sp s = s.
Proof. destruct s as [|c s]; simpl; [done|]. by intros ->. Qed.

Lemma lstrip_with_elem sp s c : c ∈ lstrip_with sp s → c ∈ s.
Proof.
  induction s as [|a s IH]; simpl; [done|].
  destruct (sp a); [|done]. intros ?%IH. by right.
Qed.

Lemma lstrip_with_snoc sp s c :
  sp c = true →
  lstrip_with sp (s ++ [c])
  = match lstrip_with sp s with [] => [] | t => t ++ [c] end.
Proof.
  intros Hc. induction s as [|a s IH]; simpl.
  - by rewrite Hc.
  - destruct (sp a); [done|]. done.
Qed.

Lemma rstrip_with_no_trail sp s : no_trail sp (rstrip_with sp s).
Proof.
  unfold no_trail, rstrip_with. rewrite reverse_involutive.
  apply lstrip_with_no_lead.
Qed.

Lemma rstrip_with_id sp s : no_trail sp s → rstrip_with sp s = s.
Proof.
  unfold no_trail, rstrip_with. intros H.
  by rewrite lstrip_with_id, reverse_involutive.
Qed.

Lemma rstrip_with_elem sp s c : c ∈ rstrip_with sp s → c ∈ s.
Proof.
  unfold rstrip_with. rewrite elem_of_reverse. intros ?%lstrip_with_elem.
  by apply elem_of_reverse.
Qed.

Lemma rstrip_with_snoc sp s c :
  sp c = true → rstrip_with sp (s ++ [c]) = rstrip_with sp s.
Proof.
  intros Hc. unfold rstrip_with. rewrite reverse_snoc. simpl. by rewrite Hc.
Qed.

Lemma rstrip_with_cons_no_lead sp c s :
  sp c = false → no_lead sp (rstrip_with sp (c :: s)).
Proof.
  intros Hc. unfold rstrip_with. rewrite reverse_cons.
  induction (reverse s) as [|a r IH]; simpl.
  - by rewrite Hc.
  - destruct (sp a); [done|]. rewrite reverse_cons, reverse_snoc. done.
Qed.

Lemma strip_with_elem sp s c : c ∈ strip_with sp s → c ∈ s.
Proof.
  unfold strip_with. by intros ?%rstrip_with_elem%lstrip_with_elem.
Qed.

Lemma strip_with_no_trail sp s : no_trail sp (strip_with sp s).
Proof. apply rstrip_with_no_trail. Qed.

Lemma strip_with_no_lead sp s : no_lead sp (strip_with sp s).
Proof.
  unfold strip_with. pose proof (lstrip_with_no_lead sp s) as H.
  destruct (lstrip_with sp s) as [|c t]; [done|].
  by apply rstrip_with_cons_no_lead.
Qed.

Lemma strip_with_id sp s : no_lead sp s → no_trail sp s → strip_with sp s = s.
Proof.
  intros Hl Ht. unfold strip_with. by rewrite lstrip_with_id, rstrip_with_id.
Qed.

(** A line terminator after the text does not change what [strip] yields. *)
Lemma strip_with_snoc sp s c :
  sp c = true → strip_with sp (s ++ [c]) = strip_with sp s.
Proof.
  intros Hc. unfold strip_with. rewrite lstrip_with_snoc by done.
  destruct (lstrip_with sp s) as [|a t] eqn:Hs; [done|].
  by rewrite rstrip_with_snoc.
Qed.

Lemma no_trail_snoc sp s c : sp c = false → no_trail sp (s ++ [c]).
Proof. intros Hc. unfold no_trail. by rewrite reverse_snoc. Qed.

Lemma no_trail_app sp s t : t ≠ [] → no_trail sp t → no_trail sp (s ++ t).
Proof.
  unfold no_trail. rewrite reverse_app. intros Hne.
  destruct (reverse t) as [|c r] eqn:Hr; [|done].
  apply (f_equal reverse) in Hr. by rewrite reverse_involutive in Hr.
Qed.

Lemma no_trail_drop sp s n : no_trail sp s → no_trail sp (drop n s).
Proof.
  intros Hs. destruct (decide (drop n s = [])) as [->|Hne]; [done|].
  rewrite <- (take_drop n s) in Hs. unfold no_trail in *.
  rewrite reverse_app in Hs.
  destruct (reverse (drop n s)) as [|c r] eqn:Hr; [|done].
  apply (f_equal reverse) in Hr. by rewrite reverse_involutive in Hr.
Qed.

Lemma no_trail_Forall sp s : Forall (λ c, sp c = false) s → no_trail sp s.
Proof.
  intros Hall. unfold no_trail.
  apply Forall_reverse in Hall. by destruct Hall.
Qed.

Lemma no_lead_Forall sp s : Forall (λ c, sp c = false) s → no_lead sp s.
Proof. by destruct 1. Qed.

Lemma isspace_LF : isspace LF = true.
Proof. reflexivity. Qed.

Lemma startswith_app (p rest : text) : startswith p (p ++ rest) = true.
Proof. apply startswith_spec. by exists rest. Qed.

Lemma startswith_hash_prefix (p s : text) c :
  startswith [c] s = false → startswith (c :: p) s = false.
Proof.
  destruct s as [|a s]; simpl; [done|].
  rewrite andb_true_r. by intros ->.
Qed.

(** The first occurrence of a character that the text before it lacks. *)
Lemma find_char_app c (a b : text) :
  c ∉ a → find [c] (a ++ c :: b) = Some (length a).
Proof.
  induction a as [|x a IH]; intros Hnotin; simpl.
  - by rewrite bool_decide_eq_true_2.
  - rewrite bool_decide_eq_false_2 by set_solver. simpl.
    rewrite IH by set_solver. done.
Qed.

Lemma find_char_None c (a : text) : c ∉ a → find [c] a = None.
Proof.
  induction a as [|x a IH]; intros Hnotin; simpl; [done|].
  rewrite bool_decide_eq_false_2 by set_solver. simpl.
  by rewrite IH by set_solver.
Qed.
End strings.

Section integers.
Implicit Types (d : uint) (n : Z) (c : ascii).

Lemma int_char_facts c :
  int_char c = true →
  c ≠ ","%char ∧ c ≠ LF ∧ c ≠ CR ∧ c ≠ "+"%char ∧ c ≠ "_"%char ∧
  isspace c = false ∧ int_isspace c = false.
Proof.
  destruct c as [[] [] [] [] [] [] [] []]; vm_compute; intros H;
    try discriminate H; repeat split; congruence.
Qed.

Lemma text_of_uint_chars d : Forall (λ c, int_char c = true) (text_of_uint d).
Proof. induction d; simpl; constructor; done. Qed.

Lemma py_str_chars n : Forall (λ c, int_char c = true) (py_str n).
Proof.
  unfold py_str. destruct (Z.to_int n) as [d|d].
  - apply text_of_uint_chars.
  - constructor; [done|apply text_of_uint_chars].
Qed.

Lemma parse_digits_text_of_uint d (prev : bool) :
  d ≠ Nil ∨ prev = true →
  parse_digits prev (text_of_uint d) = Some d.
Proof.
  revert prev. induction d; intros prev Hd; simpl;
    try (rewrite IHd by (by right); done).
  by destruct Hd as [?| ->].
Qed.

Lemma to_int_nonnil n :
  match Z.to_int n with Pos d | Neg d => d ≠ Nil end.
Proof.
  destruct n as [|p|p]; simpl; [done|..];
    apply DecimalPos.Unsigned.to_uint_nonnil.
Qed.

(** [int(str(n)) == n] *)
Lemma py_int_py_str n : py_int (py_str n) = Some n.
Proof.
  unfold py_int.
  assert (strip_with int_isspace (py_str n) = py_str n) as ->.
  { pose proof (py_str_chars n) as Hall.
    assert (Forall (λ c, int_isspace c = false) (py_str n)) as Hns.
    { eapply Forall_impl; [done|]. intros c Hc. by apply int_char_facts. }
    apply strip_with_id; [by apply no_lead_Forall|by apply no_trail_Forall]. }
  pose proof (to_int_nonnil n) as Hnn. pose proof (DecimalZ.of_to n) as Hof.
  unfold py_str. destruct (Z.to_int n) as [d|d].
  - destruct (text_of_uint d) as [|c rest] eqn:Hd.
    { by destruct d. }
    pose proof (text_of_uint_chars d) as Hall. rewrite Hd in Hall.
    apply Forall_cons in Hall as [Hc _].
    assert (c ≠ "-"%char) as Hminus.
    { intros ->. destruct d; simpl in Hd; congruence. }
    apply int_char_facts in Hc as (_ & _ & _ & Hplus & _).
    rewrite !bool_decide_eq_false_2 by done.
    rewrite <- Hd, parse_digits_text_of_uint by (by left). simpl.
    f_equal. exact Hof.
  - rewrite bool_decide_eq_true_2 by done.
    rewrite parse_digits_text_of_uint by (by left). simpl.
    f_equal. exact Hof.
Qed.
End integers.

(** ** Lines of a file *)

Section lines.
Implicit Types (s l body : text) (c : ascii).

Lemma universal_newlines_no_CR (prev_cr : bool) s :
  CR ∉ universal_newlines prev_cr s.
Proof.
  revert prev_cr. induction s as [|c s IH]; intros prev_cr; simpl.
  - apply not_elem_of_nil.
  - case_bool_decide as Hcr.
    + apply not_elem_of_cons. split; [done|apply IH].
    + case_bool_decide as Hlf.
      * destruct prev_cr; [apply IH|].
        apply not_elem_of_cons. split; [done|apply IH].
      * apply not_elem_of_cons. split; [done|apply IH].
Qed.

Lemma universal_newlines_id s : CR ∉ s → universal_newlines false s = s.
Proof.
  induction s as [|c s IH]; intros Hcr; simpl; [done|].
  apply not_elem_of_cons in Hcr as [Hc Hs].
  rewrite bool_decide_eq_false_2 by done.
  case_bool_decide as Hlf; [subst c|]; by rewrite IH.
Qed.

Lemma iter_lines_app_LF l rest :
  LF ∉ l → iter_lines (l ++ LF :: rest) = (l ++ [LF]) :: iter_lines rest.
Proof.
  induction l as [|c l IH]; intros Hlf; simpl.
  - done.
  - apply not_elem_of_cons in Hlf as [Hc Hl].
    rewrite bool_decide_eq_false_2 by done. by rewrite IH.
Qed.

Lemma iter_lines_body s l :
  l ∈ iter_lines s →
  ∃ body, (l = body ∨ l = body ++ [LF]) ∧ (LF ∉ body) ∧
          (∀ c, c ∈ body → c ∈ s).
Proof.
  revert l. induction s as [|c s IH]; intros l; simpl.
  - by intros ?%elem_of_nil.
  - case_bool_decide as Hlf.
    + intros [->|Hl]%elem_of_cons.
      * exists []. split; [by right|]. split; [apply not_elem_of_nil|].
        by intros ? ?%elem_of_nil.
      * destruct (IH l Hl) as (body & Hbody & Hno & Hsub).
        exists body. split; [done|]. split; [done|].
        intros a Ha. right. by apply Hsub.
    + destruct (iter_lines s) as [|l' ls] eqn:Hs.
      * intros ->%list_elem_of_singleton. exists [c].
        split; [by left|]. split; [by intros ?%list_elem_of_singleton|].
        intros a ->%list_elem_of_singleton. by left.
      * intros [->|Hl]%elem_of_cons.
        -- destruct (IH l') as (body & Hbody & Hno & Hsub); [by left|].
           exists (c :: body). split; [|split].
           ++ destruct Hbody as [->| ->]; [by left|by right].
           ++ apply not_elem_of_cons. by split.
           ++ intros a [->|Ha]%elem_of_cons; [by left|]. right. by apply Hsub.
        -- destruct (IH l) as (body & Hbody & Hno & Hsub); [by right|].
           exists body. split; [done|]. split; [done|].
           intros a Ha. right. by apply Hsub.
Qed.

(** What [line.strip()] yields for a line of the file holds no line
    terminator. *)
Lemma file_lines_strip (content raw : text) :
  raw ∈ file_lines content → no_newline (strip raw).
Proof.
  unfold file_lines. intros (body & Hbody & Hlf & Hsub)%iter_lines_body.
  assert (strip raw = strip body) as ->.
  { destruct Hbody as [->| ->]; [done|].
    apply strip_with_snoc, isspace_LF. }
  apply Forall_forall. intros c Hc%strip_with_elem. split.
  - by intros ->.
  - intros ->. apply Hsub in Hc.
    by apply (universal_newlines_no_CR false content).
Qed.
End lines.

(** ** The parser: [parse_m3u] *)

Section parser.
Implicit Types (st : parser_state) (raw line p md : text) (s : song).

Lemma song_of_path p' p d md :
  <["path" := VStr p']> (song_of p d md) = song_of p' d md.
Proof. unfold song_of, mk_song. by rewrite insert_insert_eq. Qed.

Lemma song_of_default p : mk_song p [] [] 0 [] = song_of p 0 [].
Proof. done. Qed.

Lemma no_newline_drop n line : no_newline line → no_newline (drop n line).
Proof. apply Forall_drop. Qed.

Lemma parse_extinf_shape line s :
  no_trail isspace line → no_newline line →
  parse_extinf line = Some s →
  ∃ d md, s = song_of [] d md ∧ good_metadata md.
Proof.
  intros Htrail Hnl. unfold parse_extinf, split1.
  destruct (find (txt ",") (drop 8 line)) as [i|]; simpl.
  - destruct (py_int (take i (drop 8 line))) as [d|]; [|done]. simpl.
    set (md := drop (i + 1) (drop 8 line)).
    intros Hs. exists d, md. split.
    + unfold song_of. destruct (artist_title md). by inversion Hs.
    + split; [by apply no_trail_drop, no_trail_drop|].
      by apply no_newline_drop, no_newline_drop.
  - destruct (py_int (drop 8 line)) as [d|]; [|done]. simpl.
    intros [= <-]. exists d, []. split; [done|]. split; [done|constructor].
Qed.

Lemma parse_line_inv st raw :
  no_newline (strip raw) → parser_inv st → parser_inv (parse_line st raw).
Proof.
  intros Hnl [Hsongs Hcur]. unfold parse_line.
  pose proof (strip_with_no_lead isspace raw) as Hlead.
  pose proof (strip_with_no_trail isspace raw) as Htrail.
  fold (strip raw) in Hlead, Htrail. set (line := strip raw) in *.
  case_bool_decide as Hempty; [done|].
  case_bool_decide as Hheader; [done|].
  destruct (startswith (txt "#EXTINF:") line) eqn:Hextinf.
  { split; [done|]. simpl.
    destruct (parse_extinf line) as [s|] eqn:Hs; [|done].
    by eapply parse_extinf_shape. }
  destruct (startswith (txt "#") line) eqn:Hhash; simpl; [done|].
  assert (good_path line) as Hpath by done.
  destruct (current_song st) as [cur|] eqn:Hc; simpl.
  - split; [|done]. simpl. apply Forall_app. split; [done|].
    constructor; [|done]. destruct Hcur as (d & md & -> & Hmd).
    rewrite song_of_path. by exists line, d, md.
  - split; [|done]. simpl. apply Forall_app. split; [done|].
    constructor; [|done]. exists line, 0, []. split; [done|].
    split; [done|]. split; [done|constructor].
Qed.

Lemma parse_lines_inv (lines : list text) st :
  Forall (λ raw, no_newline (strip raw)) lines →
  parser_inv st → parser_inv (foldl parse_line st lines).
Proof.
  intros Hlines. revert st.
  induction Hlines as [|raw lines Hraw _ IH]; intros st Hst; [done|].
  simpl. by apply IH, parse_line_inv.
Qed.

(** Every record that [parse_m3u] returns has the shape [song_of]. *)
Lemma parse_m3u_parsed (content : text) :
  Forall parsed_song (parse_m3u content).
Proof.
  unfold parse_m3u. apply parse_lines_inv.
  - apply Forall_forall. intros raw Hraw. by eapply file_lines_strip.
  - split; [constructor|done].
Qed.

Lemma song_of_dom p d md : dom (song_of p d md) = song_keys.
Proof.
  unfold song_of, mk_song, song_keys. rewrite !dom_insert_L, dom_empty_L.
  set_solver.
Qed.
End parser.


Example parse_m3u_path_only :
  parse_m3u (txt "song.mp3") = [mk_song (txt "song.mp3") [] [] 0 []].
Proof. vm_compute. reflexivity. Qed.

Example parse_example :
  parse_m3u (txt "#EXTM3U
#EXTINF:12,Artist - Title
a.mp3
b.mp3
") = [mk_song (txt "a.mp3") (txt "Title") (txt "Artist") 12 (txt "Artist - Title");
      mk_song (txt "b.mp3") [] [] 0 []].
Proof. vm_compute. reflexivity. Qed.

(** ** The writer and the round trip *)

Section roundtrip.
Implicit Types (st : parser_state) (p md line : text) (d : Z) (s : song).

Lemma mk_song_lookup p title artist d md :
  mk_song p title artist d md !! "path" = Some (VStr p) ∧
  mk_song p title artist d md !! "duration" = Some (VInt d) ∧
  mk_song p title artist d md !! "metadata" = Some (VStr md).
Proof. unfold mk_song. repeat split; by simplify_map_eq. Qed.

Lemma write_song_song_of p d md :
  write_song (song_of p d md) = Some (concat (song_lines p d md)).
Proof.
  unfold write_song, song_lines, song_of.
  destruct (mk_song_lookup p (artist_title md).2 (artist_title md).1 d md)
    as (-> & -> & ->). simpl.
  case_bool_decide; simpl; rewrite app_nil_r; [done|].
  unfold extinf_text. f_equal. simpl.
  repeat (rewrite <- (assoc_L (++)); simpl). done.
Qed.

Lemma no_newline_int_chars (t : text) :
  Forall (λ c, int_char c = true) t → no_newline t.
Proof.
  intros Hall. eapply Forall_impl; [done|].
  intros c Hc. apply int_char_facts in Hc. by destruct Hc as (_ & ? & ? & _).
Qed.

Lemma extinf_text_no_newline d md :
  no_newline md → no_newline (extinf_text d md).
Proof.
  intros Hmd. unfold extinf_text, no_newline. rewrite !Forall_app.
  split; [|split; [|split]]; [|by apply no_newline_int_chars, py_str_chars| |done].
  - repeat constructor; done.
  - repeat constructor; done.
Qed.

Lemma strip_written_line line :
  line ≠ [] → no_lead isspace line → no_trail isspace line →
  strip (line ++ [LF]) = line.
Proof.
  intros Hne Hlead Htrail. unfold strip.
  rewrite strip_with_snoc by apply isspace_LF. by apply strip_with_id.
Qed.

Lemma parse_extinf_extinf_text d md :
  parse_extinf (extinf_text d md) = Some (song_of [] d md).
Proof.
  unfold parse_extinf, extinf_text.
  change (drop 8 (txt "#EXTINF:" ++ py_str d ++ txt "," ++ md))
    with (py_str d ++ ","%char :: md).
  unfold split1. change (txt ",") with [","%char].
  rewrite find_char_app.
  2:{ intros Hin. pose proof (py_str_chars d) as Hall.
      rewrite Forall_forall in Hall. apply Hall, int_char_facts in Hin.
      by destruct Hin as [? _]. }
  simpl. rewrite take_app_length. rewrite py_int_py_str. simpl.
  replace (length (py_str d) + 1)%nat with (S (length (py_str d))) by lia.
  change (py_str d ++ ","%char :: md) with (py_str d ++ [","%char] ++ md).
  rewrite (assoc_L (++)).
  replace (S (length (py_str d))) with (length (py_str d ++ [","%char]))
    by (rewrite length_app; simpl; lia).
  rewrite drop_app_length. unfold song_of. by destruct (artist_title md).
Qed.

Lemma parse_line_extinf st d md :
  md ≠ [] → good_metadata md →
  parse_line st (extinf_text d md ++ [LF])
  = ParserState (songs st) (Some (song_of [] d md)).
Proof.
  intros Hne [Htrail Hnl]. unfold parse_line.
  rewrite strip_written_line.
  - rewrite bool_decide_eq_false_2 by done.
    rewrite bool_decide_eq_false_2 by done.
    unfold extinf_text at 1. rewrite startswith_app.
    by rewrite parse_extinf_extinf_text.
  - done.
  - done.
  - unfold extinf_text. rewrite !(assoc_L (++)). by apply no_trail_app.
Qed.

Lemma parse_line_path st p :
  good_path p →
  parse_line st (p ++ [LF])
  = ParserState
      (songs st ++ [match current_song st with
                    | Some cur => <["path" := VStr p]> cur
                    | None => mk_song p [] [] 0 []
                    end]) None.
Proof.
  intros (Hne & Hlead & Htrail & Hhash & Hnl). unfold parse_line.
  rewrite strip_written_line by done.
  rewrite bool_decide_eq_false_2 by done.
  assert (p ≠ txt "#EXTM3U") as Hheader.
  { intros Heq. by rewrite Heq in Hhash. }
  rewrite bool_decide_eq_false_2 by done.
  rewrite (startswith_hash_prefix (txt "EXTINF:") _ "#"%char) by done.
  rewrite Hhash. by destruct (current_song st).
Qed.

Lemma song_lines_written p d md :
  good_path p → good_metadata md → Forall written_line (song_lines p d md).
Proof.
  intros (_ & _ & _ & _ & Hp) [_ Hmd]. unfold song_lines.
  apply Forall_app. split.
  - case_bool_decide; constructor; [|done].
    eexists. split; [done|]. by apply extinf_text_no_newline.
  - constructor; [|done]. by eexists.
Qed.

Lemma parse_song_lines p d md (acc : list song) (rest : list text) :
  good_path p → good_metadata md → (md = [] → d = 0) →
  foldl parse_line (ParserState acc None) (song_lines p d md ++ rest)
  = foldl parse_line (ParserState (acc ++ [song_of p d md]) None) rest.
Proof.
  intros Hp Hmd Hd. unfold song_lines.
  case_bool_decide as Hempty; cbn [app foldl].
  - rewrite parse_line_path by done. cbn [songs current_song]. subst md.
    by rewrite Hd by done.
  - rewrite parse_line_extinf by done. rewrite parse_line_path by done.
    cbn [songs current_song]. by rewrite song_of_path.
Qed.

Lemma duration_needs_metadata_song_of p d md :
  duration_needs_metadata (song_of p d md) → md = [] → d = 0.
Proof.
  unfold duration_needs_metadata, song_of, mk_song. intros H ->.
  specialize (H eq_refl). by inversion H.
Qed.

Lemma write_songs_lines (batch : list song) :
  Forall parsed_song batch → Forall duration_needs_metadata batch →
  ∃ lines,
    write_songs batch = Some (concat lines) ∧ Forall written_line lines ∧
    ∀ acc rest,
      foldl parse_line (ParserState acc None) (lines ++ rest)
      = foldl parse_line (ParserState (acc ++ batch) None) rest.
Proof.
  induction 1 as [|s batch (p & d & md & -> & Hp & Hmd) _ IH];
    intros Hdur.
  - exists []. split; [done|]. split; [done|].
    intros acc rest. by rewrite app_nil_r.
  - apply Forall_cons in Hdur as [Hd Hdur].
    destruct (IH Hdur) as (lines & Hwrite & Hlines & Hparse).
    exists (song_lines p d md ++ lines). split; [|split].
    + simpl. rewrite write_song_song_of, Hwrite. simpl.
      by rewrite concat_app.
    + apply Forall_app. split; [by apply song_lines_written|done].
    + intros acc rest. rewrite <- (assoc_L (++)).
      rewrite parse_song_lines; [|done|done|].
      * rewrite Hparse. by rewrite <- (assoc_L (++)).
      * by apply (duration_needs_metadata_song_of p).
Qed.

Lemma file_lines_written (lines : list text) :
  Forall written_line lines → file_lines (concat lines) = lines.
Proof.
  intros Hlines. unfold file_lines. rewrite universal_newlines_id.
  - induction Hlines as [|l lines (body & -> & Hbody) _ IH]; [done|].
    simpl. rewrite <- (assoc_L (++)). simpl.
    rewrite iter_lines_app_LF; [by rewrite IH|].
    intros Hin. unfold no_newline in Hbody. rewrite Forall_forall in Hbody.
    by destruct (Hbody _ Hin).
  - induction Hlines as [|l lines (body & -> & Hbody) _ IH]; simpl.
    + apply not_elem_of_nil.
    + rewrite !not_elem_of_app. split; [split|done].
      * intros Hin. unfold no_newline in Hbody. rewrite Forall_forall in Hbody.
        by destruct (Hbody _ Hin).
      * by intros ?%list_elem_of_singleton.
Qed.
End roundtrip.

(** C1, as amended.  For every list of track records that [parse_m3u]
    produces from an input file and in which every record with an empty
    metadata string has duration 0, the playlist-file writer produces a text
    whose parse is the identical list of records. *)
Theorem parse_write_roundtrip (content : text) :
  Forall duration_needs_metadata (parse_m3u content) →
  ∃ written,
    write_batch (parse_m3u content) = Some written ∧
    parse_m3u written = parse_m3u content.
Proof.
  intros Hdur.
  destruct (write_songs_lines (parse_m3u content) (parse_m3u_parsed content)
              Hdur) as (lines & Hwrite & Hlines & Hparse).
  exists (concat ((txt "#EXTM3U" ++ [LF]) :: lines)). split.
  - unfold write_batch. rewrite Hwrite. simpl. done.
  - unfold parse_m3u at 1. rewrite file_lines_written.
    + cbn [foldl].
      assert (parse_line (ParserState [] None) (txt "#EXTM3U" ++ [LF])
              = ParserState [] None) as -> by (vm_compute; reflexivity).
      rewrite <- (app_nil_r lines), Hparse. done.
    + constructor; [|done]. eexists. split; [done|].
      repeat constructor; done.
Qed.

Lemma demo_playlist_parse :
  parse_m3u demo_playlist
  = [mk_song (txt "a.mp3") (txt "Title") (txt "Artist") 12
       (txt "Artist - Title");
     mk_song (txt "https://open.spotify.com/track/4uLU6hMCjMI75M1A2tKUQC?si=1")
       [] [] 0 [];
     mk_song (txt "unknown.mp3") [] [] 0 []].
Proof. vm_compute. reflexivity. Qed.

Lemma parse_write_roundtrip_witness :
  ∃ written,
    write_batch (parse_m3u demo_playlist) = Some written ∧
    parse_m3u written = parse_m3u demo_playlist.
Proof.
  apply (parse_write_roundtrip demo_playlist).
  rewrite demo_playlist_parse.
  repeat constructor; unfold duration_needs_metadata; vm_compute; congruence.
Defined.

(** C1 as stated fails: a record parsed from an [#EXTINF:] line that holds a
    duration and no metadata string is written without that line, and is
    parsed back with duration 0. *)
Lemma parse_write_roundtrip_fails :
  parse_m3u duration_only_playlist = [mk_song (txt "a.mp3") [] [] 5 []] ∧
  ∃ written,
    write_batch (parse_m3u duration_only_playlist) = Some written ∧
    parse_m3u written = [mk_song (txt "a.mp3") [] [] 0 []] ∧
    parse_m3u written ≠ parse_m3u duration_only_playlist.
Proof.
  split; [vm_compute; reflexivity|].
  eexists. split; [vm_compute; reflexivity|].
  split; [vm_compute; reflexivity|].
  intros H.
  apply (f_equal (λ l : list song, l !! 0%nat ≫= (.!! "duration"))) in H.
  vm_compute in H. discriminate H.
Qed.

(** ** Batches: [split_into_batches] *)

Section batches.
Context {A : Type}.
Implicit Types (l : list A) (k m j : nat).

Lemma slice_take_drop l lo k : slice l lo (lo + k) = take k (drop lo l).
Proof. unfold slice. by rewrite take_drop_commute. Qed.

Lemma range_length_bounds n k :
  (0 < k)%nat → (0 < n)%nat →
  ((range_length n k - 1) * k < n ∧ n ≤ range_length n k * k)%nat.
Proof.
  intros Hk Hn. unfold range_length.
  rewrite bool_decide_eq_false_2 by lia.
  pose proof (Nat.div_mod_eq (n - 1) k) as Hdiv.
  pose proof (Nat.mod_upper_bound (n - 1) k) as Hmod.
  split; nia.
Qed.

Lemma split_into_batches_unfold l (batch_size : Z) :
  1 ≤ batch_size →
  split_into_batches l batch_size =
  Some ((λ j, take (Z.to_nat batch_size) (drop (j * Z.to_nat batch_size) l))
          <$> seq 0 (range_length (length l) (Z.to_nat batch_size))).
Proof.
  intros Hk. unfold split_into_batches, range_from_zero.
  rewrite bool_decide_eq_false_2 by lia.
  rewrite bool_decide_eq_false_2 by lia.
  f_equal. rewrite <- list_fmap_compose. apply list_fmap_ext.
  intros i j _. simpl. apply slice_take_drop.
Qed.

Lemma concat_chunks k m l :
  (length l ≤ m * k)%nat →
  concat ((λ j, take k (drop (j * k) l)) <$> seq 0 m) = l.
Proof.
  revert l. induction m as [|m IH]; intros l Hlen.
  - simpl in *. by destruct l; [|simpl in Hlen; lia].
  - simpl seq. rewrite fmap_cons. simpl concat.
    rewrite <- fmap_S_seq, <- list_fmap_compose.
    simpl drop. transitivity (take k l ++ drop k l); [|apply take_drop].
    f_equal. etrans; [|apply (IH (drop k l)); rewrite length_drop; lia].
    f_equal. apply list_fmap_ext. intros i j _. simpl.
    rewrite drop_drop. f_equal.
Qed.
End batches.

(** C3. For every list of songs and every batch size of at least one,
    [split_into_batches] returns the consecutive slices of the input in
    order: batch number [i] is the slice of [batch_size] elements that starts
    at [i * batch_size]; every batch but the last has exactly [batch_size]
    elements, the last one has between 1 and [batch_size]; the batches
    concatenate to the input; the empty list yields no batch. *)
Theorem split_into_batches_spec {A} (songs : list A) (batch_size : Z) :
  1 ≤ batch_size →
  ∃ batches,
    split_into_batches songs batch_size = Some batches ∧
    concat batches = songs ∧
    (∀ i batch, batches !! i = Some batch →
       batch = take (Z.to_nat batch_size)
                 (drop (i * Z.to_nat batch_size) songs)) ∧
    (∀ i batch, batches !! i = Some batch → (S i < length batches)%nat →
       length batch = Z.to_nat batch_size) ∧
    (∀ batch, last batches = Some batch →
       (1 ≤ length batch ≤ Z.to_nat batch_size)%nat) ∧
    (songs = [] → batches = []).
Proof.
  intros Hk. set (k := Z.to_nat batch_size).
  assert (0 < k)%nat as Hk' by lia.
  eexists. split; [by apply split_into_batches_unfold|]. fold k.
  set (m := range_length (length songs) k).
  assert (∀ i batch,
    ((λ j, take k (drop (j * k) songs)) <$> seq 0 m) !! i = Some batch →
    (i < m)%nat ∧ batch = take k (drop (i * k) songs)) as Hlookup.
  { intros i batch Hi. rewrite list_lookup_fmap in Hi.
    destruct (seq 0 m !! i) as [j|] eqn:Hj; [|done].
    apply lookup_seq in Hj as [-> ?]. simpl in Hi. by inversion Hi. }
  split; [|split; [|split; [|split]]].
  - apply concat_chunks. subst m. destruct (decide (length songs = 0%nat)) as [->|].
    + lia.
    + apply range_length_bounds; lia.
  - intros i batch Hi. by apply Hlookup in Hi as [_ ->].
  - intros i batch Hi Hlt. apply Hlookup in Hi as [_ ->].
    rewrite length_fmap, length_seq in Hlt.
    destruct (decide (length songs = 0%nat)) as [Hz|Hnz].
    { subst m. unfold range_length in Hlt.
      rewrite bool_decide_eq_true_2 in Hlt by done. lia. }
    pose proof (range_length_bounds (length songs) k Hk' ltac:(lia)) as [Hlo _].
    fold m in Hlo. rewrite length_take, length_drop. nia.
  - intros batch Hlast. rewrite last_lookup in Hlast.
    rewrite length_fmap, length_seq in Hlast.
    destruct (decide (length songs = 0%nat)) as [Hz|Hnz].
    { subst m. unfold range_length in Hlast.
      rewrite bool_decide_eq_true_2 in Hlast by done. done. }
    pose proof (range_length_bounds (length songs) k Hk' ltac:(lia)) as [Hlo Hhi].
    fold m in Hlo, Hhi. apply Hlookup in Hlast as [Hm ->].
    rewrite length_take, length_drop.
    replace (pred m) with (m - 1)%nat in * by lia. nia.
  - intros ->. subst m. done.
Qed.

Lemma split_into_batches_spec_witness :
  ∃ batches,
    split_into_batches [1; 2; 3; 4; 5]%nat 2 = Some batches ∧
    concat batches = [1; 2; 3; 4; 5]%nat ∧
    (∀ i batch, batches !! i = Some batch →
       batch = take (Z.to_nat 2) (drop (i * Z.to_nat 2) [1; 2; 3; 4; 5]%nat)) ∧
    (∀ i batch, batches !! i = Some batch → (S i < length batches)%nat →
       length batch = Z.to_nat 2) ∧
    (∀ batch, last batches = Some batch →
       (1 ≤ length batch ≤ Z.to_nat 2)%nat) ∧
    ([1; 2; 3; 4; 5]%nat = [] → batches = []).
Proof. apply (split_into_batches_spec [1; 2; 3; 4; 5]%nat 2). lia. Defined.

Example split_into_batches_example :
  split_into_batches [1; 2; 3; 4; 5]%nat 2 = Some [[1; 2]; [3; 4]; [5]]%nat.
Proof. reflexivity. Qed.

(** The batches of 100 of the adder and of the deduplicator. *)
Lemma batches_of_100_unfold {A} (l : list A) :
  batches_of_100 l =
  (λ j, take 100 (drop (j * 100) l)) <$> seq 0 (range_length (length l) 100).
Proof.
  unfold batches_of_100. by rewrite split_into_batches_unfold by lia.
Qed.

Lemma batches_of_100_concat {A} (l : list A) :
  concat (batches_of_100 l) = l.
Proof.
  rewrite batches_of_100_unfold. apply concat_chunks.
  destruct (decide (length l = 0%nat)) as [->|]; [lia|].
  apply range_length_bounds; lia.
Qed.

Lemma batches_of_100_sizes {A} (l : list A) :
  Forall (λ batch, (1 ≤ length batch ≤ 100)%nat) (batches_of_100 l).
Proof.
  rewrite batches_of_100_unfold. apply Forall_fmap, Forall_forall.
  intros j [_ Hj]%elem_of_seq. simpl in *.
  destruct (decide (length l = 0%nat)) as [Hz|Hnz].
  { unfold range_length in Hj. rewrite bool_decide_eq_true_2 in Hj by done. lia. }
  pose proof (range_length_bounds (length l) 100 ltac:(lia) ltac:(lia))
    as [Hlo _].
  rewrite length_take, length_drop. lia.
Qed.

(** ** The remote track matcher: the first loop of [process_m3u_batch] *)



Lemma take_while_spec (p : ascii → bool) (s : text) :
  ∃ rest, s = take_while p s ++ rest ∧
          Forall (λ c, p c = true) (take_while p s) ∧
          match rest with c :: _ => p c = false | [] => True end.
Proof.
  induction s as [|c s (rest & Hs & Hall & Hrest)]; simpl.
  - by exists [].
  - destruct (p c) eqn:Hc.
    + exists rest. split; [simpl; by f_equal|]. split; [by constructor|done].
    + by exists (c :: s).
Qed.

(** The id that [extract_track_id_from_url] returns is a non-empty,
    maximal run of letters and digits that follows 'track/' in the URL. *)
Lemma extract_track_id_from_url_Some (url id : text) :
  extract_track_id_from_url url = Some id →
  ∃ before rest,
    url = before ++ txt "track/" ++ id ++ rest ∧ id ≠ [] ∧
    Forall (λ c, is_alnum c = true) id ∧
    match rest with c :: _ => is_alnum c = false | [] => True end.
Proof.
  induction url as [|c url IH]; [done|].
  cbn [extract_track_id_from_url].
  destruct (startswith (txt "track/") (c :: url)) eqn:Hsw.
  - apply startswith_spec in Hsw as (tail & Htail).
    rewrite Htail. change (drop 6 (txt "track/" ++ tail)) with tail.
    destruct (take_while_spec is_alnum tail) as (rest & Hsplit & Hall & Hrest).
    destruct (take_while is_alnum tail) as [|d run] eqn:Hrun.
    + intros (before & rest' & Hurl & H)%IH. exists (c :: before), rest'.
      split; [|done]. rewrite <- Htail, Hurl. done.
    + intros [= <-]. exists [], rest. split; [|done].
      rewrite Hsplit at 1. done.
  - intros (before & rest & -> & H)%IH. by exists (c :: before), rest.
Qed.

(** [extract_track_id_from_url] finds no id only when no 'track/' of the URL
    is followed by a letter or a digit. *)
Lemma extract_track_id_from_url_None (url : text) :
  extract_track_id_from_url url = None →
  ∀ before c rest, url = before ++ txt "track/" ++ c :: rest →
                   is_alnum c = false.
Proof.
  induction url as [|a url IH]; intros Hnone before c rest Heq.
  - by destruct before.
  - cbn [extract_track_id_from_url] in Hnone.
    destruct before as [|b before].
    + rewrite Heq in Hnone.
      change (startswith (txt "track/") ([] ++ txt "track/" ++ c :: rest))
        with true in Hnone.
      change (drop 6 ([] ++ txt "track/" ++ c :: rest)) with (c :: rest)
        in Hnone.
      simpl in Hnone. by destruct (is_alnum c).
    + injection Heq as -> ->. eapply IH; [|done].
      destruct (startswith _ _); [|done].
      by destruct (take_while _ _).
Qed.

(** ** Failure handling in [process_m3u_batch] *)

Lemma search_track_cases (sp : spotify) (st : batch_state) (track : song) :
  (∃ track_id log,
     search_track sp st track
     = BatchState (bs_count st) (bs_track_ids st ++ [track_id])
         (bs_failed_tracks st) log) ∨
  (∃ log,
     search_track sp st track
     = BatchState (bs_count st) (bs_track_ids st)
         (bs_failed_tracks st ++ [track]) log).
Proof.
  unfold search_track.
  destruct (extract_search_query_from_song track) as [[|c q]|];
    [right; by eexists|..|right; by eexists].
  destruct (sp_search sp (bs_log st) (c :: q)) as [[|track_id others]|];
    [right; by eexists|left; by eexists _, _|right; by eexists].
Qed.

(** When the URL parser raises on the path of a track, the exception leaves
    the loop: the tracks after it are not processed. *)
Lemma process_tracks_url_error (urlparse : url_parser) (sp : spotify)
  (rate_limit : Z) (track : song) (file_path : text)
  (before after : list song) :
  track !! "path" = Some (VStr file_path) →
  urlparse file_path = None →
  ∀ st, process_tracks urlparse sp rate_limit st (before ++ track :: after)
        = None.
Proof.
  intros Hpath Hparse. induction before as [|t before IH]; intros st; simpl.
  - unfold process_track. case_bool_decide; [done|].
    rewrite Hpath. simpl. unfold is_spotify_url. by rewrite Hparse.
  - destruct (process_track urlparse sp rate_limit st t); [apply IH|done].
Qed.

(** When the URL parser accepts the path of every track, every track ends
    either as one resolved identifier or in the list of failed tracks, and
    the loop runs to its end. *)
Lemma process_tracks_log_and_skip (urlparse : url_parser) (sp : spotify)
  (rate_limit : Z) (tracks : list song) :
  rate_limit ≠ 0 →
  Forall (λ track, ∃ file_path, track !! "path" = Some (VStr file_path) ∧
                                is_Some (urlparse file_path)) tracks →
  ∀ st, ∃ st' newly_failed,
    process_tracks urlparse sp rate_limit st tracks = Some st' ∧
    bs_failed_tracks st' = bs_failed_tracks st ++ newly_failed ∧
    sublist newly_failed tracks ∧
    (length (bs_track_ids st') + length newly_failed
     = length (bs_track_ids st) + length tracks)%nat.
Proof.
  intros Hrate. induction 1 as [|track tracks (p & Hp & [u Hu]) _ IH];
    intros st; simpl.
  - exists st, []. by rewrite app_nil_r.
  - assert (∃ st1,
      process_track urlparse sp rate_limit st track = Some st1 ∧
      ((∃ track_id, bs_track_ids st1 = bs_track_ids st ++ [track_id] ∧
                    bs_failed_tracks st1 = bs_failed_tracks st) ∨
       (bs_track_ids st1 = bs_track_ids st ∧
        bs_failed_tracks st1 = bs_failed_tracks st ++ [track])))
      as (st1 & -> & Hst1).
    { unfold process_track. rewrite bool_decide_eq_false_2 by done.
      rewrite Hp. simpl. unfold is_spotify_url. rewrite Hu. simpl.
      set (st0 := BatchState (bs_count st + 1) (bs_track_ids st)
                    (bs_failed_tracks st) (bs_log st)).
      assert (∃ st1, Some (search_track sp st0 track) = Some st1 ∧
        ((∃ track_id, bs_track_ids st1 = bs_track_ids st ++ [track_id] ∧
                      bs_failed_tracks st1 = bs_failed_tracks st) ∨
         (bs_track_ids st1 = bs_track_ids st ∧
          bs_failed_tracks st1 = bs_failed_tracks st ++ [track]))) as Hsearch.
      { eexists. split; [done|].
        destruct (search_track_cases sp st0 track)
          as [(track_id & log & ->)|(log & ->)]; simpl; [left|right]; eauto. }
      destruct (_ && _); [|done].
      destruct (extract_track_id_from_url p) as [track_id|]; [|done].
      eexists. split; [done|]. left. by eexists. }
    simpl. destruct (IH st1) as (st' & failed & -> & Hfailed & Hsub & Hlen).
    destruct Hst1 as [(track_id & Hids & Hf)|[Hids Hf]].
    + exists st', failed. split; [done|]. rewrite Hfailed, Hf.
      split; [done|]. split; [by apply sublist_cons|].
      rewrite Hlen, Hids, length_app. simpl. lia.
    + exists st', (track :: failed). split; [done|]. rewrite Hfailed, Hf.
      split; [by rewrite <- (assoc_L (++))|]. split; [by apply sublist_skip|].
      rewrite Hids in Hlen. simpl. lia.
Qed.

(** C8 fails on a playlist whose first path is a URL with an unmatched
    bracket: [urlparse] raises on that path, outside the inner [try], and
    [process_m3u_batch] returns nothing, although the playlist holds a
    second track that could be processed. *)
Theorem process_m3u_batch_url_error_escapes :
  parse_m3u bracket_playlist
  = [mk_song (txt "http://[") [] [] 0 [];
     mk_song (txt "a.mp3") (txt "Title") (txt "Artist") 12
       (txt "Artist - Title")] ∧
  urlparse_model (txt "http://[") = None ∧
  process_m3u_batch urlparse_model demo_service [] bracket_playlist
    (txt "pl") 100 = None.
Proof. vm_compute. done. Qed.

(** ** The playlist mutator: the second loop of [process_m3u_batch] *)

Lemma add_batches_spec (sp : spotify) (log0 : list request)
  (playlist_id : text) (rest : list (list text)) :
  ∀ (served : list (list text)) (successful : nat),
    add_batches sp (log0 ++ add_calls playlist_id served) playlist_id rest
      successful
    = ((successful +
        sum_list ((λ i, if add_call_ok sp log0 playlist_id (served ++ rest) i
                        then length (default [] ((served ++ rest) !! i))
                        else 0)
                    <$> seq (length served) (length rest)))%nat,
       log0 ++ add_calls playlist_id (served ++ rest)).
Proof.
  induction rest as [|batch rest IH]; intros served successful.
  - simpl. by rewrite app_nil_r, Nat.add_0_r.
  - simpl add_batches.
    assert ((log0 ++ add_calls playlist_id served)
            ++ [PlaylistAddItems playlist_id batch]
            = log0 ++ add_calls playlist_id (served ++ [batch])) as ->.
    { unfold add_calls. by rewrite fmap_app, (assoc_L (++)). }
    rewrite IH. rewrite <- (assoc_L (++)). simpl. f_equal.
    unfold add_call_ok at 2. rewrite list_lookup_middle by done.
    rewrite take_app_length. rewrite length_app. simpl.
    replace (length served + 1)%nat with (S (length served)) by lia.
    destruct (sp_playlist_add_items sp _ playlist_id batch); simpl.
    + by rewrite Nat.add_assoc.
    + done.
Qed.

(** C7. Once the tracks are resolved, [process_m3u_batch] issues one add
    call per batch of the resolved identifiers, in order; the batches are
    the consecutive slices of at most 100 identifiers and concatenate to the
    list of resolved identifiers; the number of added tracks that it returns
    is the sum of the sizes of the batches whose add call succeeded. *)
Theorem process_m3u_batch_adds_in_batches (urlparse : url_parser)
  (sp : spotify) (log : list request) (content playlist_id : text)
  (rate_limit : Z) (st : batch_state) :
  process_tracks urlparse sp rate_limit (BatchState 0 [] [] log)
    (parse_m3u content) = Some st →
  process_m3u_batch urlparse sp log content playlist_id rate_limit
  = Some ((added_total sp (bs_log st) playlist_id
             (batches_of_100 (bs_track_ids st)),
           length (bs_failed_tracks st), bs_failed_tracks st),
          bs_log st
          ++ add_calls playlist_id (batches_of_100 (bs_track_ids st))) ∧
  concat (batches_of_100 (bs_track_ids st)) = bs_track_ids st ∧
  Forall (λ batch, (1 ≤ length batch ≤ 100)%nat)
    (batches_of_100 (bs_track_ids st)).
Proof.
  intros Hst. split; [|split].
  - unfold process_m3u_batch. rewrite Hst. simpl.
    pose proof (add_batches_spec sp (bs_log st) playlist_id
                  (batches_of_100 (bs_track_ids st)) [] 0%nat) as H.
    simpl in H. rewrite app_nil_r in H. rewrite H. done.
  - apply batches_of_100_concat.
  - apply batches_of_100_sizes.
Qed.

Lemma demo_process_tracks :
  process_tracks urlparse_model demo_service 100 (BatchState 0 [] [] [])
    (parse_m3u demo_playlist) = Some demo_state.
Proof. vm_compute. reflexivity. Qed.

Lemma process_m3u_batch_adds_in_batches_witness :
  process_m3u_batch urlparse_model demo_service [] demo_playlist (txt "pl") 100
  = Some ((added_total demo_service (bs_log demo_state) (txt "pl")
             (batches_of_100 (bs_track_ids demo_state)),
           length (bs_failed_tracks demo_state), bs_failed_tracks demo_state),
          bs_log demo_state
          ++ add_calls (txt "pl") (batches_of_100 (bs_track_ids demo_state))) ∧
  concat (batches_of_100 (bs_track_ids demo_state)) = bs_track_ids demo_state ∧
  Forall (λ batch, (1 ≤ length batch ≤ 100)%nat)
    (batches_of_100 (bs_track_ids demo_state)).
Proof.
  apply (process_m3u_batch_adds_in_batches urlparse_model demo_service []
           demo_playlist (txt "pl") 100 demo_state).
  vm_compute. reflexivity.
Defined.

Example process_m3u_batch_demo :
  process_m3u_batch urlparse_model demo_service [] demo_playlist (txt "pl") 100
  = Some ((2%nat, 1%nat, [mk_song (txt "unknown.mp3") [] [] 0 []]),
          [Search (txt "track:Title artist:Artist"); Search (txt "unknown");
           PlaylistAddItems (txt "pl")
             [txt "tid1"; txt "4uLU6hMCjMI75M1A2tKUQC"]]).
Proof. vm_compute. reflexivity. Qed.

(** ** Duplicates: [find_duplicates] *)

Section find_duplicates.
Implicit Types (tracks : list (option item)) (p q : nat).

Lemma enumerate_snoc {A} (l : list A) x :
  enumerate (l ++ [x]) = enumerate l ++ [(length l, x)].
Proof.
  unfold enumerate. rewrite imap_app. simpl. by rewrite Nat.add_0_r.
Qed.

Lemma find_duplicates_snoc tracks it :
  find_duplicates (tracks ++ [it]) =
  find_duplicates_step (find_duplicates tracks) (length tracks, it).
Proof.
  unfold find_duplicates. by rewrite enumerate_snoc, foldl_app.
Qed.

Lemma track_at_lt tracks p t : track_at tracks p = Some t → (p < length tracks)%nat.
Proof.
  unfold track_at. destruct (tracks !! p) eqn:Hp; [|done].
  intros _. by eapply lookup_lt_Some.
Qed.

Lemma track_at_app_l tracks it p :
  (p < length tracks)%nat → track_at (tracks ++ [it]) p = track_at tracks p.
Proof. intros Hp. unfold track_at. by rewrite lookup_app_l. Qed.

Lemma track_at_app_r tracks it :
  track_at (tracks ++ [it]) (length tracks) = it ≫= item_track.
Proof. unfold track_at. by rewrite list_lookup_middle. Qed.

Lemma repeats_app_l tracks it p :
  (p < length tracks)%nat → repeats (tracks ++ [it]) p ↔ repeats tracks p.
Proof.
  intros Hp. unfold repeats. rewrite track_at_app_l by done.
  split; intros (t & Ht & q & t' & Hq & Hqt & Hid); exists t; (split; [done|]);
    exists q, t'; (split; [done|]); (split; [|done]).
  - by rewrite track_at_app_l in Hqt by lia.
  - by rewrite track_at_app_l by lia.
Qed.

Lemma find_duplicates_invariant tracks :
  find_duplicates_inv tracks (find_duplicates tracks).
Proof.
  induction tracks as [|it tracks IH] using rev_ind.
  - split; [|split].
    + intros k. simpl. rewrite lookup_empty. split; [by intros []|].
      by intros (q & t & Hq & _).
    + intros p. simpl. split; [by intros ?%elem_of_nil|].
      by intros (t & Ht & _).
    + constructor.
  - rewrite find_duplicates_snoc. destruct IH as (Hids & Hdups & Hsorted).
    destruct (find_duplicates tracks) as [ids dups]. simpl in *.
    assert (∀ p, p ∈ dups → (p < length tracks)%nat) as Hbound.
    { intros p (t & Ht & _)%Hdups. by eapply track_at_lt. }
    assert (∀ p, repeats (tracks ++ [it]) p →
                 (p < length tracks)%nat ∨ p = length tracks) as Hrange.
    { intros p (t & Ht%track_at_lt & _). rewrite length_app in Ht.
      simpl in Ht. lia. }
    destruct (it ≫= item_track) as [t|] eqn:Hit; simpl.
    2:{ split; [|split]; [| |done]; simpl.
        - intros k. rewrite Hids. split; intros (q & t & Hq & Hk).
          + exists q, t. split; [|done].
            rewrite track_at_app_l; [done|by eapply track_at_lt].
          + exists q, t. split; [|done].
            destruct (decide (q < length tracks)%nat) as [Hlt|Hge].
            * by rewrite track_at_app_l in Hq.
            * pose proof (track_at_lt _ _ _ Hq) as Hq'.
              rewrite length_app in Hq'. simpl in Hq'.
              assert (q = length tracks) as -> by lia.
              by rewrite track_at_app_r, Hit in Hq.
        - intros p. rewrite Hdups. split.
          + intros Hp. apply repeats_app_l; [|done].
            destruct Hp as (t & Ht%track_at_lt & _). done.
          + intros Hp. destruct (Hrange p Hp) as [Hlt| ->].
            * by apply repeats_app_l in Hp.
            * destruct Hp as (t & Ht & _).
              by rewrite track_at_app_r, Hit in Ht. }
    assert (∀ k, (∃ q t', track_at (tracks ++ [it]) q = Some t' ∧ track_id t' = k)
               ↔ is_Some (ids !! k) ∨ k = track_id t) as Hids'.
    { intros k. rewrite Hids. split.
      - intros (q & t' & Hq & Hk).
        destruct (decide (q < length tracks)%nat) as [Hlt|Hge].
        + left. exists q, t'. by rewrite track_at_app_l in Hq.
        + pose proof (track_at_lt _ _ _ Hq) as Hq'.
          rewrite length_app in Hq'. simpl in Hq'.
          assert (q = length tracks) as -> by lia.
          rewrite track_at_app_r, Hit in Hq. right. congruence.
      - intros [(q & t' & Hq & Hk)| ->].
        + exists q, t'. split; [|done].
          rewrite track_at_app_l; [done|by eapply track_at_lt].
        + exists (length tracks), t. by rewrite track_at_app_r. }
    assert (repeats (tracks ++ [it]) (length tracks) ↔
            is_Some (ids !! track_id t)) as Hnew.
    { rewrite Hids. unfold repeats. rewrite track_at_app_r, Hit. split.
      - intros (t0 & [= <-] & q & t' & Hq & Hqt & Hid).
        exists q, t'. by rewrite track_at_app_l in Hqt.
      - intros (q & t' & Hq & Hid). exists t. split; [done|].
        pose proof (track_at_lt _ _ _ Hq).
        exists q, t'. by rewrite track_at_app_l. }
    case_bool_decide as Hseen; (split; [|split]); simpl.
    + intros k. rewrite Hids'. split; [by left|].
      intros [?| ->]; done.
    + intros p. rewrite elem_of_app, list_elem_of_singleton, Hdups. split.
      * intros [Hp| ->]; [|by apply Hnew].
        apply repeats_app_l; [|done].
        destruct Hp as (t0 & Ht0%track_at_lt & _). done.
      * intros Hp. destruct (Hrange p Hp) as [Hlt| ->]; [|by right].
        left. by apply repeats_app_l in Hp.
    + apply StronglySorted_app_2; [|done|repeat constructor].
      intros p q Hp ->%list_elem_of_singleton. by apply Hbound.
    + intros k. rewrite Hids'. rewrite lookup_insert.
      case_decide as Hk.
      * split; [by right|by eexists].
      * split; [by left|]. by intros [?| ->].
    + intros p. rewrite Hdups. split.
      * intros Hp. apply repeats_app_l; [|done].
        destruct Hp as (t0 & Ht0%track_at_lt & _). done.
      * intros Hp. destruct (Hrange p Hp) as [Hlt| ->].
        -- by apply repeats_app_l in Hp.
        -- by apply Hnew in Hp.
    + done.
Qed.
End find_duplicates.


(** ** Removal of duplicates: [remove_duplicates] *)

Section remove_duplicates.
Implicit Types (tracks : list (option item)) (p q : nat) (ps : list nat).

Lemma elem_of_concat {A} (x : A) (ls : list (list A)) :
  x ∈ concat ls ↔ ∃ l, x ∈ l ∧ l ∈ ls.
Proof.
  induction ls as [|l ls IH]; simpl.
  - split; [by intros ?%elem_of_nil|]. by intros (l & _ & ?%elem_of_nil).
  - rewrite elem_of_app, IH. split.
    + intros [Hx|(l' & Hx & Hl')]; [exists l|exists l']; split; try done.
      * by left.
      * by right.
    + intros (l' & Hx & [->|Hl']%elem_of_cons); [by left|right; eauto].
Qed.

Lemma remove_batches_spec (sp : spotify) playlist_id
  (batches : list (list removal)) :
  ∀ log count, ∃ count',
    remove_batches sp log playlist_id batches count
    = (count', log ++ (PlaylistRemoveSpecificOccurrences playlist_id <$> batches)).
Proof.
  induction batches as [|batch batches IH]; intros log count; simpl.
  - exists count. by rewrite app_nil_r.
  - edestruct IH as [count' ->]. exists count'. by rewrite <- (assoc_L (++)).
Qed.

Lemma StronglySorted_lt_NoDup ps : StronglySorted lt ps → NoDup ps.
Proof.
  induction 1 as [|p ps _ IH Hall]; constructor; [|done].
  intros Hin. rewrite Forall_forall in Hall. specialize (Hall p Hin). lia.
Qed.

Lemma sorted_reverse_descending ps :
  NoDup ps → StronglySorted (λ p q, q < p)%nat (sorted_reverse ps).
Proof.
  intros Hnodup. unfold sorted_reverse.
  assert (Transitive (flip Nat.le)) as Htrans.
  { intros x y z. unfold flip. lia. }
  assert (Total (flip Nat.le)) as Htotal.
  { intros x y. unfold flip. lia. }
  pose proof (StronglySorted_merge_sort (flip Nat.le) ps) as Hsorted.
  assert (NoDup (merge_sort (flip Nat.le) ps)) as Hnodup'.
  { by rewrite merge_sort_Permutation. }
  induction Hsorted as [|p l _ IH Hall]; constructor.
  - apply IH. by inversion Hnodup'.
  - inversion_clear Hnodup' as [|?? Hnotin _].
    rewrite Forall_forall in Hall |- *. intros q Hq.
    specialize (Hall q Hq). unfold flip in Hall.
    assert (q ≠ p) by (by intros ->). lia.
Qed.

Lemma tracks_to_remove_spec tracks ps :
  (∀ p, p ∈ ps → is_Some (track_at tracks p)) →
  tracks_to_remove tracks ps = Some (ps ≫= entries_at tracks).
Proof.
  induction ps as [|p ps IH]; intros Hall; [done|]. simpl.
  rewrite IH by (intros q Hq; apply Hall; by right). clear IH.
  destruct (Hall p) as [t Ht]; [by left|].
  assert (∃ es, removal_entry tracks p = Some es) as [es Hes].
  { unfold track_at in Ht. unfold removal_entry.
    destruct (tracks !! p) as [[it|]|]; try done. simpl in Ht. rewrite Ht.
    destruct (track_uri t) as [[|c u]|]; by eexists. }
  unfold entries_at. by rewrite Hes.
Qed.

Lemma entries_at_spec tracks p e :
  e ∈ entries_at tracks p →
  ∃ t, track_at tracks p = Some t ∧ track_uri t = Some (removal_uri e) ∧
       removal_positions e = [p].
Proof.
  unfold entries_at, removal_entry, track_at.
  destruct (tracks !! p) as [[it|]|]; simpl; try by intros ?%elem_of_nil.
  destruct (item_track it) as [t|]; simpl; try by intros ?%elem_of_nil.
  destruct (track_uri t) as [[|c u]|] eqn:Huri; simpl;
    try by intros ?%elem_of_nil.
  intros ->%list_elem_of_singleton. eauto.
Qed.

Lemma entries_positions_sorted tracks (R : relation nat) ps :
  StronglySorted R ps →
  StronglySorted R (concat (removal_positions <$> (ps ≫= entries_at tracks))).
Proof.
  assert (∀ qs q,
    q ∈ concat (removal_positions <$> (qs ≫= entries_at tracks)) → q ∈ qs)
    as Hsub.
  { intros qs q. rewrite elem_of_concat.
    intros (l & Hq & (e & -> & He)%list_elem_of_fmap).
    apply list_elem_of_bind in He as (p & He & Hp).
    apply entries_at_spec in He as (_ & _ & _ & Hpos).
    rewrite Hpos in Hq. by apply list_elem_of_singleton in Hq as ->. }
  induction 1 as [|p ps Hsorted IH Hall]; [constructor|].
  rewrite bind_cons, fmap_app, concat_app.
  apply StronglySorted_app_2; [| |done].
  - intros x y Hx Hy. apply Hsub in Hy.
    assert (x = p) as ->.
    { apply elem_of_concat in Hx as (l & Hx & (e & -> & He)%list_elem_of_fmap).
      apply entries_at_spec in He as (_ & _ & _ & Hpos).
      rewrite Hpos in Hx. by apply list_elem_of_singleton in Hx. }
    rewrite Forall_forall in Hall. by apply Hall.
  - unfold entries_at, removal_entry.
    destruct (tracks !! p) as [[it|]|]; simpl; try constructor.
    destruct (item_track it) as [t|]; simpl; try constructor.
    destruct (track_uri t) as [[|c u]|]; simpl; repeat constructor.
Qed.

Lemma repeats_not_first tracks p : repeats tracks p → ¬ first_occurrence tracks p.
Proof.
  intros (t & Ht & q & t' & Hq & Hqt & Hid) (t0 & Ht0 & Hfirst).
  assert (t0 = t) as -> by congruence. by eapply Hfirst.
Qed.
End remove_duplicates.

(** Whatever positions it is given, [remove_duplicates] builds entries only
    for positions of that list, each with the uri stored at its position. *)
Lemma tracks_to_remove_flagged (tracks : list (option item))
  (duplicate_positions : list nat) (entries : list removal) (e : removal) :
  tracks_to_remove tracks (sorted_reverse duplicate_positions) = Some entries →
  e ∈ entries →
  ∃ p t, removal_positions e = [p] ∧ p ∈ duplicate_positions ∧
         track_at tracks p = Some t ∧ track_uri t = Some (removal_uri e).
Proof.
  assert (∀ ps es, tracks_to_remove tracks ps = Some es →
                   es = ps ≫= entries_at tracks) as Hentries.
  { induction ps as [|p ps IH]; intros es; simpl; [by intros [= <-]|].
    unfold entries_at. destruct (removal_entry tracks p) as [e'|]; [|done].
    simpl. destruct (tracks_to_remove tracks ps) as [es'|]; [|done].
    simpl. intros [= <-]. by rewrite (IH es'). }
  intros ->%Hentries (p & He & Hp)%list_elem_of_bind.
  apply entries_at_spec in He as (t & Ht & Huri & Hpos).
  exists p, t. split; [done|]. split; [|done].
  unfold sorted_reverse in Hp. by rewrite merge_sort_Permutation in Hp.
Qed.


(** ** Pagination: [fetch_playlist_tracks] and [get_playlist_tracks] *)

Section pagination.
Context (sp : spotify) (log0 : list request) (playlist_id : text).

Lemma offset_requests_S limit n :
  offset_requests playlist_id limit (S n) =
  offset_requests playlist_id limit n ++
  [PlaylistItems playlist_id (Some limit) (Some (n * limit)%nat)].
Proof. unfold offset_requests. by rewrite seq_S, fmap_app. Qed.

Lemma offset_requests_length limit n :
  length (offset_requests playlist_id limit n) = n.
Proof. unfold offset_requests. by rewrite length_fmap, length_seq. Qed.

Lemma fetch_playlist_tracks_loop_spec limit (rest : list page) :
  ∀ (served : list page) (fuel : nat) (items : list (option item)),
    page_chain rest →
    responds_with sp log0 (served ++ rest) →
    (length rest ≤ fuel)%nat →
    fetch_playlist_tracks_loop fuel sp
      (log0 ++ offset_requests playlist_id limit (length served))
      playlist_id items limit (length served * limit)
    = Returned (items ++ concat (page_items <$> rest),
                log0 ++ offset_requests playlist_id limit
                          (length served + length rest)).
Proof.
  induction rest as [|p rest IH]; intros served fuel items Hchain Hresp Hfuel;
    [done|].
  destruct fuel as [|fuel]; [simpl in Hfuel; lia|]. simpl.
  destruct (Hresp (length served) p
              (log0 ++ offset_requests playlist_id limit (length served)))
    as [-> _].
  { by rewrite list_lookup_middle. }
  { by rewrite length_app, offset_requests_length. }
  rewrite <- (assoc_L (++)), <- offset_requests_S.
  destruct rest as [|p' rest].
  - simpl in Hchain. rewrite Hchain. simpl.
    rewrite app_nil_r. by replace (length served + 1)%nat with (S (length served)) by lia.
  - destruct Hchain as [-> Hchain].
    specialize (IH (served ++ [p]) fuel (items ++ page_items p) Hchain).
    rewrite length_app in IH. simpl in IH.
    replace (length served * limit + limit)%nat
      with ((length served + 1) * limit)%nat by lia.
    replace (S (length served)) with (length served + 1)%nat by lia.
    rewrite IH.
    + rewrite <- (assoc_L (++)). simpl.
      by replace (length served + 1 + S (length rest))%nat
        with (length served + S (S (length rest)))%nat by lia.
    + by rewrite <- (assoc_L (++)).
    + simpl in Hfuel. lia.
Qed.

Lemma get_playlist_tracks_loop_spec (rest : list page) :
  ∀ (served : list page) (results : page) (log : list request) (fuel : nat)
    (tracks : list (option item)),
    page_chain (results :: rest) →
    responds_with sp log0 (served ++ results :: rest) →
    length log = (length log0 + S (length served))%nat →
    (length rest ≤ fuel)%nat →
    get_playlist_tracks_loop fuel sp log results tracks
    = Returned (tracks ++ concat (page_items <$> rest),
                log ++ (Next <$> removelast (results :: rest))).
Proof.
  induction rest as [|p rest IH];
    intros served results log fuel tracks Hchain Hresp Hlog Hfuel.
  - simpl in Hchain. destruct fuel; simpl; rewrite Hchain;
      by rewrite !app_nil_r.
  - destruct Hchain as [Hnext Hchain].
    destruct fuel as [|fuel]; [simpl in Hfuel; lia|].
    simpl get_playlist_tracks_loop. rewrite Hnext.
    destruct (Hresp (S (length served)) p log) as [_ ->]; [|done|].
    { rewrite lookup_app_r by lia.
      by replace (S (length served) - length served)%nat with 1%nat by lia. }
    rewrite (IH (served ++ [results])); [| done | | |].
    + rewrite <- !(assoc_L (++)). done.
    + by rewrite <- (assoc_L (++)).
    + rewrite !length_app. simpl. lia.
    + simpl in Hfuel. lia.
Qed.
End pagination.




(** ** Normalization: [normalize_tracks] *)

Lemma enumerate_lookup {A} (l : list A) k :
  enumerate l !! k = (λ x, (k, x)) <$> l !! k.
Proof. unfold enumerate. by rewrite list_lookup_imap. Qed.

Lemma enumerate_length {A} (l : list A) : length (enumerate l) = length l.
Proof. unfold enumerate. by rewrite length_imap. Qed.

Lemma normalize_tracks_lookup (items : list item) k :
  normalize_tracks items !! k = normalize_item k <$> items !! k.
Proof.
  unfold normalize_tracks. rewrite list_lookup_fmap, enumerate_lookup.
  by destruct (items !! k).
Qed.


Example normalize_tracks_example :
  normalize_tracks
    [Item (Some (Track (Some (txt "id1")) (Some (txt "spotify:track:id1"))
                   (Some (txt "Song"))
                   (Some [Artist (Some (txt "a1")) (Some (txt "Band")) None])
                   None (Some 1000) None None None))
          None None;
     Item None (Some (txt "2020")) None]
  = [Normalized 0 (Some (txt "id1")) (Some (txt "spotify:track:id1"))
       (Some (txt "Song")) [NamedRef (Some (txt "a1")) (Some (txt "Band"))]
       (Some (NamedRef None None)) (Some 1000) false None None None None true;
     Normalized 1 None None (Some (txt "Unavailable Track")) [] None None
       false None (Some (txt "2020")) None None false].
Proof. reflexivity. Qed.

(** ** Runs on concrete inputs *)

Example find_duplicates_demo : (find_duplicates demo_tracks).2 = [3; 5; 6]%nat.
Proof. vm_compute. reflexivity. Qed.

Example remove_duplicates_demo :
  remove_duplicates demo_service [] (txt "pl") [3; 5; 6]%nat demo_tracks
  = Some (3%nat,
          [PlaylistRemoveSpecificOccurrences (txt "pl")
             [Removal (txt "spotify:track:a") [6%nat];
              Removal (txt "spotify:track:b") [5%nat];
              Removal (txt "spotify:track:a") [3%nat]]]).
Proof. vm_compute. reflexivity. Qed.

(** A flagged list that names a [None] item makes [remove_duplicates] raise;
    the positions that [find_duplicates] flags never do. *)
Example remove_duplicates_none_item :
  remove_duplicates demo_service [] (txt "pl") [2]%nat demo_tracks = None.
Proof. vm_compute. reflexivity. Qed.

(** When the URL parser accepts the path of every parsed track and the rate
    limit is not zero, [process_m3u_batch] returns its triple: the number of
    added tracks, the number of failed tracks and the failed tracks, which
    are tracks of the file in their order. *)
Lemma process_m3u_batch_log_and_skip (urlparse : url_parser) (sp : spotify)
  (log : list request) (content playlist_id : text) (rate_limit : Z) :
  rate_limit ≠ 0 →
  (∀ s file_path, s ∈ parse_m3u content →
     s !! "path" = Some (VStr file_path) → is_Some (urlparse file_path)) →
  ∃ successful failed_tracks log',
    process_m3u_batch urlparse sp log content playlist_id rate_limit
    = Some ((successful, length failed_tracks, failed_tracks), log') ∧
    sublist failed_tracks (parse_m3u content).
Proof.
  intros Hrate Hurls.
  destruct (process_tracks_log_and_skip urlparse sp rate_limit
              (parse_m3u content) Hrate) with (st := BatchState 0 [] [] log)
    as (st' & failed & Hst & Hfailed & Hsub & _).
  { pose proof (parse_m3u_parsed content) as Hparsed.
    rewrite Forall_forall in Hparsed |- *. intros s Hs.
    destruct (Hparsed s Hs) as (p & d & md & -> & _).
    exists p. assert (song_of p d md !! "path" = Some (VStr p)) as Hp.
    { unfold song_of. apply mk_song_lookup. }
    split; [done|]. by eapply Hurls. }
  unfold process_m3u_batch. rewrite Hst. simpl.
  destruct (add_batches sp (bs_log st') playlist_id
              (batches_of_100 (bs_track_ids st')) 0) as [successful log'].
  exists successful, (bs_failed_tracks st'), log'. split; [done|].
  by rewrite Hfailed.
Qed.

Example parse_m3u_crlf :
  parse_m3u (txt "#EXTM3U" ++ [CR; LF] ++ txt "#EXTINF:7,T" ++ [CR; LF]
             ++ txt "a.mp3" ++ [CR] ++ txt "b.mp3")
  = [mk_song (txt "a.mp3") (txt "T") [] 7 (txt "T");
     mk_song (txt "b.mp3") [] [] 0 []].
Proof. vm_compute. reflexivity. Qed.

Example parse_m3u_bad_duration :
  parse_m3u (txt "#EXTINF:abc,Artist - Title
x.mp3
") = [mk_song (txt "x.mp3") [] [] 0 []].
Proof. vm_compute. reflexivity. Qed.

Example parse_m3u_spaces_and_comment :
  parse_m3u (txt "#EXTINF: 12 , A - B  
# a comment
   y.mp3  
") = [mk_song (txt "y.mp3") (txt "B") (txt "A") 12 (txt " A - B")].
Proof. vm_compute. reflexivity. Qed.

Example write_batch_demo :
  write_batch (parse_m3u demo_playlist) = Some demo_playlist.
Proof. vm_compute. reflexivity. Qed.

Example py_int_examples :
  py_int <$> (txt <$> [" 12 "; "1_0"; "+5"; "-7"; "007"; ""; "_1"; "1__0";
                       "+ 5"; "12a"]%string)
  = [Some 12; Some 10; Some 5; Some (-7); Some 7; None; None; None; None; None].
Proof. vm_compute. reflexivity. Qed.

Example splitext_examples :
  (λ p, (splitext (basename (txt p))).1)
    <$> ["dir/Artist - Title.mp3"; ".hidden"; "a/..x.y"; "x."; "a.b/c"; "a/"]%string
  = txt <$> ["Artist - Title"; ".hidden"; "..x"; "x"; "c"; ""]%string.
Proof. vm_compute. reflexivity. Qed.

Example urlparse_model_examples :
  urlparse_model <$> (txt <$> ["https://open.spotify.com/track/abc?x=1";
                               "HTTP://Open.spotify.com/track/1";
                               "//h/p;q?r#s"; "dir/song.mp3"; "http://["]%string)
  = [Some (ParseResult (txt "open.spotify.com") (txt "/track/abc"));
     Some (ParseResult (txt "Open.spotify.com") (txt "/track/1"));
     Some (ParseResult (txt "h") (txt "/p"));
     Some (ParseResult [] (txt "dir/song.mp3"));
     None].
Proof. vm_compute. reflexivity. Qed.

Example extract_search_query_examples :
  extract_search_query_from_song
    <$> [mk_song (txt "x.mp3") (txt "Title") (txt "Artist") 3 (txt "Artist - Title");
         mk_song (txt "music/Band - Song.mp3") [] [] 0 [];
         mk_song (txt "music/song.flac") (txt "Only title") [] 0 (txt "Only title");
         mk_song (txt "music/") [] [] 0 []]
  = Some <$> (txt <$> ["track:Title artist:Artist"; "track:Song artist:Band";
                       "song"; ""]%string).
Proof. vm_compute. reflexivity. Qed.

(** ** More on the parser and the writer *)

Section parser_more.
Implicit Types (st : parser_state) (raw line p md : text) (s : song).

Lemma song_of_lookup_path p d md : song_of p d md !! "path" = Some (VStr p).
Proof. unfold song_of. apply mk_song_lookup. Qed.

Lemma parse_line_paths st raw :
  parser_inv st →
  (λ s : song, s !! "path") <$> songs (parse_line st raw)
  = ((λ s : song, s !! "path") <$> songs st)
    ++ (if is_path_line raw then [Some (VStr (strip raw))] else []).
Proof.
  intros [_ Hcur]. unfold parse_line, is_path_line.
  destruct (decide (strip raw = [])) as [Hempty|Hempty].
  { rewrite !bool_decide_eq_true_2 by done. simpl. by rewrite app_nil_r. }
  rewrite !(bool_decide_eq_false_2 (strip raw = [])) by done.
  case_bool_decide as Hheader.
  { rewrite Hheader. simpl. by rewrite app_nil_r. }
  destruct (startswith (txt "#EXTINF:") (strip raw)) eqn:Hextinf.
  { apply startswith_spec in Hextinf as (rest & Heq). rewrite Heq. simpl.
    by rewrite app_nil_r. }
  destruct (startswith (txt "#") (strip raw)) eqn:Hhash; simpl;
    [by rewrite app_nil_r|].
  destruct (current_song st) as [cur|]; simpl.
  - rewrite fmap_app. simpl. by rewrite lookup_insert_eq.
  - rewrite fmap_app. done.
Qed.

Lemma parse_lines_paths (lines : list text) st :
  Forall (λ raw, no_newline (strip raw)) lines → parser_inv st →
  (λ s : song, s !! "path") <$> songs (foldl parse_line st lines)
  = ((λ s : song, s !! "path") <$> songs st)
    ++ ((λ raw, Some (VStr (strip raw))) <$> filter (λ raw, is_path_line raw = true) lines).
Proof.
  intros Hlines. revert st.
  induction Hlines as [|raw lines Hraw _ IH]; intros st Hst; simpl.
  - by rewrite app_nil_r.
  - rewrite IH by (by apply parse_line_inv).
    rewrite parse_line_paths by done. rewrite <- (assoc_L (++)). f_equal.
    rewrite filter_cons. by destruct (is_path_line raw).
Qed.
End parser_more.

(** Every path line of the file yields exactly one record and nothing else
    does: the paths of the records that [parse_m3u] returns are the lines of
    the file that are neither blank nor start with '#', stripped, in the order
    of the file. *)
Theorem parse_m3u_paths (content : text) :
  (λ s : song, s !! "path") <$> parse_m3u content
  = (λ raw, Some (VStr (strip raw)))
      <$> filter (λ raw, is_path_line raw = true) (file_lines content).
Proof.
  unfold parse_m3u. rewrite parse_lines_paths.
  - done.
  - apply Forall_forall. intros raw Hraw. by eapply file_lines_strip.
  - split; [constructor|done].
Qed.

Section writer_more.
Implicit Types (p md : text) (d : Z) (s : song) (batch : list song).

Lemma strip_idempotent (t : text) : strip (strip t) = strip t.
Proof.
  apply strip_with_id; [apply strip_with_no_lead|apply strip_with_no_trail].
Qed.

Lemma artist_title_empty : artist_title [] = ([], []).
Proof. reflexivity. Qed.

Lemma artist_title_artist md :
  (artist_title md).1 ≠ [] → contains (txt " - ") md = true.
Proof. unfold artist_title. by destruct (contains (txt " - ") md). Qed.

Lemma artist_title_stripped md :
  strip (artist_title md).1 = (artist_title md).1 ∧
  (contains (txt " - ") md = true →
   strip (artist_title md).2 = (artist_title md).2).
Proof.
  unfold artist_title. destruct (contains (txt " - ") md); simpl.
  - split; [apply strip_idempotent|]. intros _.
    case_bool_decide; [apply strip_idempotent|done].
  - done.
Qed.

(** A list of records is written and parsed back unchanged when its records
    have the shape that the parser builds and no duration without metadata. *)
Lemma write_batch_reparse batch :
  Forall parsed_song batch → Forall duration_needs_metadata batch →
  ∃ written, write_batch batch = Some written ∧ parse_m3u written = batch.
Proof.
  intros Hparsed Hdur.
  destruct (write_songs_lines batch Hparsed Hdur)
    as (lines & Hwrite & Hlines & Hparse).
  exists (concat ((txt "#EXTM3U" ++ [LF]) :: lines)). split.
  - unfold write_batch. by rewrite Hwrite.
  - unfold parse_m3u. rewrite file_lines_written.
    + cbn [foldl].
      assert (parse_line (ParserState [] None) (txt "#EXTM3U" ++ [LF])
              = ParserState [] None) as -> by (vm_compute; reflexivity).
      by rewrite <- (app_nil_r lines), Hparse.
    + constructor; [|done]. eexists. split; [done|].
      repeat constructor; done.
Qed.

Lemma written_song_song_of p d md :
  written_song (song_of p d md)
  = song_of p (if bool_decide (md = []) then 0 else d) md.
Proof.
  unfold written_song.
  destruct (mk_song_lookup p (artist_title md).2 (artist_title md).1 d md)
    as (_ & _ & Hmd).
  fold (song_of p d md) in Hmd. rewrite Hmd.
  destruct (decide (md = [])) as [->|Hne].
  - rewrite !bool_decide_eq_true_2 by done.
    unfold song_of, mk_song. apply map_eq. intros k.
    rewrite !lookup_insert. repeat case_decide; congruence.
  - rewrite bool_decide_eq_false_2 by congruence.
    by rewrite bool_decide_eq_false_2.
Qed.

Lemma written_song_parsed s :
  parsed_song s →
  parsed_song (written_song s) ∧ duration_needs_metadata (written_song s) ∧
  write_song (written_song s) = write_song s.
Proof.
  intros (p & d & md & -> & Hp & Hmd). rewrite written_song_song_of.
  split; [by eexists _, _, _|]. split.
  - unfold duration_needs_metadata.
    destruct (mk_song_lookup p (artist_title md).2 (artist_title md).1
                (if bool_decide (md = []) then 0 else d) md)
      as (_ & Hd & Hm).
    unfold song_of. rewrite Hd, Hm. intros [= ->]. done.
  - rewrite !write_song_song_of. unfold song_lines.
    by case_bool_decide.
Qed.

Lemma written_songs_parsed batch :
  Forall parsed_song batch →
  Forall parsed_song (written_song <$> batch) ∧
  Forall duration_needs_metadata (written_song <$> batch) ∧
  write_batch (written_song <$> batch) = write_batch batch.
Proof.
  intros Hparsed. unfold write_batch.
  assert (Forall parsed_song (written_song <$> batch) ∧
          Forall duration_needs_metadata (written_song <$> batch) ∧
          write_songs (written_song <$> batch) = write_songs batch)
    as (H1 & H2 & H3).
  { induction Hparsed as [|s batch Hs _ (IH1 & IH2 & IH3)]; [done|].
    destruct (written_song_parsed s Hs) as (Hs1 & Hs2 & Hs3).
    rewrite fmap_cons. split; [by constructor|]. split; [by constructor|].
    simpl. by rewrite Hs3, IH3. }
  by rewrite H3.
Qed.

(** What a batch of parsed records gives when it is written and parsed
    again. *)
Lemma write_batch_reparse_any batch :
  Forall parsed_song batch →
  ∃ written, write_batch batch = Some written ∧
             parse_m3u written = written_song <$> batch.
Proof.
  intros Hparsed.
  destruct (written_songs_parsed batch Hparsed) as (H1 & H2 & H3).
  rewrite <- H3. by apply write_batch_reparse.
Qed.
End writer_more.

(** The values of the records that [parse_m3u] returns.  The path is not
    empty, has no surrounding whitespace, does not start with '#' and holds
    no line terminator.  The metadata string has no trailing whitespace and
    no line terminator.  Title and artist are those that lines 73-78 derive
    from the metadata string: both are empty when it is empty, the artist is
    stripped, and it is not empty only when the metadata holds ' - '. *)
Theorem parse_m3u_record_values (content : text) :
  Forall (λ s : song,
    ∃ p d md,
      s = mk_song p (artist_title md).2 (artist_title md).1 d md ∧
      p ≠ [] ∧ strip p = p ∧ startswith (txt "#") p = false ∧
      (LF ∉ p) ∧ (CR ∉ p) ∧
      rstrip_with isspace md = md ∧ (LF ∉ md) ∧ (CR ∉ md) ∧
      (md = [] → (artist_title md).1 = [] ∧ (artist_title md).2 = []) ∧
      strip (artist_title md).1 = (artist_title md).1 ∧
      ((artist_title md).1 ≠ [] → contains (txt " - ") md = true))
    (parse_m3u content).
Proof.
  eapply Forall_impl; [apply parse_m3u_parsed|].
  intros s (p & d & md & -> & (Hne & Hlead & Htrail & Hhash & Hnl) & Hmd1 & Hmd2).
  exists p, d, md. split; [done|]. split; [done|].
  split; [by apply strip_with_id|]. split; [done|].
  unfold no_newline in Hnl, Hmd2. rewrite Forall_forall in Hnl, Hmd2.
  split; [intros Hin; by destruct (Hnl _ Hin)|].
  split; [intros Hin; by destruct (Hnl _ Hin)|].
  split; [by apply rstrip_with_id|].
  split; [intros Hin; by destruct (Hmd2 _ Hin)|].
  split; [intros Hin; by destruct (Hmd2 _ Hin)|].
  split; [by intros ->|].
  split; [apply artist_title_stripped|apply artist_title_artist].
Qed.

(** Writing the records of a parsed playlist and parsing the written text
    never fails and loses only the duration of the records that have no
    metadata string: the result is the parsed list with those durations set
    to 0.  A second round trip changes nothing more. *)
Theorem parse_write_parse (content : text) :
  ∃ written,
    write_batch (parse_m3u content) = Some written ∧
    parse_m3u written = written_song <$> parse_m3u content ∧
    write_batch (parse_m3u written) = Some written.
Proof.
  destruct (write_batch_reparse_any (parse_m3u content)
              (parse_m3u_parsed content)) as (written & Hw & Hp).
  exists written. split; [done|]. split; [done|].
  rewrite Hp.
  destruct (written_songs_parsed (parse_m3u content)
              (parse_m3u_parsed content)) as (_ & _ & ->). done.
Qed.

(** ** Saving the batches: [save_batches] and [main] *)

Section save_batches.
Implicit Types (fs : files) (batches : list (list song)) (dir base : text).

Lemma py_str_inj (a b : Z) : py_str a = py_str b → a = b.
Proof.
  intros Heq. pose proof (py_int_py_str a) as Ha. rewrite Heq in Ha.
  rewrite py_int_py_str in Ha. by inversion Ha.
Qed.

Lemma batch_file_name_inj base (i j : nat) :
  batch_file_name base i = batch_file_name base j → i = j.
Proof.
  unfold batch_file_name. intros Heq.
  apply app_inv_head in Heq. apply app_inv_head in Heq.
  apply app_inv_tail in Heq. apply py_str_inj in Heq. lia.
Qed.

Lemma batch_file_name_slash base (i j : nat) :
  startswith (txt "/") (batch_file_name base i)
  = startswith (txt "/") (batch_file_name base j).
Proof. unfold batch_file_name. by destruct base. Qed.

Lemma path_join_inj dir (a b : text) :
  startswith (txt "/") a = startswith (txt "/") b →
  path_join dir a = path_join dir b → a = b.
Proof.
  unfold path_join. intros <-. destruct (startswith (txt "/") a); [done|].
  destruct (_ || _).
  - apply app_inv_head.
  - intros Heq. by do 2 apply app_inv_head in Heq.
Qed.

Lemma batch_path_inj dir base (i j : nat) :
  path_join dir (batch_file_name base i)
  = path_join dir (batch_file_name base j) → i = j.
Proof.
  intros Heq. apply (batch_file_name_inj base).
  eapply path_join_inj; [apply batch_file_name_slash|done].
Qed.

Lemma save_batches_loop_spec dir base batches :
  Forall (λ batch, is_Some (write_batch batch)) batches →
  ∀ (i : nat) fs (saved : list text), ∃ fs',
    save_batches_loop dir base i batches fs saved
    = Some (saved ++ imap (λ k _, path_join dir (batch_file_name base (i + k)))
                       batches, fs') ∧
    (∀ q, (∀ k, (k < length batches)%nat →
                q ≠ path_join dir (batch_file_name base (i + k))) →
          fs' !! q = fs !! q) ∧
    (∀ k batch, batches !! k = Some batch →
       fs' !! path_join dir (batch_file_name base (i + k))
       = write_batch batch).
Proof.
  induction 1 as [|batch batches [content Hcontent] _ IH]; intros i fs saved.
  - exists fs. simpl. by rewrite app_nil_r.
  - cbn [save_batches_loop]. rewrite Hcontent. cbn [mbind option_bind].
    set (file_path := path_join dir (batch_file_name base i)).
    destruct (IH (S i) (<[file_path := content]> fs) (saved ++ [file_path]))
      as (fs' & -> & Hother & Hfiles).
    exists fs'. split; [|split].
    + rewrite <- (assoc_L (++)). simpl. rewrite Nat.add_0_r. do 3 f_equal.
      unfold file_path. f_equal.
      apply imap_ext. intros k b _. simpl. do 2 f_equal. lia.
    + intros q Hq. rewrite Hother.
      * rewrite lookup_insert_ne; [done|]. intros <-.
        apply (Hq 0%nat); [simpl; lia|]. by rewrite Nat.add_0_r.
      * intros k Hk. replace (S i + k)%nat with (i + S k)%nat by lia.
        apply Hq. simpl. lia.
    + intros [|k] b Hb; simpl in Hb.
      * inversion Hb; subst b. rewrite Nat.add_0_r. fold file_path.
        rewrite Hother; [by rewrite lookup_insert_eq|].
        intros k Hk Heq. apply batch_path_inj in Heq. lia.
      * replace (i + S k)%nat with (S i + k)%nat by lia. by apply Hfiles.
Qed.

Lemma split_into_batches_concat {A} (songs : list A) (batch_size : Z)
  (batches : list (list A)) :
  1 ≤ batch_size → split_into_batches songs batch_size = Some batches →
  concat batches = songs ∧ ∀ batch, batch ∈ batches → batch ⊆ songs.
Proof.
  intros Hk. rewrite split_into_batches_unfold by done. intros [= <-]. split.
  - apply concat_chunks.
    destruct (decide (length songs = 0%nat)) as [->|]; [lia|].
    apply range_length_bounds; lia.
  - intros batch (j & -> & _)%list_elem_of_fmap x Hx.
    by apply subseteq_take, subseteq_drop in Hx.
Qed.
End save_batches.

Lemma save_batches_spec (abspath : text → text) (fs : files)
  (batches : list (list song)) (input_file_path base_filename : text) :
  Forall (λ batch, is_Some (write_batch batch)) batches →
  ∃ saved_files fs',
    save_batches abspath fs batches input_file_path base_filename
    = Some (saved_files, batches_dir abspath input_file_path, fs') ∧
    length saved_files = length batches ∧
    NoDup saved_files ∧
    (∀ k batch, batches !! k = Some batch →
       saved_files !! k
       = Some (path_join (batches_dir abspath input_file_path)
                 (batch_file_name base_filename k)) ∧
       fs' !! path_join (batches_dir abspath input_file_path)
                (batch_file_name base_filename k)
       = write_batch batch) ∧
    (∀ q, q ∉ saved_files → fs' !! q = fs !! q).
Proof.
  intros Hwrite. unfold save_batches.
  generalize (batches_dir abspath input_file_path). intros dir.
  destruct (save_batches_loop_spec dir base_filename batches Hwrite 0%nat fs [])
    as (fs' & -> & Hother & Hfiles).
  simpl in Hother, Hfiles. simpl. eexists _, fs'. split; [done|].
  assert (∀ k, imap (λ k _, path_join dir (batch_file_name base_filename k))
                 batches !! k
               = (λ _, path_join dir (batch_file_name base_filename k))
                   <$> batches !! k) as Hlookup.
  { intros k. by rewrite list_lookup_imap. }
  split; [by rewrite length_imap|]. split; [|split].
  - apply NoDup_alt. intros i j q Hi Hj. rewrite Hlookup in Hi, Hj.
    destruct (batches !! i), (batches !! j); simpl in *; try done.
    inversion Hi as [Hq]. inversion Hj as [Hq']. rewrite <- Hq' in Hq.
    by apply batch_path_inj in Hq.
  - intros k batch Hk. split; [by rewrite Hlookup, Hk|by apply Hfiles].
  - intros q Hq. apply Hother. intros k Hk ->. apply Hq.
    apply list_elem_of_lookup. exists k. rewrite Hlookup.
    destruct (lookup_lt_is_Some_2 batches k Hk) as [b ->]. done.
Qed.



Example save_batches_demo :
  (λ r : list text * text * files, r.1) <$>
    save_batches (λ p, txt "/music/" ++ p) ∅
      [[mk_song (txt "a.mp3") [] [] 0 []]; [mk_song (txt "b.mp3") [] [] 0 []]]
      (txt "list.m3u") (txt "part")
  = Some ([txt "/music/list_batches/part_1.m3u";
           txt "/music/list_batches/part_2.m3u"],
          txt "/music/list_batches").
Proof. vm_compute. reflexivity. Qed.

Lemma batches_reparse (batches : list (list song)) :
  Forall (Forall parsed_song) batches →
  ∃ contents,
    Forall2 (λ batch c, write_batch batch = Some c ∧
                        parse_m3u c = written_song <$> batch)
      batches contents.
Proof.
  induction 1 as [|batch batches Hbatch _ [contents IH]].
  - by exists [].
  - destruct (write_batch_reparse_any batch Hbatch) as (c & Hc & Hp).
    exists (c :: contents). by constructor.
Qed.

(** The splitter as a whole: for an existing playlist file and a batch size
    of at least one, [main] saves [len(range(0, n, batch_size))] files for
    the [n] records of the playlist, and parsing the saved files in order
    gives back the records of the playlist, batch after batch (a record
    without metadata string comes back with duration 0). *)
Theorem splitter_main_reparse (abspath : text → text) (fs : files)
  (m3u_file content : text) (batch_size : Z) (base_name : text)
  (output_dir : option text) :
  fs !! m3u_file = Some content → 1 ≤ batch_size →
  ∃ saved_files fs' contents,
    splitter_main abspath fs m3u_file batch_size base_name output_dir
    = Some (saved_files, fs') ∧
    length saved_files
    = range_length (length (parse_m3u content)) (Z.to_nat batch_size) ∧
    Forall2 (λ file_path c, fs' !! file_path = Some c) saved_files contents ∧
    concat (parse_m3u <$> contents) = written_song <$> parse_m3u content.
Proof.
  intros Hfile Hk. unfold splitter_main. rewrite Hfile. simpl.
  destruct (split_into_batches (parse_m3u content) batch_size)
    as [batches|] eqn:Hsplit;
    [|by rewrite split_into_batches_unfold in Hsplit by done].
  destruct (split_into_batches_concat _ _ _ Hk Hsplit) as [Hconcat Hsub].
  assert (length batches
          = range_length (length (parse_m3u content)) (Z.to_nat batch_size))
    as Hcount.
  { rewrite split_into_batches_unfold in Hsplit by done.
    injection Hsplit as <-. by rewrite length_fmap, length_seq. }
  assert (Forall (Forall parsed_song) batches) as Hparsed.
  { apply Forall_forall. intros batch Hbatch. apply Forall_forall.
    intros s Hs. pose proof (parse_m3u_parsed content) as Hall.
    rewrite Forall_forall in Hall. by apply Hall, (Hsub batch). }
  destruct (batches_reparse batches Hparsed) as [contents Hcontents].
  assert (Forall (λ batch, is_Some (write_batch batch)) batches) as Hwrite.
  { apply Forall_forall. intros batch Hbatch.
    apply list_elem_of_lookup in Hbatch as [k Hk'].
    destruct (Forall2_lookup_l _ _ _ _ _ Hcontents Hk') as (c & _ & -> & _).
    by eexists. }
  simpl.
  assert (∀ input,
    ∃ saved_files fs',
      save_batches abspath fs batches input base_name
      = Some (saved_files, batches_dir abspath input, fs') ∧
      length saved_files = length batches ∧
      Forall2 (λ file_path c, fs' !! file_path = Some c) saved_files contents)
    as Hsave.
  { intros input.
    destruct (save_batches_spec abspath fs batches input base_name Hwrite)
      as (saved & fs' & Hs & Hlen & _ & Hfiles & _).
    exists saved, fs'. split; [done|]. split; [done|].
    apply Forall2_same_length_lookup. split.
    - rewrite Hlen. by eapply Forall2_length.
    - intros k file_path c Hfp Hc.
      destruct (Forall2_lookup_r _ _ _ _ _ Hcontents Hc)
        as (batch & Hb & Hw & _).
      destruct (Hfiles k batch Hb) as [Hsaved Hfs].
      rewrite Hfp in Hsaved. injection Hsaved as ->. by rewrite Hfs. }
  assert (concat (parse_m3u <$> contents)
          = written_song <$> parse_m3u content) as Hreparse.
  { rewrite <- Hconcat. clear -Hcontents.
    induction Hcontents as [|batch c batches contents [_ Hp] _ IH]; [done|].
    rewrite fmap_cons. cbn [concat]. by rewrite fmap_app, Hp, IH. }
  destruct (truthy_text output_dir).
  - destruct (Hsave (default [] output_dir)) as (saved & fs' & -> & Hlen & Hall).
    exists saved, fs', contents. simpl. by rewrite Hlen.
  - destruct (Hsave m3u_file) as (saved & fs' & -> & Hlen & Hall).
    exists saved, fs', contents. simpl. by rewrite Hlen.
Qed.

Lemma splitter_main_reparse_witness :
  ∃ saved_files fs' contents,
    splitter_main (λ p, txt "/music/" ++ p)
      {[txt "list.m3u" := demo_playlist]} (txt "list.m3u") 2 (txt "part") None
    = Some (saved_files, fs') ∧
    length saved_files
    = range_length (length (parse_m3u demo_playlist)) (Z.to_nat 2) ∧
    Forall2 (λ file_path c, fs' !! file_path = Some c) saved_files contents ∧
    concat (parse_m3u <$> contents) = written_song <$> parse_m3u demo_playlist.
Proof.
  apply (splitter_main_reparse (λ p, txt "/music/" ++ p)
           {[txt "list.m3u" := demo_playlist]} (txt "list.m3u") demo_playlist
           2 (txt "part") None).
  - apply lookup_singleton_eq.
  - lia.
Defined.

(** With [--output-dir out] the files do not go to [out]: [main] passes that
    directory as the input path of [save_batches], which saves next to it,
    in [out_batches]. *)
Example splitter_main_output_dir :
  fst <$> splitter_main (λ p, txt "/music/" ++ p)
            {[txt "list.m3u" := demo_playlist]} (txt "list.m3u") 2 (txt "part")
            (Some (txt "out"))
  = Some [txt "/music/out_batches/part_1.m3u";
          txt "/music/out_batches/part_2.m3u"].
Proof. vm_compute. reflexivity. Qed.

(** ** More on the matcher and the mutator *)

Section matcher_more.
Implicit Types (url before rest id : text) (c : ascii).

Lemma take_while_app_stop (p : ascii → bool) (s rest : text) :
  Forall (λ c, p c = true) s →
  match rest with c :: _ => p c = false | [] => True end →
  take_while p (s ++ rest) = s.
Proof.
  intros Hs Hrest. induction Hs as [|c s Hc _ IH]; simpl.
  - destruct rest as [|c rest]; [done|]. simpl. by rewrite Hrest.
  - by rewrite Hc, IH.
Qed.

Lemma extract_track_id_from_url_first url id :
  extract_track_id_from_url url = Some id →
  ∃ before rest,
    url = before ++ txt "track/" ++ id ++ rest ∧ id ≠ [] ∧
    Forall (λ c, is_alnum c = true) id ∧
    match rest with c :: _ => is_alnum c = false | [] => True end ∧
    ∀ before' c rest',
      url = before' ++ txt "track/" ++ c :: rest' → is_alnum c = true →
      (length before ≤ length before')%nat.
Proof.
  induction url as [|a url IH]; [done|].
  cbn [extract_track_id_from_url].
  assert (extract_track_id_from_url url = Some id →
          (∀ c rest', a :: url = txt "track/" ++ c :: rest' →
                      is_alnum c = false) →
          ∃ before rest,
            a :: url = before ++ txt "track/" ++ id ++ rest ∧ id ≠ [] ∧
            Forall (λ c, is_alnum c = true) id ∧
            match rest with c :: _ => is_alnum c = false | [] => True end ∧
            ∀ before' c rest',
              a :: url = before' ++ txt "track/" ++ c :: rest' →
              is_alnum c = true → (length before ≤ length before')%nat)
    as Hrec.
  { intros (before & rest & -> & Hne & Hall & Hrest & Hfirst)%IH Hhere.
    exists (a :: before), rest. split; [done|]. split; [done|].
    split; [done|]. split; [done|].
    intros [|b before'] c rest' Heq Hc.
    - rewrite (Hhere c rest' Heq) in Hc. done.
    - injection Heq as -> Heq. simpl.
      specialize (Hfirst before' c rest' Heq Hc). lia. }
  destruct (startswith (txt "track/") (a :: url)) eqn:Hsw.
  - apply startswith_spec in Hsw as (tail & Htail).
    rewrite Htail. change (drop 6 (txt "track/" ++ tail)) with tail.
    destruct (take_while_spec is_alnum tail) as (rest & Hsplit & Hall & Hrest).
    destruct (take_while is_alnum tail) as [|d run] eqn:Hrun.
    + rewrite <- Htail. intros Hid. apply Hrec; [done|].
      intros c rest' Heq. rewrite Htail in Heq.
      apply app_inv_head in Heq. rewrite Heq in Hrun. simpl in Hrun.
      by destruct (is_alnum c).
    + intros [= <-]. exists [], rest. split; [by rewrite Hsplit at 1|].
      split; [done|]. split; [done|]. split; [done|].
      intros before' c rest' _ _. simpl. lia.
  - intros Hid. apply Hrec; [done|].
    intros c rest' Heq. rewrite Heq in Hsw.
    by rewrite startswith_app in Hsw.
Qed.
End matcher_more.

(** The id that [extract_track_id_from_url] returns is the longest run of
    letters and digits that follows the first 'track/' of the URL that is
    followed by a letter or a digit. *)
Theorem extract_track_id_from_url_leftmost (url id : text) :
  extract_track_id_from_url url = Some id →
  ∃ before rest,
    url = before ++ txt "track/" ++ id ++ rest ∧ id ≠ [] ∧
    Forall (λ c, is_alnum c = true) id ∧
    match rest with c :: _ => is_alnum c = false | [] => True end ∧
    ∀ before' c rest',
      url = before' ++ txt "track/" ++ c :: rest' → is_alnum c = true →
      (length before ≤ length before')%nat.
Proof. apply extract_track_id_from_url_first. Qed.

Lemma extract_track_id_from_url_leftmost_witness :
  ∃ before rest,
    txt "a/track/-/track/x9?y" = before ++ txt "track/" ++ txt "x9" ++ rest ∧
    txt "x9" ≠ [] ∧
    Forall (λ c, is_alnum c = true) (txt "x9") ∧
    match rest with c :: _ => is_alnum c = false | [] => True end ∧
    ∀ before' c rest',
      txt "a/track/-/track/x9?y" = before' ++ txt "track/" ++ c :: rest' →
      is_alnum c = true → (length before ≤ length before')%nat.
Proof.
  apply (extract_track_id_from_url_leftmost (txt "a/track/-/track/x9?y")).
  vm_compute. reflexivity.
Defined.

(** [extract_track_id_from_url] returns [None] exactly when no 'track/' of
    the URL is followed by a letter or a digit. *)
Theorem extract_track_id_from_url_none_iff (url : text) :
  extract_track_id_from_url url = None ↔
  ∀ before c rest, url = before ++ txt "track/" ++ c :: rest →
                   is_alnum c = false.
Proof.
  split; [apply extract_track_id_from_url_None|].
  intros Hnone.
  destruct (extract_track_id_from_url url) as [id|] eqn:Hid; [|done].
  apply extract_track_id_from_url_first
    in Hid as (before & rest & -> & Hne & Hall & _).
  destruct id as [|c id]; [done|]. apply Forall_cons in Hall as [Hc _].
  by rewrite (Hnone before c (id ++ rest) eq_refl) in Hc.
Qed.

(** A track URL in the form that the service shares,
    https://open.spotify.com/track/ followed by the id, gives that id: the
    id ends at the first character that is no letter or digit (the '?' of
    the query string). *)
Theorem extract_track_id_from_url_canonical (id rest : text) :
  id ≠ [] → Forall (λ c, is_alnum c = true) id →
  match rest with c :: _ => is_alnum c = false | [] => True end →
  extract_track_id_from_url (txt "https://open.spotify.com/track/" ++ id ++ rest)
  = Some id.
Proof.
  intros Hne Hall Hrest.
  assert (extract_track_id_from_url (txt "track/" ++ id ++ rest) = Some id)
    as Hhere.
  { change (txt "track/" ++ id ++ rest)
      with ("t"%char :: (txt "rack/" ++ id ++ rest)).
    cbn [extract_track_id_from_url].
    change ("t"%char :: (txt "rack/" ++ id ++ rest))
      with (txt "track/" ++ id ++ rest).
    rewrite startswith_app.
    change (drop 6 (txt "track/" ++ id ++ rest)) with (id ++ rest).
    rewrite take_while_app_stop by done. by destruct id. }
  change (txt "https://open.spotify.com/track/" ++ id ++ rest)
    with (txt "https://open.spotify.com/" ++ txt "track/" ++ id ++ rest).
  exact Hhere.
Qed.

Lemma extract_track_id_from_url_canonical_witness :
  extract_track_id_from_url
    (txt "https://open.spotify.com/track/" ++ txt "4uLU6hMCjMI75M1A2tKUQC"
     ++ txt "?si=1")
  = Some (txt "4uLU6hMCjMI75M1A2tKUQC").
Proof.
  apply (extract_track_id_from_url_canonical (txt "4uLU6hMCjMI75M1A2tKUQC")
           (txt "?si=1")).
  - done.
  - repeat constructor.
  - reflexivity.
Defined.

Section query_more.
Implicit Types (p b : text) (c : ascii) (s : song).

Lemma rfind_char_None c p : rfind_char c p = None ↔ c ∉ p.
Proof.
  induction p as [|a p IH]; simpl.
  - split; [intros _; apply not_elem_of_nil|done].
  - rewrite not_elem_of_cons. destruct (rfind_char c p) as [i|].
    + split; [done|]. intros [_ Hp]. by apply IH in Hp.
    + case_bool_decide as Hac.
      * split; [done|]. intros [Hne _]. by subst.
      * split; [|done]. intros _. split; [congruence|]. by apply IH.
Qed.

Lemma rfind_char_Some c p i :
  rfind_char c p = Some i → p !! i = Some c ∧ c ∉ drop (S i) p.
Proof.
  revert i. induction p as [|a p IH]; intros i; simpl; [done|].
  destruct (rfind_char c p) as [j|] eqn:Hj.
  - intros [= <-]. simpl. by apply IH.
  - case_bool_decide as Hac; [|done]. intros [= <-]. simpl.
    split; [by subst|]. rewrite drop_0. by apply rfind_char_None.
Qed.

Lemma basename_nil p : basename p = [] ↔ p = [] ∨ last p = Some "/"%char.
Proof.
  unfold basename. destruct (rfind_char "/"%char p) as [i|] eqn:Hi.
  - apply rfind_char_Some in Hi as [Hlook Hnot]. split.
    + intros Hdrop. right. rewrite last_lookup.
      apply (f_equal length) in Hdrop. rewrite length_drop in Hdrop.
      simpl in Hdrop. apply lookup_lt_Some in Hlook as Hlt.
      replace (pred (length p)) with i by lia. done.
    + intros [->|Hlast]; [done|].
      destruct (drop (S i) p) as [|x l] eqn:Hdrop using rev_ind; [done|].
      clear IHl. exfalso. apply Hnot.
      rewrite <- (take_drop (S i) p), Hdrop, (assoc_L (++)), last_snoc
        in Hlast.
      injection Hlast as ->. set_solver.
  - apply rfind_char_None in Hi. split; [by left|].
    intros [->|Hlast]; [done|]. exfalso. apply Hi.
    apply last_Some in Hlast as (l & ->). set_solver.
Qed.

Lemma splitext_root_nil b : (splitext b).1 = [] ↔ b = [].
Proof.
  split; [|by intros ->].
  unfold splitext. destruct (rfind_char "."%char b) as [dot|]; [|done].
  destruct (_ && _) eqn:Hcond; [|done]. simpl. intros Htake.
  rewrite Htake in Hcond. rewrite drop_nil in Hcond. simpl in Hcond.
  by rewrite andb_false_r in Hcond.
Qed.

Lemma extract_search_query_empty s p title artist :
  s !! "path" = Some (VStr p) →
  s !! "title" = Some (VStr title) →
  s !! "artist" = Some (VStr artist) →
  (∃ query, extract_search_query_from_song s = Some query) ∧
  (extract_search_query_from_song s = Some [] ↔
   (artist = [] ∨ title = []) ∧ (p = [] ∨ last p = Some "/"%char)).
Proof.
  intros Hp Ht Ha. unfold extract_search_query_from_song, truthy_get.
  rewrite Hp, Ht, Ha. simpl.
  destruct (negb (bool_decide (artist = []))
            && negb (bool_decide (title = []))) eqn:Hat.
  - split; [by eexists|]. split; [done|]. intros [[->| ->] _].
    + done.
    + by rewrite andb_false_r in Hat.
  - assert (artist = [] ∨ title = []) as Hor.
    { apply andb_false_iff in Hat as [H|H];
        apply negb_false_iff, bool_decide_eq_true in H; auto. }
    destruct (decide (p = [])) as [->|Hnil].
    { split; [by eexists|]. split; [|done]. auto. }
    rewrite !bool_decide_eq_false_2 by done.
    assert ((splitext (basename p)).1 = [] ↔ last p = Some "/"%char)
      as Hstem.
    { rewrite splitext_root_nil, basename_nil.
      split; [by intros [?|?]|by right]. }
    destruct (split1 _ (splitext (basename p)).1)
      as [|a [|t [|x l]]] eqn:Hsplit; (split; [by eexists|]).
    + split; [intros [= H]; apply Hstem in H; auto|].
      intros [_ [?|H]]; [done|]. apply Hstem in H. by rewrite H.
    + split; [intros [= H]; apply Hstem in H; auto|].
      intros [_ [?|H]]; [done|]. apply Hstem in H. by rewrite H.
    + split; [done|]. intros [_ [?|H]]; [done|]. apply Hstem in H.
      rewrite H in Hsplit. done.
    + split; [intros [= H]; apply Hstem in H; auto|].
      intros [_ [?|H]]; [done|]. apply Hstem in H. by rewrite H.
Qed.
End query_more.

(** For a track record whose path, title and artist are strings,
    [extract_search_query_from_song] returns a query, and the query is empty
    (the track is then reported as failed without a search) exactly when the
    artist or the title is empty and the path is empty or ends with '/'. *)
Theorem extract_search_query_from_song_empty (s : song)
  (p title artist : text) :
  s !! "path" = Some (VStr p) →
  s !! "title" = Some (VStr title) →
  s !! "artist" = Some (VStr artist) →
  (∃ query, extract_search_query_from_song s = Some query) ∧
  (extract_search_query_from_song s = Some [] ↔
   (artist = [] ∨ title = []) ∧ (p = [] ∨ last p = Some "/"%char)) ∧
  ∀ sp st,
    extract_search_query_from_song s = Some [] →
    search_track sp st s
    = BatchState (bs_count st) (bs_track_ids st) (bs_failed_tracks st ++ [s])
        (bs_log st).
Proof.
  intros Hp Ht Ha.
  destruct (extract_search_query_empty s p title artist Hp Ht Ha) as [H1 H2].
  split; [done|]. split; [done|].
  intros sp st Hq. unfold search_track. by rewrite Hq.
Qed.

Lemma extract_search_query_from_song_empty_witness :
  (∃ query,
     extract_search_query_from_song
       (mk_song (txt "music/") (txt "Only title") [] 0 (txt "Only title"))
     = Some query) ∧
  (extract_search_query_from_song
     (mk_song (txt "music/") (txt "Only title") [] 0 (txt "Only title"))
   = Some [] ↔
   (@nil ascii = [] ∨ txt "Only title" = [])
   ∧ (txt "music/" = [] ∨ last (txt "music/") = Some "/"%char)) ∧
  ∀ sp st,
    extract_search_query_from_song
      (mk_song (txt "music/") (txt "Only title") [] 0 (txt "Only title"))
    = Some [] →
    search_track sp st
      (mk_song (txt "music/") (txt "Only title") [] 0 (txt "Only title"))
    = BatchState (bs_count st) (bs_track_ids st)
        (bs_failed_tracks st
         ++ [mk_song (txt "music/") (txt "Only title") [] 0
               (txt "Only title")])
        (bs_log st).
Proof.
  apply (extract_search_query_from_song_empty
           (mk_song (txt "music/") (txt "Only title") [] 0 (txt "Only title"))
           (txt "music/") (txt "Only title") []);
    vm_compute; reflexivity.
Defined.

Section accounting.
Context (urlparse : url_parser) (sp : spotify).
Implicit Types (st : batch_state) (track : song) (tracks : list song).

Lemma search_track_log st track :
  bs_log (search_track sp st track) = bs_log st ∨
  ∃ query, bs_log (search_track sp st track) = bs_log st ++ [Search query].
Proof.
  unfold search_track.
  destruct (extract_search_query_from_song track) as [[|c q]|];
    [by left|..|by left].
  right. exists (c :: q).
  by destruct (sp_search sp (bs_log st) (c :: q)) as [[|track_id others]|].
Qed.

Lemma process_track_Some rate_limit st track st1 :
  process_track urlparse sp rate_limit st track = Some st1 →
  rate_limit ≠ 0 ∧
  ((∃ track_id, bs_track_ids st1 = bs_track_ids st ++ [track_id] ∧
                bs_failed_tracks st1 = bs_failed_tracks st) ∨
   (bs_track_ids st1 = bs_track_ids st ∧
    bs_failed_tracks st1 = bs_failed_tracks st ++ [track])) ∧
  (bs_log st1 = bs_log st ∨ ∃ query, bs_log st1 = bs_log st ++ [Search query]).
Proof.
  unfold process_track. case_bool_decide as Hrate; [done|].
  destruct (default (VStr []) (track !! "path")) as [track_path|]; [|done].
  set (st0 := BatchState (bs_count st + 1) (bs_track_ids st)
                (bs_failed_tracks st) (bs_log st)).
  assert (∀ st1, Some (search_track sp st0 track) = Some st1 →
            rate_limit ≠ 0 ∧
            ((∃ track_id, bs_track_ids st1 = bs_track_ids st ++ [track_id] ∧
                          bs_failed_tracks st1 = bs_failed_tracks st) ∨
             (bs_track_ids st1 = bs_track_ids st ∧
              bs_failed_tracks st1 = bs_failed_tracks st ++ [track])) ∧
            (bs_log st1 = bs_log st ∨
             ∃ query, bs_log st1 = bs_log st ++ [Search query])) as Hsearch.
  { intros st2 [= <-]. split; [done|]. split.
    - destruct (search_track_cases sp st0 track)
        as [(track_id & log & ->)|(log & ->)]; simpl; [left|right]; eauto.
    - apply (search_track_log st0 track). }
  destruct (is_spotify_url urlparse track_path) as [[|]|]; [|by auto|done].
  destruct (extract_track_id_from_url track_path) as [track_id|]; [|by auto].
  intros [= <-]. simpl. split; [done|]. split; [left; by eexists|by left].
Qed.

Lemma process_tracks_Some rate_limit tracks :
  ∀ st st',
    process_tracks urlparse sp rate_limit st tracks = Some st' →
    ∃ track_ids newly_failed searches,
      bs_track_ids st' = bs_track_ids st ++ track_ids ∧
      bs_failed_tracks st' = bs_failed_tracks st ++ newly_failed ∧
      bs_log st' = bs_log st ++ searches ∧
      sublist newly_failed tracks ∧
      (length track_ids + length newly_failed = length tracks)%nat ∧
      Forall is_search searches ∧
      (length searches ≤ length tracks)%nat.
Proof.
  induction tracks as [|track tracks IH]; intros st st'; simpl.
  - intros [= <-]. exists [], [], []. by rewrite !app_nil_r.
  - destruct (process_track urlparse sp rate_limit st track) as [st1|] eqn:H1;
      [|done].
    simpl. intros (ids & failed & searches & Hids & Hfailed & Hlog & Hsub
                   & Hlen & Hsearch & Hn)%IH.
    apply process_track_Some in H1 as (_ & Hres & Hlog1).
    assert (∃ first, bs_log st1 = bs_log st ++ first ∧ Forall is_search first
                     ∧ (length first ≤ 1)%nat) as (first & Hfirst & Hs1 & Hn1).
    { destruct Hlog1 as [->|(query & ->)].
      - exists []. rewrite app_nil_r. split; [done|].
        split; [constructor|simpl; lia].
      - exists [Search query]. split; [done|].
        split; [by repeat constructor|simpl; lia]. }
    assert (bs_log st' = bs_log st ++ first ++ searches) as Hlog'.
    { by rewrite Hlog, Hfirst, (assoc_L (++)). }
    assert (Forall is_search (first ++ searches)) by by apply Forall_app.
    assert (length (first ++ searches) ≤ S (length tracks))%nat
      by (rewrite length_app; lia).
    destruct Hres as [(track_id & Hids1 & Hf1)|[Hids1 Hf1]].
    + exists (track_id :: ids), failed, (first ++ searches).
      rewrite Hids, Hids1, Hfailed, Hf1, <- (assoc_L (++)).
      repeat split; try done.
      * by apply sublist_cons.
      * simpl. lia.
    + exists ids, (track :: failed), (first ++ searches).
      rewrite Hids, Hids1, Hfailed, Hf1, <- (assoc_L (++)).
      repeat split; try done.
      * by apply sublist_skip.
      * simpl. lia.
Qed.

Lemma add_batches_bounds (log : list request) (playlist_id : text)
  (batches : list (list text)) :
  ∀ log0 successful successful' log',
    add_batches sp log0 playlist_id batches successful = (successful', log') →
    log' = log0 ++ add_calls playlist_id batches ∧
    (successful ≤ successful' ≤ successful + length (concat batches))%nat ∧
    ((∀ l batch, sp_playlist_add_items sp l playlist_id batch = true) →
     successful' = (successful + length (concat batches))%nat).
Proof.
  induction batches as [|batch batches IH];
    intros log0 successful successful' log'; simpl.
  - intros [= <- <-]. rewrite app_nil_r. split; [done|]. split; lia.
  - intros (-> & Hbounds & Hall)%IH. rewrite <- (assoc_L (++)).
    split; [done|]. rewrite length_app. split.
    + destruct (sp_playlist_add_items sp log0 playlist_id batch); lia.
    + intros Hok. rewrite (Hall Hok), Hok. lia.
Qed.

Lemma process_m3u_batch_Some (log : list request) (content playlist_id : text)
  (rate_limit : Z) (added nfailed : nat) (failed : list song)
  (log' : list request) :
  process_m3u_batch urlparse sp log content playlist_id rate_limit
  = Some ((added, nfailed, failed), log') →
  ∃ track_ids searches,
    nfailed = length failed ∧
    sublist failed (parse_m3u content) ∧
    (length track_ids + length failed = length (parse_m3u content))%nat ∧
    (added ≤ length track_ids)%nat ∧
    ((∀ l batch, sp_playlist_add_items sp l playlist_id batch = true) →
     added = length track_ids) ∧
    log' = log ++ searches ++ add_calls playlist_id (batches_of_100 track_ids) ∧
    Forall is_search searches ∧
    (length searches ≤ length (parse_m3u content))%nat.
Proof.
  unfold process_m3u_batch.
  destruct (process_tracks urlparse sp rate_limit (BatchState 0 [] [] log)
              (parse_m3u content)) as [st|] eqn:Hst; [|done].
  apply process_tracks_Some in Hst
    as (ids & newly & searches & Hids & Hfailed & Hlog & Hsub & Hlen
        & Hsearch & Hn).
  simpl in Hids, Hfailed, Hlog. simpl.
  destruct (add_batches sp (bs_log st) playlist_id
              (batches_of_100 (bs_track_ids st)) 0) as [successful log1]
    eqn:Hadd.
  intros [= <- <- <- <-].
  apply (add_batches_bounds log) in Hadd as (-> & Hbounds & Hall).
  rewrite batches_of_100_concat in Hbounds, Hall.
  exists ids, searches. rewrite Hfailed, Hlog, Hids, <- (assoc_L (++)) in *.
  repeat split; try done; try lia.
Qed.
End accounting.

(** Whenever [process_m3u_batch] returns, every track of the file is
    accounted for: the failed tracks are tracks of the file in their order,
    the second component is their number, and the number of added tracks
    plus the number of failed tracks is at most the number of tracks of the
    file, and equal to it when no add call fails. *)
Theorem process_m3u_batch_accounting (urlparse : url_parser) (sp : spotify)
  (log : list request) (content playlist_id : text) (rate_limit : Z)
  (added nfailed : nat) (failed : list song) (log' : list request) :
  process_m3u_batch urlparse sp log content playlist_id rate_limit
  = Some ((added, nfailed, failed), log') →
  nfailed = length failed ∧
  sublist failed (parse_m3u content) ∧
  (added + nfailed ≤ length (parse_m3u content))%nat ∧
  ((∀ l batch, sp_playlist_add_items sp l playlist_id batch = true) →
   (added + nfailed)%nat = length (parse_m3u content)).
Proof.
  intros (ids & searches & -> & Hsub & Hlen & Hle & Hall & _)
    %process_m3u_batch_Some.
  split; [done|]. split; [done|]. split; [lia|].
  intros Hok. rewrite (Hall Hok). lia.
Qed.

Lemma process_m3u_batch_accounting_witness :
  1%nat = length (bs_failed_tracks demo_state) ∧
  sublist (bs_failed_tracks demo_state) (parse_m3u demo_playlist) ∧
  (2 + 1 ≤ length (parse_m3u demo_playlist))%nat ∧
  ((∀ l batch,
      sp_playlist_add_items demo_service l (txt "pl") batch = true) →
   (2 + 1)%nat = length (parse_m3u demo_playlist)).
Proof.
  eapply (process_m3u_batch_accounting urlparse_model demo_service []
            demo_playlist (txt "pl") 100 2 1 (bs_failed_tracks demo_state)).
  vm_compute. reflexivity.
Defined.

(** Whenever [process_m3u_batch] returns, the requests that it issued are
    searches, at most one per track of the file, followed by the add calls
    for the batches of at most 100 of the resolved identifiers; the resolved
    and the failed tracks together are the tracks of the file.  It issues no
    other request, and no search after the first add call. *)
Theorem process_m3u_batch_requests (urlparse : url_parser) (sp : spotify)
  (log : list request) (content playlist_id : text) (rate_limit : Z)
  (added nfailed : nat) (failed : list song) (log' : list request) :
  process_m3u_batch urlparse sp log content playlist_id rate_limit
  = Some ((added, nfailed, failed), log') →
  ∃ track_ids searches,
    log' = log ++ searches ++ add_calls playlist_id (batches_of_100 track_ids) ∧
    Forall is_search searches ∧
    (length searches ≤ length (parse_m3u content))%nat ∧
    (length track_ids + length failed = length (parse_m3u content))%nat.
Proof.
  intros (ids & searches & _ & _ & Hlen & _ & _ & Hlog & Hsearch & Hn)
    %process_m3u_batch_Some.
  by exists ids, searches.
Qed.

Lemma process_m3u_batch_requests_witness :
  ∃ track_ids searches,
    bs_log demo_state
    ++ add_calls (txt "pl") (batches_of_100 (bs_track_ids demo_state))
    = [] ++ searches ++ add_calls (txt "pl") (batches_of_100 track_ids) ∧
    Forall is_search searches ∧
    (length searches ≤ length (parse_m3u demo_playlist))%nat ∧
    (length track_ids + length (bs_failed_tracks demo_state)
     = length (parse_m3u demo_playlist))%nat.
Proof.
  eapply (process_m3u_batch_requests urlparse_model demo_service []
            demo_playlist (txt "pl") 100 2 1 (bs_failed_tracks demo_state)).
  vm_compute. reflexivity.
Defined.

Lemma process_tracks_None (urlparse : url_parser) (sp : spotify)
  (rate_limit : Z) (tracks : list song) :
  rate_limit ≠ 0 →
  Forall (λ track, ∃ file_path, track !! "path" = Some (VStr file_path))
    tracks →
  ∀ st, process_tracks urlparse sp rate_limit st tracks = None →
        ∃ track file_path,
          track ∈ tracks ∧ track !! "path" = Some (VStr file_path) ∧
          urlparse file_path = None.
Proof.
  intros Hrate. induction 1 as [|track tracks [p Hp] _ IH]; intros st; simpl;
    [done|].
  destruct (process_track urlparse sp rate_limit st track) as [st1|] eqn:H1;
    simpl.
  - intros (t & q & Ht & Hq & Hnone)%IH. exists t, q.
    split; [by right|done].
  - intros _. exists track, p. split; [by left|]. split; [done|].
    unfold process_track in H1. rewrite bool_decide_eq_false_2 in H1 by done.
    rewrite Hp in H1. simpl in H1. unfold is_spotify_url in H1.
    destruct (urlparse p) as [parsed|]; [|done]. simpl in H1.
    destruct (_ && _) in H1; [|done].
    by destruct (extract_track_id_from_url p).
Qed.

(** [process_m3u_batch] raises exactly when the file holds a track and
    either the rate limit is 0 (the [ZeroDivisionError] of
    [count % rate_limit]) or the URL parser raises on the path of a track
    of the file; in particular a file without a track gives (0, 0, []) and
    no request. *)
Theorem process_m3u_batch_raises_iff (urlparse : url_parser) (sp : spotify)
  (log : list request) (content playlist_id : text) (rate_limit : Z) :
  (process_m3u_batch urlparse sp log content playlist_id rate_limit = None ↔
   parse_m3u content ≠ [] ∧
   (rate_limit = 0 ∨
    ∃ track file_path,
      track ∈ parse_m3u content ∧ track !! "path" = Some (VStr file_path) ∧
      urlparse file_path = None)) ∧
  (parse_m3u content = [] →
   process_m3u_batch urlparse sp log content playlist_id rate_limit
   = Some ((0%nat, 0%nat, []), log)).
Proof.
  assert (Forall (λ track, ∃ file_path,
                    track !! "path" = Some (VStr file_path))
            (parse_m3u content)) as Hpaths.
  { eapply Forall_impl; [apply parse_m3u_parsed|].
    intros s (p & d & md & -> & _). exists p. unfold song_of.
    apply mk_song_lookup. }
  assert (process_m3u_batch urlparse sp log content playlist_id rate_limit
          = None ↔
          process_tracks urlparse sp rate_limit (BatchState 0 [] [] log)
            (parse_m3u content) = None) as ->.
  { unfold process_m3u_batch.
    destruct (process_tracks urlparse sp rate_limit _ (parse_m3u content));
      simpl; [|done].
    by destruct (add_batches sp _ playlist_id _ 0). }
  split; [split|].
  - intros Hnone. split.
    + intros Hnil. by rewrite Hnil in Hnone.
    + destruct (decide (rate_limit = 0)) as [|Hrate]; [by left|right].
      by eapply process_tracks_None.
  - intros [Hne [->|(track & p & Hin & Hp & Hnone)]].
    + destruct (parse_m3u content) as [|track tracks]; [done|]. done.
    + apply list_elem_of_split in Hin as (before & after & ->).
      by eapply process_tracks_url_error.
  - intros Hnil. unfold process_m3u_batch. by rewrite Hnil.
Qed.

(** The file of failed tracks: [create_failed_m3u] applied to the failed
    tracks that [process_m3u_batch] returns writes the text that the batch
    writer of the splitter writes for them, and parsing that file gives the
    failed tracks back (with duration 0 where the metadata is empty), so the
    file can be processed again. *)
Theorem create_failed_m3u_reparse (urlparse : url_parser) (sp : spotify)
  (log : list request) (content playlist_id : text) (rate_limit : Z)
  (added nfailed : nat) (failed : list song) (log' : list request) :
  process_m3u_batch urlparse sp log content playlist_id rate_limit
  = Some ((added, nfailed, failed), log') →
  ∃ written,
    create_failed_m3u failed = Some written ∧
    write_batch failed = Some written ∧
    parse_m3u written = written_song <$> failed.
Proof.
  intros (ids & searches & _ & Hsub & _)%process_m3u_batch_Some.
  assert (Forall parsed_song failed) as Hparsed.
  { pose proof (parse_m3u_parsed content) as Hall.
    rewrite Forall_forall in Hall |- *. intros s Hs.
    apply Hall. by eapply elem_of_sublist. }
  destruct (write_batch_reparse_any failed Hparsed) as (written & Hw & Hp).
  exists written. split; [|done]. rewrite <- Hw.
  unfold create_failed_m3u, write_batch. f_equal.
  clear - Hparsed. induction Hparsed as [|s l Hs _ IH]; [done|].
  simpl. rewrite IH. f_equal. clear IH.
  destruct Hs as (p & d & md & -> & Hp & Hmd).
  unfold failed_track_text, write_song, truthy_get, song_of.
  destruct (mk_song_lookup p (artist_title md).2 (artist_title md).1 d md)
    as (-> & -> & ->).
  assert (mk_song p (artist_title md).2 (artist_title md).1 d md !! "artist"
          = Some (VStr (artist_title md).1)) as ->
    by (unfold mk_song; by simplify_map_eq).
  assert (mk_song p (artist_title md).2 (artist_title md).1 d md !! "title"
          = Some (VStr (artist_title md).2)) as ->
    by (unfold mk_song; by simplify_map_eq).
  cbn [truthy default mbind option_bind].
  destruct (decide (md = [])) as [->|Hne].
  - rewrite artist_title_empty. done.
  - rewrite !bool_decide_eq_false_2 by done. unfold id.
    cbn [negb orb truthy]. rewrite bool_decide_eq_false_2 by done. done.
Qed.

Lemma create_failed_m3u_reparse_witness :
  ∃ written,
    create_failed_m3u (bs_failed_tracks demo_state) = Some written ∧
    write_batch (bs_failed_tracks demo_state) = Some written ∧
    parse_m3u written = written_song <$> bs_failed_tracks demo_state.
Proof.
  eapply (create_failed_m3u_reparse urlparse_model demo_service []
            demo_playlist (txt "pl") 100).
  vm_compute. reflexivity.
Defined.

(** ** More on duplicates and their removal *)

Section find_duplicates_more.
Implicit Types (tracks : list (option item)) (p q : nat) (t : track).

Lemma first_occurrence_app_l tracks it p :
  (p < length tracks)%nat →
  first_occurrence (tracks ++ [it]) p ↔ first_occurrence tracks p.
Proof.
  intros Hp. unfold first_occurrence. rewrite track_at_app_l by done.
  split; intros (t & Ht & Hfirst); exists t; (split; [done|]);
    intros q t' Hq Hqt.
  - apply (Hfirst q t' Hq). by rewrite track_at_app_l by lia.
  - apply (Hfirst q t' Hq). by rewrite track_at_app_l in Hqt by lia.
Qed.

Lemma track_at_snoc_inv tracks it p t :
  track_at (tracks ++ [it]) p = Some t →
  ((p < length tracks)%nat ∧ track_at tracks p = Some t) ∨
  (p = length tracks ∧ it ≫= item_track = Some t).
Proof.
  intros Ht. pose proof (track_at_lt _ _ _ Ht) as Hlt.
  rewrite length_app in Hlt. simpl in Hlt.
  destruct (decide (p = length tracks)) as [->|Hne].
  - right. by rewrite track_at_app_r in Ht.
  - left. assert (p < length tracks)%nat as Hp by lia.
    by rewrite track_at_app_l in Ht.
Qed.


Lemma find_duplicates_size tracks :
  (size (find_duplicates tracks).1 + length (find_duplicates tracks).2
   = length (filter (λ it, has_track it = true) tracks))%nat.
Proof.
  induction tracks as [|it tracks IH] using rev_ind; [done|].
  rewrite find_duplicates_snoc, filter_app, length_app.
  destruct (find_duplicates tracks) as [ids dups]. simpl in IH.
  unfold find_duplicates_step.
  destruct (it ≫= item_track) as [t0|] eqn:Hit.
  - assert (has_track it = true) as Hhas.
    { unfold has_track. rewrite Hit. by apply bool_decide_eq_true_2. }
    rewrite filter_cons_True by done.
    simpl. case_bool_decide as Hseen; simpl.
    + rewrite length_app. simpl. lia.
    + rewrite map_size_insert_None; [lia|].
      by apply eq_None_not_Some.
  - assert (has_track it ≠ true) as Hhas.
    { unfold has_track. rewrite Hit. rewrite bool_decide_eq_false_2; [done|].
      by intros []. }
    rewrite filter_cons_False by done. simpl. lia.
Qed.

Lemma first_or_repeats tracks p t :
  track_at tracks p = Some t → first_occurrence tracks p ∨ repeats tracks p.
Proof.
  intros Ht.
  set (same := λ q, match track_at tracks q with
                    | Some t' => bool_decide (track_id t' = track_id t)
                    | None => false
                    end).
  destruct (existsb same (seq 0 p)) eqn:Hex.
  - right. apply existsb_exists in Hex as (q & Hq & Hsame).
    apply list_elem_of_In, elem_of_seq in Hq. unfold same in Hsame.
    destruct (track_at tracks q) as [t'|] eqn:Hqt; [|done].
    apply bool_decide_eq_true in Hsame.
    exists t. split; [done|]. exists q, t'. split; [lia|done].
  - left. exists t. split; [done|]. intros q t' Hq Hqt Hid.
    assert (existsb same (seq 0 p) = true) as Htrue; [|congruence].
    apply existsb_exists. exists q. split.
    + apply list_elem_of_In, elem_of_seq. lia.
    + unfold same. rewrite Hqt. by apply bool_decide_eq_true_2.
Qed.

Lemma earliest_occurrence tracks p t :
  track_at tracks p = Some t →
  ∃ q t', (q ≤ p)%nat ∧ track_at tracks q = Some t' ∧
          track_id t' = track_id t ∧ first_occurrence tracks q.
Proof.
  revert t. induction (lt_wf p) as [p _ IH]. intros t Ht.
  destruct (first_or_repeats tracks p t Ht)
    as [Hfirst|(t0 & Ht0 & q & t' & Hq & Hqt & Hid)].
  - by exists p, t.
  - assert (t0 = t) as -> by congruence.
    destruct (IH q Hq t' Hqt) as (q' & t'' & Hq' & Hqt' & Hid' & Hfirst).
    exists q', t''. split; [lia|]. split; [done|]. split; [congruence|done].
Qed.
End find_duplicates_more.



Section remove_duplicates_more.
Context (sp : spotify) (playlist_id : text).
Implicit Types (tracks : list (option item)) (ps : list nat).

Lemma remove_batches_total (batches : list (list removal)) :
  ∀ log count,
    remove_batches sp log playlist_id batches count
    = ((count + removed_total sp log playlist_id batches)%nat,
       log ++ (PlaylistRemoveSpecificOccurrences playlist_id <$> batches)).
Proof.
  induction batches as [|batch batches IH]; intros log count; simpl.
  - by rewrite Nat.add_0_r, app_nil_r.
  - rewrite IH, <- (assoc_L (++)). simpl. f_equal.
    destruct (sp_playlist_remove_specific_occurrences_of_items sp log
                playlist_id batch); lia.
Qed.

Lemma removed_total_bounds (batches : list (list removal)) :
  ∀ log,
    (removed_total sp log playlist_id batches ≤ length (concat batches))%nat ∧
    ((∀ l batch,
        sp_playlist_remove_specific_occurrences_of_items sp l playlist_id batch
        = true) →
     removed_total sp log playlist_id batches = length (concat batches)).
Proof.
  induction batches as [|batch batches IH]; intros log; simpl; [done|].
  rewrite length_app.
  destruct (IH (log ++ [PlaylistRemoveSpecificOccurrences playlist_id batch]))
    as [Hle Hall].
  split.
  - destruct (sp_playlist_remove_specific_occurrences_of_items sp log
                playlist_id batch); lia.
  - intros Hok. rewrite Hok, (Hall Hok). done.
Qed.

Lemma tracks_to_remove_None tracks ps :
  tracks_to_remove tracks ps = None ↔ ∃ p, p ∈ ps ∧ tracks !! p = Some None.
Proof.
  induction ps as [|p ps IH]; simpl.
  - split; [done|]. by intros (p & ?%elem_of_nil & _).
  - destruct (removal_entry tracks p) as [e|] eqn:He; simpl.
    + assert (tracks !! p ≠ Some None) as Hp.
      { intros Hp. unfold removal_entry in He. by rewrite Hp in He. }
      destruct (tracks_to_remove tracks ps) as [es|]; simpl.
      * split; [done|]. intros (q & [->|Hq]%elem_of_cons & Hnone); [done|].
        assert (Some es = None) as H by (apply IH; eauto). done.
      * split; [|done]. intros _.
        destruct IH as [IH _]. destruct (IH eq_refl) as (q & Hq & Hnone).
        exists q. split; [by right|done].
    + split; [|done]. intros _. exists p. split; [by left|].
      unfold removal_entry in He.
      destruct (tracks !! p) as [[it|]|]; [|done|done].
      destruct (item_track it) as [t|]; [|done].
      by destruct (track_uri t) as [[|c u]|].
Qed.

Lemma tracks_to_remove_length tracks ps entries :
  tracks_to_remove tracks ps = Some entries →
  (length entries ≤ length ps)%nat.
Proof.
  revert entries. induction ps as [|p ps IH]; intros entries; simpl.
  - by intros [= <-].
  - destruct (removal_entry tracks p) as [e|] eqn:He; [|done]. simpl.
    destruct (tracks_to_remove tracks ps) as [es|]; [|done]. simpl.
    intros [= <-]. rewrite length_app. specialize (IH es eq_refl).
    assert (length e ≤ 1)%nat; [|lia].
    unfold removal_entry in He.
    destruct (tracks !! p) as [[it|]|]; simplify_eq; simpl; try lia.
    destruct (item_track it) as [t|]; simplify_eq; simpl; try lia.
    destruct (track_uri t) as [[|c u]|]; simplify_eq; simpl; lia.
Qed.


End remove_duplicates_more.


(** ** Splitting texts, and the playlist given as a URL *)

Section split.
Implicit Types (sep s a b : text) (c : ascii).

Lemma find_nil sep : sep ≠ [] → find sep [] = None.
Proof. by destruct sep. Qed.

Lemma find_is_Some sep s : is_Some (find sep s) ↔ ∃ a b, s = a ++ sep ++ b.
Proof.
  split.
  - intros [i Hi]. apply find_spec in Hi. eauto.
  - intros (a & b & ->). induction a as [|c a IH]; simpl.
    + pose proof (startswith_app sep b) as Hsw.
      destruct (sep ++ b); simpl; rewrite Hsw; by eexists.
    + destruct (startswith sep (c :: a ++ sep ++ b)); [by eexists|].
      destruct IH as [i ->]. by eexists.
Qed.

Lemma find_lookup sep s i k c :
  find sep s = Some i → sep !! k = Some c → s !! (i + k)%nat = Some c.
Proof.
  intros Hs%find_spec Hk. rewrite Hs.
  assert (i < length s ∨ sep = [])%nat as [Hi| ->];
    [| |by rewrite lookup_nil in Hk].
  { destruct (decide (i < length s)%nat); [by left|right].
    rewrite take_ge in Hs by lia. apply (f_equal length) in Hs.
    rewrite !length_app in Hs. destruct sep; [done|simpl in Hs; lia]. }
  rewrite lookup_app_r by (rewrite length_take; lia).
  rewrite length_take. replace (i + k - i `min` length s)%nat with k by lia.
  by rewrite lookup_app_l by by eapply lookup_lt_Some.
Qed.

Lemma split_loop_head fuel sep s :
  sep ≠ [] → (length s ≤ fuel)%nat →
  ∃ tail, split_loop fuel sep s = before sep s :: tail.
Proof.
  intros Hsep Hfuel. unfold before. destruct fuel as [|fuel]; simpl.
  - destruct s; [|simpl in Hfuel; lia]. rewrite find_nil by done. by eexists.
  - destruct (find sep s); by eexists.
Qed.

Lemma split_lookup_0 sep s : sep ≠ [] → split sep s !! 0%nat = Some (before sep s).
Proof.
  intros Hsep. unfold split.
  by destruct (split_loop_head (length s) sep s Hsep) as [tail ->].
Qed.

Lemma split_lookup_1 sep s i :
  sep ≠ [] → find sep s = Some i →
  split sep s !! 1%nat = Some (before sep (drop (i + length sep) s)).
Proof.
  intros Hsep Hi. unfold split.
  assert (length s ≠ 0)%nat as Hlen.
  { intros Hnil. apply length_zero_iff_nil in Hnil. subst.
    by rewrite find_nil in Hi. }
  destruct (length s) as [|fuel] eqn:Hs; [done|]. simpl. rewrite Hi. simpl.
  destruct (split_loop_head fuel sep (drop (i + length sep) s) Hsep)
    as [tail ->]; [|done].
  rewrite length_drop. destruct sep; [done|]. simpl. lia.
Qed.

Lemma split_loop_enough sep fuel1 :
  sep ≠ [] →
  ∀ fuel2 s, (length s ≤ fuel1)%nat → (length s ≤ fuel2)%nat →
             split_loop fuel1 sep s = split_loop fuel2 sep s.
Proof.
  intros Hsep. induction fuel1 as [|fuel1 IH]; intros fuel2 s H1 H2.
  - destruct s; [|simpl in H1; lia]. destruct fuel2; cbn [split_loop]; [done|].
    by rewrite find_nil.
  - destruct fuel2 as [|fuel2].
    + destruct s; [|simpl in H2; lia]. cbn [split_loop]. by rewrite find_nil.
    + cbn [split_loop]. destruct (find sep s) as [i|] eqn:Hi; [|done]. f_equal.
      assert (length s ≠ 0)%nat.
      { intros Hnil. apply length_zero_iff_nil in Hnil. subst.
        by rewrite find_nil in Hi. }
      apply IH; rewrite length_drop; destruct sep; try done; simpl; lia.
Qed.

Lemma split_cons sep s i :
  sep ≠ [] → find sep s = Some i →
  split sep s = take i s :: split sep (drop (i + length sep) s).
Proof.
  intros Hsep Hi. unfold split.
  destruct (length s) as [|fuel] eqn:Hs.
  - apply length_zero_iff_nil in Hs. subst. by rewrite find_nil in Hi.
  - cbn [split_loop]. rewrite Hi. f_equal.
    apply split_loop_enough; [done| |done].
    rewrite length_drop. destruct sep; [done|]. simpl. lia.
Qed.

Lemma split_None sep s : find sep s = None → split sep s = [s].
Proof.
  intros Hs. unfold split. destruct (length s); cbn [split_loop]; [done|].
  by rewrite Hs.
Qed.

(** The id at the end of a URL: the text after a marker that ends with '/',
    up to the query string. *)
Lemma id_before_query sep id rest :
  last sep = Some "/"%char → "?"%char ∉ sep →
  "/"%char ∉ id → "?"%char ∉ id →
  match rest with c :: _ => c = "?"%char | [] => True end →
  before (txt "?") (before sep (id ++ rest)) = id.
Proof.
  intros Hlast Hsep Hslash Hquery Hrest.
  assert (sep !! pred (length sep) = Some "/"%char) as Hend
    by by rewrite <- last_lookup.
  assert (sep ≠ []) as Hne by (by intros ->).
  destruct rest as [|c rest].
  - rewrite app_nil_r. unfold before at 2.
    destruct (find sep id) as [j|] eqn:Hj.
    + exfalso. apply Hslash.
      eapply list_elem_of_lookup_2, find_lookup; done.
    + unfold before. change (txt "?") with ["?"%char].
      by rewrite find_char_None.
  - subst c. unfold before at 2.
    destruct (find sep (id ++ "?"%char :: rest)) as [j|] eqn:Hj.
    + assert (length id < j)%nat as Hlt.
      { destruct (decide (length id < j)%nat) as [|Hge]; [done|]. exfalso.
        destruct (decide (j + pred (length sep) < length id)%nat) as [Hin|Hout].
        - apply Hslash.
          pose proof (find_lookup _ _ _ _ _ Hj Hend) as Hl.
          rewrite lookup_app_l in Hl by done.
          by eapply list_elem_of_lookup_2.
        - assert (length id - j < length sep)%nat as Hk
            by (destruct sep; [done|simpl in *; lia]).
          apply lookup_lt_is_Some in Hk as [c Hc].
          pose proof (find_lookup _ _ _ _ _ Hj Hc) as Hl.
          replace (j + (length id - j))%nat with (length id) in Hl by lia.
          rewrite list_lookup_middle in Hl by done. injection Hl as <-.
          apply Hsep. by eapply list_elem_of_lookup_2. }
      rewrite take_app_ge by lia.
      destruct (j - length id)%nat as [|k] eqn:Hk; [lia|]. simpl.
      unfold before. change (txt "?") with ["?"%char].
      rewrite find_char_app by done. by rewrite take_app_length.
    + unfold before. change (txt "?") with ["?"%char].
      rewrite find_char_app by done. by rewrite take_app_length.
Qed.
End split.

(** The playlist argument of the deduplicator: an argument that does not
    hold 'spotify.com/playlist/' is taken as the id itself; a playlist URL
    https://open.spotify.com/playlist/ID, with or without a query string,
    gives ID; and the extraction never raises. *)
Theorem playlist_id_of_argument_spec :
  (∀ argument, is_Some (playlist_id_of_argument argument)) ∧
  (∀ argument,
     contains (txt "spotify.com/playlist/") argument = false →
     playlist_id_of_argument argument = Some argument) ∧
  (∀ id rest,
     "/"%char ∉ id → "?"%char ∉ id →
     match rest with c :: _ => c = "?"%char | [] => True end →
     playlist_id_of_argument
       (txt "https://open.spotify.com/playlist/" ++ id ++ rest) = Some id).
Proof.
  split; [|split].
  - intros argument. unfold playlist_id_of_argument.
    destruct (contains _ argument) eqn:Hc; [|by eexists].
    apply bool_decide_eq_true, find_is_Some in Hc as (a & b & ->).
    assert (is_Some (find (txt "playlist/")
                       (a ++ txt "spotify.com/playlist/" ++ b))) as [i Hi].
    { apply find_is_Some. exists (a ++ txt "spotify.com/"), b.
      by rewrite <- (assoc_L (++)). }
    rewrite (split_lookup_1 _ _ i) by done. simpl.
    rewrite split_lookup_0 by done. by eexists.
  - intros argument Hc. unfold playlist_id_of_argument. by rewrite Hc.
  - intros id rest Hslash Hquery Hrest. unfold playlist_id_of_argument.
    assert (contains (txt "spotify.com/playlist/")
              (txt "https://open.spotify.com/playlist/" ++ id ++ rest) = true)
      as ->.
    { apply bool_decide_eq_true, find_is_Some.
      by exists (txt "https://open."), (id ++ rest). }
    rewrite (split_lookup_1 _ _ 25) by done. simpl.
    rewrite split_lookup_0 by done. f_equal.
    apply (id_before_query (txt "playlist/")); try done.
    vm_compute. intros H. by repeat (apply elem_of_cons in H as [H|H]; [done|]);
      apply elem_of_nil in H.
Qed.

Lemma resolve_identifier_is_Some (e : entry) : is_Some (resolve_identifier e).
Proof.
  revert e.
  intros [i n f|e|]; cbn [resolve_identifier]; [by eexists| |by eexists].
  destruct (startswith (txt "spotify:playlist:") (strip e)).
  { destruct (split_loop_head (length (strip e)) (txt ":") (strip e))
      as [tail Htail]; [done..|].
    unfold split. rewrite Htail.
    destruct (last (before (txt ":") (strip e) :: tail)) eqn:Hlast;
      [by eexists|].
    by apply last_None in Hlast. }
  destruct (contains (txt "open.spotify.com/playlist/") (strip e)) eqn:Hc.
  { apply bool_decide_eq_true in Hc as Hfind. destruct Hfind as [i Hi].
    rewrite (split_lookup_1 _ _ i) by done. simpl.
    rewrite split_lookup_0 by done. by eexists. }
  destruct (is_playlist_id (strip e)); by eexists.
Qed.

(** How [resolve_identifier] reads a configuration entry given as a string:
    it never raises; a playlist URI spotify:playlist:ID and a playlist URL
    https://open.spotify.com/playlist/ID, with or without a query string,
    give the id ID; a text of 22 letters and digits is taken as an id; here
    the entry is taken without its surrounding whitespace. *)
Theorem resolve_identifier_spec :
  (∀ e, is_Some (resolve_identifier e)) ∧
  (∀ e id,
     strip e = txt "spotify:playlist:" ++ id → ":"%char ∉ id →
     resolve_identifier (EntryStr e) = Some (Identifier (Some id) None)) ∧
  (∀ e id rest,
     strip e = txt "https://open.spotify.com/playlist/" ++ id ++ rest →
     "/"%char ∉ id → "?"%char ∉ id →
     match rest with c :: _ => c = "?"%char | [] => True end →
     resolve_identifier (EntryStr e) = Some (Identifier (Some id) None)) ∧
  (∀ e,
     is_playlist_id (strip e) = true →
     resolve_identifier (EntryStr e)
     = Some (Identifier (Some (strip e)) None)).
Proof.
  split; [|split; [|split]].
  - apply resolve_identifier_is_Some.
  - intros e id Hstrip Hcolon. cbn [resolve_identifier]. rewrite Hstrip.
    rewrite startswith_app.
    rewrite (split_cons _ _ 7) by done.
    change (drop _ (txt "spotify:playlist:" ++ id)) with (txt "playlist:" ++ id).
    rewrite (split_cons _ _ 8) by done.
    change (drop _ (txt "playlist:" ++ id)) with id.
    change (txt ":") with [":"%char].
    rewrite split_None by by apply find_char_None.
    done.
  - intros e id rest Hstrip Hslash Hquery Hrest. cbn [resolve_identifier].
    rewrite Hstrip.
    change (startswith _ _) with false at 1. cbv iota.
    assert (contains (txt "open.spotify.com/playlist/")
              (txt "https://open.spotify.com/playlist/" ++ id ++ rest) = true)
      as ->.
    { apply bool_decide_eq_true, find_is_Some.
      by exists (txt "https://"), (id ++ rest). }
    rewrite (split_lookup_1 _ _ 8) by done.
    change (drop _ (txt "https://open.spotify.com/playlist/" ++ id ++ rest))
      with (id ++ rest).
    cbn [mbind option_bind]. rewrite split_lookup_0 by done.
    cbn [mbind option_bind]. do 3 f_equal.
    apply (id_before_query (txt "open.spotify.com/playlist/")); try done.
    vm_compute. intros H. by repeat (apply elem_of_cons in H as [H|H]; [done|]);
      apply elem_of_nil in H.
  - intros e Hid. cbn [resolve_identifier].
    apply andb_true_iff in Hid as Hparts. destruct Hparts as [Hlen Hall].
    apply bool_decide_eq_true in Hlen. rewrite forallb_forall in Hall.
    assert (startswith (txt "spotify:playlist:") (strip e) = false) as ->.
    { destruct (startswith _ (strip e)) eqn:Hsw; [|done].
      apply startswith_spec in Hsw as [tail Htail].
      assert (In ":"%char (strip e)) as Hin.
      { rewrite Htail. apply list_elem_of_In. set_solver. }
      by apply Hall in Hin. }
    assert (contains (txt "open.spotify.com/playlist/") (strip e) = false)
      as ->.
    { apply bool_decide_eq_false. intros (a & b & Hab)%find_is_Some.
      apply (f_equal length) in Hab. rewrite !length_app in Hab.
      simpl in Hab. lia. }
    by rewrite Hid.
Qed.

(** ** Folder names: [slugify] *)

Section slugify.
Implicit Types (s : text) (c : ascii).

Lemma slug_safe_facts c :
  slug_safe c = true →
  isspace c = false ∧ lower_char c = c ∧ slug_char c = true ∧
  slug_separator c = false ∧ c ≠ "/"%char ∧ c ≠ "."%char.
Proof. destruct c as [[] [] [] [] [] [] [] []]; vm_compute; done. Qed.

Lemma slug_char_safe c :
  slug_char c = true → slug_separator c = false → slug_safe c = true.
Proof. destruct c as [[] [] [] [] [] [] [] []]; vm_compute; done. Qed.

Lemma sub_runs_safe s in_run :
  Forall (λ c, slug_char c = true) s →
  Forall (λ c, slug_safe c = true)
    (sub_runs slug_separator (txt "-") in_run s).
Proof.
  intros Hs. revert in_run. induction Hs as [|c s Hc _ IH]; intros in_run;
    simpl; [done|].
  destruct (slug_separator c) eqn:Hsep.
  - destruct in_run; simpl; [done|]. by constructor.
  - constructor; [by apply slug_char_safe|done].
Qed.

Lemma sub_runs_id s in_run :
  Forall (λ c, slug_separator c = false) s →
  sub_runs slug_separator (txt "-") in_run s = s.
Proof.
  intros Hs. revert in_run. induction Hs as [|c s Hc _ IH]; intros in_run;
    simpl; [done|].
  by rewrite Hc, IH.
Qed.

Lemma filter_all {A} (P : A → Prop) `{!∀ x, Decision (P x)} (l : list A) :
  Forall P l → filter P l = l.
Proof.
  induction 1 as [|x l Hx _ IH]; [done|].
  by rewrite filter_cons_True, IH.
Qed.

Lemma slugify_safe value : Forall (λ c, slug_safe c = true) (slugify value).
Proof.
  unfold slugify. case_bool_decide as Hnil.
  - by repeat constructor.
  - apply Forall_take, sub_runs_safe, Forall_forall.
    by intros c [Hc _]%list_elem_of_filter.
Qed.

Lemma slugify_fixed s :
  s ≠ [] → (length s ≤ 60)%nat → Forall (λ c, slug_safe c = true) s →
  slugify s = s.
Proof.
  intros Hne Hlen Hsafe. unfold slugify.
  assert (strip s = s) as ->.
  { apply strip_with_id.
    - destruct Hsafe as [|c s Hc _]; [done|]. simpl.
      by apply slug_safe_facts in Hc as (-> & _).
    - unfold no_trail. apply Forall_reverse in Hsafe.
      destruct Hsafe as [|c r Hc _]; [done|]. simpl.
      by apply slug_safe_facts in Hc as (-> & _). }
  assert (lower s = s) as ->.
  { clear Hne Hlen. unfold lower. induction Hsafe as [|c s Hc _ IH]; [done|].
    rewrite fmap_cons. apply slug_safe_facts in Hc as (_ & -> & _).
    by f_equal. }
  rewrite filter_all.
  2:{ eapply Forall_impl; [done|]. intros c Hc.
      by apply slug_safe_facts in Hc as (_ & _ & -> & _). }
  rewrite sub_runs_id.
  2:{ eapply Forall_impl; [done|]. intros c Hc.
      by apply slug_safe_facts in Hc as (_ & _ & _ & -> & _). }
  rewrite take_ge by done. by rewrite bool_decide_eq_false_2.
Qed.
End slugify.

(** The folder name that [slugify] builds from a playlist name is never
    empty, has at most 60 characters, consists of lowercase letters, digits
    and hyphens only (so it holds no path separator, no dot and no white
    space), and [slugify] leaves it unchanged. *)
Theorem slugify_spec (value : text) :
  slugify value ≠ [] ∧
  (length (slugify value) ≤ 60)%nat ∧
  Forall (λ c, slug_safe c = true ∧ c ≠ "/"%char ∧ c ≠ "."%char
               ∧ isspace c = false) (slugify value) ∧
  slugify (slugify value) = slugify value.
Proof.
  assert (slugify value ≠ []) as Hne.
  { unfold slugify. by case_bool_decide. }
  assert (length (slugify value) ≤ 60)%nat as Hlen.
  { unfold slugify. case_bool_decide; [simpl; lia|].
    rewrite length_take. lia. }
  pose proof (slugify_safe value) as Hsafe.
  split; [done|]. split; [done|]. split.
  - eapply Forall_impl; [done|]. intros c Hc. split; [done|].
    by apply slug_safe_facts in Hc as (? & _ & _ & _ & ? & ?).
  - by apply slugify_fixed.
Qed.

(** ** The playlists to export: [determine_playlist_exports] *)

Section exports.
Context (casefold : text → text).
Implicit Types (playlists : list playlist) (p : playlist) (e : entry).

Lemma by_id_lookup playlists i p :
  by_id playlists !! i = Some p → p ∈ playlists ∧ pl_id p = i.
Proof.
  unfold by_id. induction playlists as [|x playlists IH] using rev_ind.
  - simpl. by rewrite lookup_empty.
  - rewrite foldl_app. simpl.
    destruct (decide (pl_id x = i)) as [<-|Hne].
    + rewrite lookup_insert_eq. intros [= <-]. split; [|done].
      apply elem_of_app. right. by left.
    + rewrite lookup_insert_ne by done. intros [Hp Hi]%IH. split; [|done].
      apply elem_of_app. by left.
Qed.

Lemma name_map_lookup playlists k l p :
  name_map casefold playlists !! k = Some l → p ∈ l → p ∈ playlists.
Proof.
  unfold name_map. revert k l.
  induction playlists as [|x playlists IH] using rev_ind; intros k l.
  - simpl. by rewrite lookup_empty.
  - rewrite foldl_app. simpl.
    destruct (decide (name_key casefold x = k)) as [<-|Hne].
    + rewrite lookup_insert_eq. intros [= <-] [Hp|Hp]%elem_of_app.
      * destruct (foldl _ ∅ playlists !! name_key casefold x) as [l'|] eqn:Hl;
          simpl in Hp; [|by apply elem_of_nil in Hp].
        apply elem_of_app. left. by eapply IH.
      * apply elem_of_app. by right.
    + rewrite lookup_insert_ne by done. intros Hl Hp.
      apply elem_of_app. left. by eapply IH.
Qed.

Lemma find_playlist_elem playlists details p :
  find_playlist casefold playlists details = Some p → p ∈ playlists.
Proof.
  unfold find_playlist. destruct (truthy_text (ident_id details)).
  - by intros [? _]%by_id_lookup.
  - destruct (truthy_text (ident_name details)); [|done].
    destruct (name_map casefold playlists !! _) as [l|] eqn:Hl; [|done].
    simpl. destruct l as [|x [|y l]]; [done| |done]. intros [= <-].
    eapply name_map_lookup; [done|]. by left.
Qed.

Lemma parse_format_formats value : parse_format value ∈ export_formats.
Proof.
  unfold parse_format, export_formats. cbv zeta.
  set (normalized := lower _).
  case_bool_decide; [by left|].
  destruct (decide (normalized = txt "json")) as [->|Hjson].
  { right. by left. }
  destruct (decide (normalized = txt "m3u")) as [->|Hm3u].
  { right. right. by left. }
  rewrite !bool_decide_eq_false_2 by done. by left.
Qed.

Lemma resolve_ids_spec playlists entries :
  ∃ ids, resolve_ids casefold playlists entries = Some ids ∧
         ∀ i, i ∈ ids ↔ resolves_to casefold playlists entries i.
Proof.
  induction entries as [|e entries (ids & Hids & Hspec)]; simpl.
  - exists []. split; [done|]. intros i. split; [by intros ?%elem_of_nil|].
    by intros (e & ? & ? & ?%elem_of_nil & _).
  - destruct (resolve_identifier_is_Some e) as [details Hd].
    rewrite Hd, Hids. simpl. eexists. split; [done|]. intros i.
    assert (resolves_to casefold playlists (e :: entries) i ↔
            (∃ p, find_playlist casefold playlists details = Some p
                  ∧ pl_id p = i) ∨
            resolves_to casefold playlists entries i) as ->.
    { unfold resolves_to. split.
      - intros (e' & d & p & [->|He]%elem_of_cons & Hr & Hf & Hi).
        + left. exists p. split; [congruence|done].
        + right. by exists e', d, p.
      - intros [(p & Hf & Hi)|(e' & d & p & He & H)].
        + exists e, details, p. split; [by left|done].
        + exists e', d, p. split; [by right|done]. }
    rewrite <- Hspec.
    destruct (find_playlist casefold playlists details) as [p|].
    + rewrite elem_of_cons. split.
      * intros [->|?]; [left; by exists p|by right].
      * intros [(p' & [= <-] & Hi)|?]; [by left|by right].
    + split; [by right|]. by intros [(p & ? & _)|?].
Qed.

Lemma selected_exports_spec playlists default_format entries :
  ∃ exports,
    selected_exports casefold playlists default_format entries = Some exports ∧
    (length exports ≤ length entries)%nat ∧
    ∀ x, x ∈ exports →
      (∃ p, p ∈ playlists ∧ export_id x = pl_id p ∧ export_name x = pl_name p)
      ∧ export_format x ∈ export_formats.
Proof.
  induction entries as [|e entries (exports & Hexports & Hlen & Hspec)];
    simpl.
  - exists []. split; [done|]. split; [done|]. by intros x ?%elem_of_nil.
  - unfold selected_export.
    destruct (resolve_identifier_is_Some e) as [details Hd].
    rewrite Hd, Hexports. simpl.
    set (pair := match e with
                 | EntryDict _ n f => _
                 | _ => _
                 end).
    destruct pair as [details' entry_format] eqn:Hpair. simpl.
    assert (entry_format ∈ export_formats) as Hformat.
    { subst pair. destruct e; injection Hpair as _ <-;
        apply parse_format_formats. }
    eexists. split; [done|].
    destruct (find_playlist casefold playlists details') as [p|] eqn:Hp.
    + split; [simpl; lia|]. intros x [->|Hx]%elem_of_cons; [|by apply Hspec].
      split; [|done]. exists p. split; [|done]. by eapply find_playlist_elem.
    + split; [simpl; lia|]. done.
Qed.
End exports.

(** [determine_playlist_exports] never raises, whatever the entries of the
    configuration are; every export that it plans carries the id and the
    name of one of the user's playlists and one of the formats json+m3u,
    json, m3u; outside the mode 'all' it plans at most one export per
    selected entry. *)
Theorem determine_playlist_exports_sound (casefold : text → text)
  (playlists : list playlist) (config : config) :
  ∃ exports,
    determine_playlist_exports casefold playlists config = Some exports ∧
    (∀ x, x ∈ exports →
       (∃ p, p ∈ playlists ∧ export_id x = pl_id p ∧
             export_name x = pl_name p) ∧
       export_format x ∈ export_formats) ∧
    (config_mode config ≠ txt "all" →
     (length exports ≤ length (config_selected_playlists config))%nat).
Proof.
  unfold determine_playlist_exports. case_bool_decide as Hmode.
  - destruct (resolve_ids_spec casefold playlists
                (config_exclude_playlists config)) as (ids & -> & _).
    simpl. eexists. split; [done|]. split; [|done].
    intros x (p & -> & Hp)%list_elem_of_fmap. simpl.
    apply list_elem_of_filter in Hp as [_ Hp].
    split; [by exists p|apply parse_format_formats].
  - destruct (selected_exports_spec casefold playlists
                (config_default_format config)
                (config_selected_playlists config))
      as (exports & -> & Hlen & Hspec).
    exists exports. done.
Qed.

(** In the mode 'all', the planned exports are the user's playlists in
    their order, each with the default format, without the playlists whose
    id an entry of [exclude_playlists] resolves to; without such entries
    every playlist is exported. *)
Theorem determine_playlist_exports_all (casefold : text → text)
  (playlists : list playlist) (config : config) :
  config_mode config = txt "all" →
  ∃ kept,
    determine_playlist_exports casefold playlists config
    = Some ((λ p, Export (pl_id p) (pl_name p)
                    (parse_format (config_default_format config))) <$> kept) ∧
    sublist kept playlists ∧
    (∀ p, p ∈ kept ↔
          p ∈ playlists ∧
          ¬ resolves_to casefold playlists (config_exclude_playlists config)
              (pl_id p)) ∧
    (config_exclude_playlists config = [] → kept = playlists).
Proof.
  intros Hmode. unfold determine_playlist_exports.
  rewrite bool_decide_eq_true_2 by done.
  destruct (resolve_ids_spec casefold playlists
              (config_exclude_playlists config)) as (ids & Hids & Hspec).
  rewrite Hids. simpl. eexists. split; [done|].
  split; [apply sublist_filter|]. split.
  - intros p. rewrite list_elem_of_filter, elem_of_list_to_set, Hspec.
    tauto.
  - intros Hnil. rewrite Hnil in Hids. simpl in Hids. injection Hids as <-.
    apply filter_all. apply Forall_forall. intros p _. set_solver.
Qed.

Lemma determine_playlist_exports_all_witness :
  ∃ kept,
    determine_playlist_exports lower demo_playlists demo_config
    = Some ((λ p, Export (pl_id p) (pl_name p)
                    (parse_format (config_default_format demo_config)))
              <$> kept) ∧
    sublist kept demo_playlists ∧
    (∀ p, p ∈ kept ↔
          p ∈ demo_playlists ∧
          ¬ resolves_to lower demo_playlists
              (config_exclude_playlists demo_config) (pl_id p)) ∧
    (config_exclude_playlists demo_config = [] → kept = demo_playlists).
Proof.
  apply (determine_playlist_exports_all lower demo_playlists demo_config).
  reflexivity.
Defined.

Example determine_playlist_exports_demo :
  determine_playlist_exports lower demo_playlists demo_config
  = Some [Export (txt "p2") (Some (txt "Chill")) [txt "m3u"];
          Export (txt "p3") (Some (txt "chill")) [txt "m3u"]].
Proof. vm_compute. reflexivity. Qed.

(** ** The playlist file of a backup: [write_m3u] *)

Section write_m3u_parse.
Context (int_div_1000 : Z → option Z).
Implicit Types (track : normalized) (tracks : list normalized).

Lemma join_lines (lines : list text) (l : text) :
  join [LF] (l :: lines) ++ [LF] = concat ((λ x, x ++ [LF]) <$> (l :: lines)).
Proof.
  revert l. induction lines as [|l' lines IH]; intros l.
  - simpl. by rewrite app_nil_r.
  - change (join [LF] (l :: l' :: lines))
      with (l ++ [LF] ++ join [LF] (l' :: lines)).
    rewrite <- !(assoc_L (++)), IH. rewrite !fmap_cons. cbn [concat].
    by rewrite <- !(assoc_L (++)).
Qed.

Lemma m3u_name_nonempty track : m3u_name track ≠ [].
Proof.
  unfold m3u_name. destruct (n_name track) as [[|c s]|]; done.
Qed.

Lemma m3u_metadata_nonempty artists track :
  m3u_metadata artists (m3u_name track) ≠ [].
Proof.
  unfold m3u_metadata. pose proof (m3u_name_nonempty track).
  destruct (bool_decide (artists = [])) eqn:Ha; simpl; [done|].
  apply bool_decide_eq_false in Ha. by destruct artists.
Qed.

Lemma m3u_lines_song track lines :
  m3u_lines int_div_1000 track = Some lines →
  ∃ p d md,
    m3u_song int_div_1000 track = Some (song_of p d md) ∧
    p = m3u_location track ∧ md ≠ [] ∧
    (∀ artists, m3u_artists track = Some artists →
                md = m3u_metadata artists (m3u_name track)) ∧
    write_song (song_of p d md)
    = Some (concat ((λ x, x ++ [LF]) <$> lines)).
Proof.
  unfold m3u_lines, m3u_song.
  destruct (m3u_artists track) as [artists|]; [|done]. simpl.
  destruct (m3u_duration int_div_1000 track) as [d|]; [|done]. simpl.
  intros [= <-]. eexists _, _, _. split; [done|]. split; [done|].
  split; [apply m3u_metadata_nonempty|]. split; [by intros ? [= <-]|].
  rewrite write_song_song_of. unfold song_lines.
  rewrite bool_decide_eq_false_2 by apply m3u_metadata_nonempty.
  unfold extinf_text. simpl. rewrite !app_nil_r.
  by rewrite <- !(assoc_L (++)).
Qed.

Lemma write_m3u_write_batch tracks written :
  write_m3u int_div_1000 tracks = Some written →
  Forall m3u_clean tracks →
  ∃ records,
    mapM (m3u_song int_div_1000) tracks = Some records ∧
    write_batch records = Some written ∧
    Forall parsed_song records ∧ Forall duration_needs_metadata records.
Proof.
  unfold write_m3u.
  destruct (m3u_all_lines int_div_1000 tracks) as [lines|] eqn:Hlines;
    [|done].
  cbn [mbind option_bind]. intros Heq Hclean.
  apply (inj Some) in Heq. subst written.
  assert (∃ records,
    mapM (m3u_song int_div_1000) tracks = Some records ∧
    write_songs records = Some (concat ((λ x, x ++ [LF]) <$> lines)) ∧
    Forall parsed_song records ∧ Forall duration_needs_metadata records)
    as (records & Hrec & Hwrite & Hparsed & Hdur).
  { clear - Hlines Hclean. revert lines Hlines.
    induction Hclean as [|track tracks [Hpath Hmeta] _ IH]; intros lines.
    - intros [= <-]. by exists [].
    - simpl. destruct (m3u_lines int_div_1000 track) as [l|] eqn:Hl; [|done].
      simpl.
      destruct (m3u_all_lines int_div_1000 tracks) as [ls|]; [|done].
      simpl. intros [= <-].
      destruct (IH ls eq_refl) as (records & Hrec & Hwrite & Hparsed & Hdur).
      apply m3u_lines_song in Hl as (p & d & md & Hsong & -> & Hne & Hmd & Hw).
      exists (song_of (m3u_location track) d md :: records).
      rewrite Hsong, Hrec. simpl. rewrite Hw, Hwrite. simpl.
      rewrite fmap_app, concat_app. split; [done|]. split; [done|].
      split; constructor; try done.
      + exists (m3u_location track), d, md. split; [done|]. split; [done|].
        unfold m3u_song in Hsong.
        destruct (m3u_artists track) as [artists|]; [|done].
        rewrite (Hmd artists eq_refl). by apply Hmeta.
      + unfold duration_needs_metadata.
        destruct (mk_song_lookup (m3u_location track)
                    (artist_title md).2 (artist_title md).1 d md)
          as (_ & _ & Hm).
        unfold song_of. rewrite Hm. by intros [= ->]. }
  exists records. split; [done|]. split; [|done].
  unfold write_batch. rewrite Hwrite. cbn [mbind option_bind].
  rewrite join_lines, fmap_cons. cbn [concat].
  by rewrite <- !(assoc_L (++)).
Qed.
End write_m3u_parse.



(** ** Pagination of the library: [fetch_all_playlists], [fetch_liked_songs] *)

Section library_pagination.
Context (sp : library) (log0 : list library_request).

Lemma offset_calls_S {R} (call : nat → nat → R) limit n :
  offset_calls call limit (S n)
  = offset_calls call limit n ++ [call limit (n * limit)%nat].
Proof. unfold offset_calls. by rewrite seq_S, fmap_app. Qed.

Lemma fetch_all_playlists_loop_spec limit (pages : list playlist_page) :
  ∀ (fuel done_pages : nat) (playlists : list playlist),
    serves (sp_current_user_playlists sp) playlist_page_next
      CurrentUserPlaylists log0 limit pages →
    (done_pages < length pages)%nat →
    (length pages - done_pages ≤ fuel)%nat →
    fetch_all_playlists_loop fuel sp
      (log0 ++ offset_calls CurrentUserPlaylists limit done_pages)
      playlists limit (done_pages * limit)
    = Returned (playlists
                ++ concat (playlist_page_items <$> drop done_pages pages),
                log0 ++ offset_calls CurrentUserPlaylists limit (length pages)).
Proof.
  induction fuel as [|fuel IH]; intros done_pages playlists Hserves Hlt Hfuel;
    [lia|].
  destruct (lookup_lt_is_Some_2 pages done_pages Hlt) as [p Hp].
  destruct Hserves as [Hne Hpages].
  destruct (Hpages done_pages p Hp) as [Hanswer Hnext].
  simpl. rewrite Hanswer, Hnext.
  rewrite <- (assoc_L (++)), <- offset_calls_S.
  rewrite (drop_S _ _ _ Hp). simpl.
  case_bool_decide as Hlast; simpl.
  - rewrite drop_ge by lia. simpl. by rewrite app_nil_r, Hlast.
  - replace (done_pages * limit + limit)%nat with (S done_pages * limit)%nat
      by lia.
    rewrite IH; [by rewrite <- (assoc_L (++))|done|lia|lia].
Qed.

Lemma fetch_liked_songs_loop_spec limit (pages : list page) :
  ∀ (fuel done_pages : nat) (items : list (option item)),
    serves (sp_current_user_saved_tracks sp) page_next
      CurrentUserSavedTracks log0 limit pages →
    (done_pages < length pages)%nat →
    (length pages - done_pages ≤ fuel)%nat →
    fetch_liked_songs_loop fuel sp
      (log0 ++ offset_calls CurrentUserSavedTracks limit done_pages)
      items limit (done_pages * limit)
    = Returned (items ++ concat (page_items <$> drop done_pages pages),
                log0 ++ offset_calls CurrentUserSavedTracks limit
                          (length pages)).
Proof.
  induction fuel as [|fuel IH]; intros done_pages items Hserves Hlt Hfuel;
    [lia|].
  destruct (lookup_lt_is_Some_2 pages done_pages Hlt) as [p Hp].
  destruct Hserves as [Hne Hpages].
  destruct (Hpages done_pages p Hp) as [Hanswer Hnext].
  simpl. rewrite Hanswer, Hnext.
  rewrite <- (assoc_L (++)), <- offset_calls_S.
  rewrite (drop_S _ _ _ Hp). simpl.
  case_bool_decide as Hlast; simpl.
  - rewrite drop_ge by lia. simpl. by rewrite app_nil_r, Hlast.
  - replace (done_pages * limit + limit)%nat with (S done_pages * limit)%nat
      by lia.
    rewrite IH; [by rewrite <- (assoc_L (++))|done|lia|lia].
Qed.
End library_pagination.

(** When the service hands out the user's playlists in a finite sequence of
    pages of which exactly the last has an empty 'next' field, and the fuel
    covers the number of pages, [fetch_all_playlists] calls
    [current_user_playlists] at offsets 0, 50, 100, ... once per page and
    returns the playlists of all pages in order, whatever the sizes of the
    pages are. *)
Theorem fetch_all_playlists_exhaustive (sp : library)
  (log0 : list library_request) (pages : list playlist_page) (fuel : nat) :
  serves (sp_current_user_playlists sp) playlist_page_next
    CurrentUserPlaylists log0 50 pages →
  (length pages ≤ fuel)%nat →
  fetch_all_playlists fuel sp log0
  = Returned (concat (playlist_page_items <$> pages),
              log0 ++ offset_calls CurrentUserPlaylists 50 (length pages)).
Proof.
  intros Hserves Hfuel. unfold fetch_all_playlists.
  pose proof (fetch_all_playlists_loop_spec sp log0 50 pages fuel 0 []
                Hserves) as H.
  unfold offset_calls in H at 1. simpl in H. rewrite app_nil_r in H.
  apply H; [|lia]. destruct Hserves as [Hne _]. destruct pages; [done|].
  simpl. lia.
Qed.

Lemma fetch_all_playlists_exhaustive_witness :
  fetch_all_playlists 2 demo_library []
  = Returned (concat (playlist_page_items <$> demo_playlist_pages),
              [] ++ offset_calls CurrentUserPlaylists 50
                      (length demo_playlist_pages)).
Proof.
  apply (fetch_all_playlists_exhaustive demo_library [] demo_playlist_pages 2).
  - split; [done|]. intros [|[|k]] p Hk; [| |done];
      injection Hk as <-; split; reflexivity.
  - simpl. lia.
Defined.

(** The same for the liked songs: [fetch_liked_songs] calls
    [current_user_saved_tracks] at offsets 0, 50, 100, ... once per page and
    returns the items of all pages in order. *)
Theorem fetch_liked_songs_exhaustive (sp : library)
  (log0 : list library_request) (pages : list page) (fuel : nat) :
  serves (sp_current_user_saved_tracks sp) page_next
    CurrentUserSavedTracks log0 50 pages →
  (length pages ≤ fuel)%nat →
  fetch_liked_songs fuel sp log0
  = Returned (concat (page_items <$> pages),
              log0 ++ offset_calls CurrentUserSavedTracks 50 (length pages)).
Proof.
  intros Hserves Hfuel. unfold fetch_liked_songs.
  pose proof (fetch_liked_songs_loop_spec sp log0 50 pages fuel 0 []
                Hserves) as H.
  unfold offset_calls in H at 1. simpl in H. rewrite app_nil_r in H.
  apply H; [|lia]. destruct Hserves as [Hne _]. destruct pages; [done|].
  simpl. lia.
Qed.

Lemma fetch_liked_songs_exhaustive_witness :
  fetch_liked_songs 2 demo_library []
  = Returned (concat (page_items <$> two_pages),
              [] ++ offset_calls CurrentUserSavedTracks 50 (length two_pages)).
Proof.
  apply (fetch_liked_songs_exhaustive demo_library [] two_pages 2).
  - split; [done|]. intros [|[|k]] p Hk; [| |done];
      injection Hk as <-; split; reflexivity.
  - simpl. lia.
Defined.

(** ** What the paginated readers return *)

Section pagination_returns.
Context (sp : spotify) (log0 : list request) (playlist_id : text).

Lemma offset_requests_snoc limit n :
  offset_requests playlist_id limit (S n) =
  offset_requests playlist_id limit n ++
  [PlaylistItems playlist_id (Some limit) (Some (n * limit)%nat)].
Proof. unfold offset_requests. by rewrite seq_S, fmap_app. Qed.

Lemma fetch_playlist_tracks_loop_returns limit (fuel : nat) :
  ∀ (n : nat) (acc items : list (option item)) (log' : list request),
    fetch_playlist_tracks_loop fuel sp
      (log0 ++ offset_requests playlist_id limit n) playlist_id acc limit
      (n * limit)
    = Returned (items, log') →
    ∃ pages,
      page_chain pages ∧ (length pages ≤ fuel)%nat ∧
      items = acc ++ concat (page_items <$> pages) ∧
      log' = log0 ++ offset_requests playlist_id limit (n + length pages) ∧
      ∀ k p, pages !! k = Some p →
        sp_playlist_items sp
          (log0 ++ offset_requests playlist_id limit (n + k)) playlist_id
          (Some limit) (Some ((n + k) * limit)%nat) = Some p.
Proof.
  induction fuel as [|fuel IH]; intros n acc items log'; simpl; [done|].
  destruct (sp_playlist_items sp _ playlist_id (Some limit)
              (Some (n * limit)%nat)) as [response|] eqn:Hresponse; [|done].
  rewrite <- (assoc_L (++)), <- offset_requests_snoc.
  destruct (truthy_text (page_next response)) eqn:Hnext.
  - replace (n * limit + limit)%nat with (S n * limit)%nat by lia.
    intros (pages & Hchain & Hlen & -> & -> & Hpages)%IH.
    exists (response :: pages). split; [|split; [|split; [|split]]].
    + simpl. destruct pages; [done|]. done.
    + simpl. lia.
    + simpl. by rewrite <- (assoc_L (++)).
    + simpl. do 2 f_equal. lia.
    + intros [|k] p Hk.
      * injection Hk as <-. by rewrite Nat.add_0_r.
      * replace (n + S k)%nat with (S n + k)%nat by lia. by apply Hpages.
  - intros [= <- <-]. exists [response].
    split; [done|]. split; [simpl; lia|]. split; [by simpl; rewrite app_nil_r|].
    split; [simpl; do 2 f_equal; lia|].
    intros [|k] p Hk; [|done]. injection Hk as <-. by rewrite Nat.add_0_r.
Qed.

Lemma get_playlist_tracks_loop_returns (fuel : nat) :
  ∀ (results : page) (log : list request) (acc items : list (option item))
    (log' : list request),
    get_playlist_tracks_loop fuel sp log results acc = Returned (items, log') →
    ∃ pages,
      page_chain (results :: pages) ∧ (length pages ≤ fuel)%nat ∧
      items = acc ++ concat (page_items <$> pages) ∧
      log' = log ++ (Next <$> removelast (results :: pages)) ∧
      ∀ k p, pages !! k = Some p →
        ∃ previous,
          (results :: pages) !! k = Some previous ∧
          sp_next sp (log ++ (Next <$> take k (results :: pages))) previous
          = Some p.
Proof.
  induction fuel as [|fuel IH]; intros results log acc items log'.
  - simpl. destruct (truthy_text (page_next results)) eqn:Hnext; [done|].
    intros [= <- <-]. exists []. simpl. rewrite !app_nil_r.
    repeat split; done.
  - simpl. destruct (truthy_text (page_next results)) eqn:Hnext.
    + destruct (sp_next sp log results) as [results'|] eqn:Hresults'; [|done].
      intros (pages & Hchain & Hlen & -> & -> & Hpages)%IH.
      exists (results' :: pages). split; [done|]. split; [simpl; lia|].
      split; [simpl; by rewrite <- (assoc_L (++))|].
      split; [simpl; by rewrite <- (assoc_L (++))|].
      intros [|k] p Hk.
      * injection Hk as <-. exists results. split; [done|].
        simpl. by rewrite app_nil_r.
      * destruct (Hpages k p Hk) as (previous & Hprev & Hp).
        exists previous. split; [done|].
        simpl. by rewrite <- (assoc_L (++)) in Hp.
    + intros [= <- <-]. exists []. simpl. rewrite !app_nil_r.
      repeat split; try done. lia.
Qed.
End pagination_returns.

(** [fetch_playlist_tracks] never returns a part of a playlist: whenever it
    returns, its result is the concatenation of all the pages that the
    service answered, at offsets 0, 100, 200, ..., up to the first page
    with an empty 'next' field, and these are its only requests. *)
Theorem fetch_playlist_tracks_returns (fuel : nat) (sp : spotify)
  (log : list request) (playlist_id : text) (items : list (option item))
  (log' : list request) :
  fetch_playlist_tracks fuel sp log playlist_id = Returned (items, log') →
  ∃ pages,
    page_chain pages ∧ (length pages ≤ fuel)%nat ∧
    items = concat (page_items <$> pages) ∧
    log' = log ++ offset_requests playlist_id 100 (length pages) ∧
    ∀ k p, pages !! k = Some p →
      sp_playlist_items sp (log ++ offset_requests playlist_id 100 k)
        playlist_id (Some 100%nat) (Some (k * 100)%nat) = Some p.
Proof.
  unfold fetch_playlist_tracks. intros Hfetch.
  pose proof (fetch_playlist_tracks_loop_returns sp log playlist_id 100 fuel
                0 [] items log') as H.
  unfold offset_requests in H at 1. simpl in H. rewrite app_nil_r in H.
  by apply H.
Qed.

Lemma fetch_playlist_tracks_returns_witness :
  ∃ pages,
    page_chain pages ∧ (length pages ≤ 2)%nat ∧
    concat (page_items <$> two_pages) = concat (page_items <$> pages) ∧
    offset_requests (txt "pl") 100 2
    = [] ++ offset_requests (txt "pl") 100 (length pages) ∧
    ∀ k p, pages !! k = Some p →
      sp_playlist_items two_page_service
        ([] ++ offset_requests (txt "pl") 100 k) (txt "pl") (Some 100%nat)
        (Some (k * 100)%nat) = Some p.
Proof.
  apply (fetch_playlist_tracks_returns 2 two_page_service [] (txt "pl")
           (concat (page_items <$> two_pages))
           (offset_requests (txt "pl") 100 2)).
  vm_compute. reflexivity.
Defined.


